(** * Sportpesa_scraper: the alias resolution core

    A shallow embedding of [Utils/alias_kv.py], [Utils/alias_utils.py],
    [Utils/alias_utils_tournaments.py] and the commands of
    [Utils/alias_review_cli.py] that touch the stores, followed by the
    properties of the resolver, the review queue and the id counter.

    Python strings are sequences of Unicode code points: [str] is [list N].
    The parts of Python's Unicode database that cannot be written down in
    full (NFKD, case mapping, the regex classes [\w] and [\d]) and the
    iteration order of a [set] are fields of an environment [pyenv]; every
    general theorem holds for every environment, and closed evaluations use
    [ascii_env], which agrees with CPython on ASCII text. *)

From Stdlib Require Import NArith ZArith String Ascii List Lia Bool Sorted.
From stdpp Require Import base gmap list.
Import ListNotations.

Set Default Proof Using "Type".

(** ** Python strings *)

Definition str := list N.

(** A string literal of the development, as code points (ASCII only). *)
Definition py (s : string) : str := List.map N_of_ascii (list_ascii_of_string s).

(** Python's [str.isspace] on one character, which is also what [str.strip()],
    [str.split()] and the regex class [\s] use (CPython's
    [_PyUnicode_IsWhitespace]). *)
Definition isspace (c : N) : bool :=
  ((9 <=? c) && (c <=? 13) || (28 <=? c) && (c <=? 32)
   || (c =? 133) || (c =? 160) || (c =? 5760)
   || (8192 <=? c) && (c <=? 8202)
   || (c =? 8232) || (c =? 8233) || (c =? 8239) || (c =? 8287) || (c =? 12288))%N.

Definition chr_in (cs : str) (c : N) : bool := existsb (N.eqb c) cs.

Definition str_eqb (a b : str) : bool := bool_decide (a = b).

(** [x in xs] for a list of strings. *)
Definition str_in (x : str) (xs : list str) : bool := existsb (str_eqb x) xs.

(** [c in s] for a one-character [c]. *)
Definition contains (c : N) (s : str) : bool := chr_in s c.

Fixpoint lstrip_by (p : N -> bool) (s : str) : str :=
  match s with
  | c :: t => if p c then lstrip_by p t else s
  | [] => []
  end.

Definition rstrip_by (p : N -> bool) (s : str) : str := rev (lstrip_by p (rev s)).

Definition strip_by (p : N -> bool) (s : str) : str := rstrip_by p (lstrip_by p s).

(** [s.strip()] and [s.strip(chars)] *)
Definition strip (s : str) : str := strip_by isspace s.
Definition strip_chars (cs : str) (s : str) : str := strip_by (chr_in cs) s.
Definition rstrip_chars (cs : str) (s : str) : str := rstrip_by (chr_in cs) s.

(** The maximal non-empty runs of characters that are not delimiters. This is
    [s.split()] for [isspace], and [[p for p in s.split(d) if p]] or
    [[t for t in re.split("[ds]+", s) if t]] for a set of delimiters. *)
Fixpoint fields (d : N -> bool) (s : str) : list str :=
  match s with
  | [] => []
  | c :: t =>
      if d c then fields d t
      else match t with
           | [] => [[c]]
           | c' :: _ =>
               if d c' then [c] :: fields d t
               else match fields d t with
                    | tok :: toks => (c :: tok) :: toks
                    | [] => [[c]]
                    end
           end
  end.

(** [s.split()] *)
Definition split_ws (s : str) : list str := fields isspace s.

(** [s.split(",", 1)]: one string when there is no separator, else two. *)
Fixpoint split1 (sep : N) (s : str) : str * option str :=
  match s with
  | [] => ([], None)
  | c :: t =>
      if (c =? sep)%N then ([], Some t)
      else let '(a, b) := split1 sep t in (c :: a, b)
  end.

(** [sep.join(parts)] *)
Fixpoint join (sep : str) (parts : list str) : str :=
  match parts with
  | [] => []
  | [p] => p
  | p :: ps => p ++ sep ++ join sep ps
  end.

(** [s.replace(a, b)] for a one-character [a]. *)
Definition replace (a : N) (b : str) (s : str) : str :=
  flat_map (fun c => if (c =? a)%N then b else [c]) s.

Definition SP : N := 32.
Definition sp : str := [SP].

(** Order of strings: code point by code point, as Python compares [str]. *)
Fixpoint str_ltb (a b : str) : bool :=
  match a, b with
  | [], [] => false
  | [], _ :: _ => true
  | _ :: _, [] => false
  | x :: a', y :: b' => (x <? y)%N || ((x =? y)%N && str_ltb a' b')
  end.

Fixpoint insert_sorted (x : str) (l : list str) : list str :=
  match l with
  | [] => [x]
  | y :: l' =>
      if str_eqb x y then l
      else if str_ltb x y then x :: l
      else y :: insert_sorted x l'
  end.

(** [sorted(set(l))] *)
Definition sorted_set (l : list str) : list str := fold_right insert_sorted [] l.

(** ** The environment: Unicode database and set iteration order *)

Record pyenv := {
  (** regex [\w]: [str.isalnum] or underscore *)
  isword : N -> bool;
  (** regex [\d]: a Unicode decimal digit *)
  isdecimal : N -> bool;
  (** [str.lower] and [str.title] *)
  str_lower : str -> str;
  str_title : str -> str;
  (** [unicodedata.normalize("NFKD", s)] and [unicodedata.combining(c) != 0] *)
  nfkd : str -> str;
  combining : N -> bool;
  (** the order in which a [set] built by inserting the given strings one
      after the other is iterated; fixed for one interpreter run *)
  set_iter : list str -> list str;
  (** iterating a set gives its elements *)
  set_iter_In : forall l x, In x (set_iter l) <-> In x l;
  (** lower-casing neither makes nor removes a character below ["A"]
      (digits, punctuation, the space) *)
  str_lower_low : forall c s, (c < 65)%N -> In c (str_lower s) <-> In c s
}.

(** ** Python's [re], for the patterns of this program

    Every repetition in the program's patterns is over a single-character
    class, so a pattern is a sequence of atoms: the assertion [\b], or a
    class repeated between [lo] and [hi] times ([hi = None]: unbounded).
    Repetition is greedy and backtracks; alternatives are tried in order. *)

Inductive atom :=
| Bnd
| Rep (cls : N -> bool) (lo : nat) (hi : option nat).

Definition One (cls : N -> bool) : atom := Rep cls 1 (Some 1).
Definition Star (cls : N -> bool) : atom := Rep cls 0 None.
Definition Plus (cls : N -> bool) : atom := Rep cls 1 None.

Section Regex.
Variable U : pyenv.

Definition is_w (o : option N) : bool :=
  match o with Some c => isword U c | None => false end.

Definition at_boundary (prev : option N) (s : str) : bool :=
  xorb (is_w prev) (is_w (head s)).

(** [match_here p prev s]: the length of the match of [p] at the start of
    [s], where [prev] is the character before it. *)
Fixpoint match_here (p : list atom) (prev : option N) (s : str) : option nat :=
  match p with
  | [] => Some 0
  | Bnd :: p' => if at_boundary prev s then match_here p' prev s else None
  | Rep cls lo hi :: p' =>
      (fix rep (lo : nat) (hi : option nat) (prev : option N) (s : str)
           {struct s} : option nat :=
         let stop := match lo with 0 => match_here p' prev s | S _ => None end in
         match s with
         | c :: t =>
             if cls c && match hi with Some 0 => false | _ => true end then
               match rep (pred lo) (option_map pred hi) (Some c) t with
               | Some n => Some (S n)
               | None => stop
               end
             else stop
         | [] => stop
         end) lo hi prev s
  end.

Fixpoint first_match (alts : list (list atom)) (prev : option N) (s : str)
  : option nat :=
  match alts with
  | [] => None
  | p :: alts' =>
      match match_here p prev s with
      | Some n => Some n
      | None => first_match alts' prev s
      end
  end.

(** [re.sub(alts, " ", s)], scanning left to right; [skip] counts the
    characters of the current match still to be dropped. None of the
    program's patterns matches the empty string. *)
Fixpoint sub_aux (alts : list (list atom)) (skip : nat) (prev : option N)
         (s : str) : str :=
  match s with
  | [] => []
  | c :: t =>
      match skip with
      | S k => sub_aux alts k (Some c) t
      | 0 =>
          match first_match alts prev s with
          | Some (S n) => SP :: sub_aux alts n (Some c) t
          | _ => c :: sub_aux alts 0 (Some c) t
          end
      end
  end.

Definition re_sub_space (alts : list (list atom)) (s : str) : str :=
  sub_aux alts 0 None s.
End Regex.

(** ** [Utils/alias_kv.py]: the persisted alias cache

    Each of the two SQLite tables has the alias as primary key: a finite map
    from lookup key to id. *)

Module alias_kv.

Record db := {
  player_aliases : gmap str Z;
  tournament_aliases : gmap str Z
}.

(** [init_db] creates the two tables when they do not exist. *)
Definition empty_db : db :=
  {| player_aliases := ∅; tournament_aliases := ∅ |}.

(** [INSERT ... ON CONFLICT(alias) DO UPDATE], row after row. *)
Definition upsert_many (pairs : list (str * Z)) (m : gmap str Z) : gmap str Z :=
  fold_left (fun acc kv => <[kv.1 := kv.2]> acc) pairs m.

Definition upsert_player_aliases (pairs : list (str * Z)) (d : db) : db :=
  {| player_aliases := upsert_many pairs (player_aliases d);
     tournament_aliases := tournament_aliases d |}.

Definition upsert_tournament_aliases (pairs : list (str * Z)) (d : db) : db :=
  {| player_aliases := player_aliases d;
     tournament_aliases := upsert_many pairs (tournament_aliases d) |}.

Definition get_player_id (alias : str) (d : db) : option Z :=
  player_aliases d !! alias.

Definition get_tournament_id (alias : str) (d : db) : option Z :=
  tournament_aliases d !! alias.

End alias_kv.

(** ** The ASCII environment

    CPython's behaviour on code points below 128; other code points are
    left alone and belong to no class. Sets are iterated in insertion
    order (one of the orders an interpreter run can have). *)

Definition is_upper_ascii (c : N) : bool := ((65 <=? c) && (c <=? 90))%N.
Definition is_lower_ascii (c : N) : bool := ((97 <=? c) && (c <=? 122))%N.
Definition is_digit_ascii (c : N) : bool := ((48 <=? c) && (c <=? 57))%N.
Definition is_alpha_ascii (c : N) : bool := is_upper_ascii c || is_lower_ascii c.

Definition lower_ascii (c : N) : N := if is_upper_ascii c then (c + 32)%N else c.
Definition upper_ascii (c : N) : N := if is_lower_ascii c then (c - 32)%N else c.

(** [str.title]: a cased character is upper-cased after an uncased one and
    lower-cased after a cased one. *)
Fixpoint title_ascii (prev_cased : bool) (s : str) : str :=
  match s with
  | [] => []
  | c :: t =>
      if is_alpha_ascii c
      then (if prev_cased then lower_ascii c else upper_ascii c) :: title_ascii true t
      else c :: title_ascii false t
  end.

Fixpoint dedup_str (l : list str) : list str :=
  match l with
  | [] => []
  | x :: l' => if str_in x l' then dedup_str l' else x :: dedup_str l'
  end.

(** The first occurrence of each string, in order: the effect of skipping
    what is already in a [seen] set, and the insertion order of a set. *)
Definition insertion_order (l : list str) : list str := rev (dedup_str (rev l)).

Lemma str_in_In x l : str_in x l = true <-> In x l.
Proof.
  unfold str_in, str_eqb. rewrite existsb_exists. split.
  - intros (y & Hy & E). apply bool_decide_eq_true in E. now subst.
  - intros H. exists x. split; [assumption | now apply bool_decide_eq_true].
Qed.

Lemma dedup_str_In l x : In x (dedup_str l) <-> In x l.
Proof.
  induction l as [|y l IH]; simpl; [tauto|].
  destruct (str_in y l) eqn:E.
  - rewrite IH. apply str_in_In in E. split; [tauto|]. intros [->|H]; assumption.
  - simpl. rewrite IH. tauto.
Qed.

Lemma insertion_order_In l x : In x (insertion_order l) <-> In x l.
Proof.
  unfold insertion_order. rewrite <- in_rev, dedup_str_In, <- in_rev. tauto.
Qed.

Lemma lower_ascii_low (c : N) (s : str) :
  (c < 65)%N -> In c (List.map lower_ascii s) <-> In c s.
Proof.
  intros Hc. rewrite in_map_iff. unfold lower_ascii, is_upper_ascii. split.
  - intros (x & Hx & Hin).
    destruct ((65 <=? x) && (x <=? 90))%N eqn:E; [|now subst].
    apply andb_true_iff in E as [E _]. apply N.leb_le in E. lia.
  - intros Hin. exists c. split; [|assumption].
    destruct ((65 <=? c) && (c <=? 90))%N eqn:E; [|reflexivity].
    apply andb_true_iff in E as [E _]. apply N.leb_le in E. lia.
Qed.

Definition ascii_env : pyenv :=
  {| isword := fun c => is_alpha_ascii c || is_digit_ascii c || (c =? 95)%N;
     isdecimal := is_digit_ascii;
     str_lower := List.map lower_ascii;
     str_title := title_ascii false;
     nfkd := fun s => s;
     combining := fun _ => false;
     set_iter := insertion_order;
     set_iter_In := insertion_order_In;
     str_lower_low := lower_ascii_low |}.

(** Case-insensitive matching of [re.IGNORECASE] on a Unicode pattern: a
    lower-case ASCII letter of the pattern also matches its upper-case form
    and the letters CPython's [sre] folds onto it (dotted and dotless i for
    [i], long s for [s], the Kelvin sign for [k]); the class [[A-Z]] matches
    the 52 ASCII letters and these four. *)
Definition ci (l : N) (x : N) : bool :=
  ((x =? l) || (x =? l - 32)
   || ((l =? 105) && ((x =? 304) || (x =? 305)))
   || ((l =? 115) && (x =? 383))
   || ((l =? 107) && (x =? 8490)))%N.

Definition ci_AZ (x : N) : bool :=
  (is_alpha_ascii x || (x =? 304) || (x =? 305) || (x =? 383) || (x =? 8490))%N.

(** A word of the pattern, letter by letter. *)
Definition word (w : string) : list atom := List.map (fun l => One (ci l)) (py w).

Definition chr (c : N) : atom := One (N.eqb c).

(** Exceptions of the modelled code. *)
Inductive exn :=
| IndexError
| ValueError (msg : str)
| AttributeError (name : string).

Inductive result (A : Type) :=
| Ok (a : A)
| Raise (e : exn).
Arguments Ok {A} a.
Arguments Raise {A} e.

(** ** [Utils/alias_utils.py]: players *)

Module alias_utils.
Section WithEnv.
Variable U : pyenv.

(** [_CLEAN_PATTERNS], joined by [|] and compiled with [re.UNICODE | re.IGNORECASE] *)
Definition emoji (c : N) : bool :=
  (chr_in [128994; 128308; 128993; 9898; 65039; 11088; 127987; 8205; 127752] c
   || (127462 <=? c) && (c <=? 127487))%N.

Definition _CLEAN_RE : list (list atom) :=
  [ [chr 91; Rep ci_AZ 1 (Some 3); chr 93];
    [chr 40; Star isspace; Rep ci_AZ 2 (Some 3); Star isspace; chr 41];
    [chr 40; Star isspace; One (ci 119); One (ci 99); Star isspace; chr 41];
    [chr 40; Star isspace; One (ci 113); Star isspace; chr 41];
    [chr 35; Star isspace; Plus (isdecimal U)];
    [Bnd] ++ word "seed" ++ [Star isspace; Plus (isdecimal U); Bnd];
    [Bnd] ++ word "qualifier" ++ [Bnd];
    [Bnd] ++ word "retired" ++ [Bnd];
    [Bnd] ++ word "walkover" ++ [Bnd];
    [Plus emoji];
    [Rep isspace 2 None] ].

Definition _strip_acc (s : str) : str :=
  List.filter (fun c => negb (combining U c)) (nfkd U s).

Definition _key (s : str) : str := str_lower U (strip s).

(** the class [[^\w\s\-\.,/']] *)
Definition not_kept (c : N) : bool :=
  negb (isword U c || isspace c || chr_in (py "-.,/'") c).

Definition _clean_display_name (s : str) : str :=
  let s := replace 8203 [] s in
  let s := replace 96 (py "'")
             (replace 8217 (py "'") (replace 8212 (py "-") (replace 8211 (py "-") s))) in
  let s := re_sub_space U _CLEAN_RE s in
  let s := re_sub_space U [[One not_kept]] s in
  strip_chars (py " ,.-/") (re_sub_space U [[Rep isspace 2 None]] s).

Definition _SURNAME_PARTICLES : list str :=
  List.map py
    [ "al"; "el"; "bin"; "ibn"; "ben"; "de"; "del"; "della"; "delle"; "dei"; "degli";
      "di"; "do"; "dos"; "da"; "das"; "du"; "des"; "la"; "le"; "lo";
      "van"; "von"; "der"; "den"; "ter"; "ten"; "vander"; "vanden"; "vande"; "vd"; "v.d";
      "san"; "santa"; "santo"; "los"; "las" ]%string.

(** [t.lower() in _SURNAME_PARTICLES] *)
Definition is_particle (t : str) : bool := str_in (str_lower U t) _SURNAME_PARTICLES.

Definition _tokenize (s : str) : list str := fields (chr_in [32; 9; 45]%N) (strip s).

(** [toks[i]] for an index in range *)
Definition at_ (toks : list str) (i : nat) : str := nth i toks [].

(** [p[0]] of a non-empty string *)
Definition initial (p : str) : str := firstn 1 p.

(** [None] is the [IndexError] of [given.split()[0]] on a string of spaces. *)
Definition _first_cores_from_given (given : str) : option (list str) :=
  match given with
  | [] => Some []
  | _ =>
      match split_ws given with
      | [] => None
      | t0 :: _ =>
          let cores := [t0] in
          let cores :=
            if contains 45 t0 then
              let parts := fields (N.eqb 45) t0 in
              match parts with
              | [] => cores
              | _ => cores ++ parts
                       ++ [join (py ".") (List.map initial parts) ++ py "."]
                       ++ [join [] (List.map initial parts)]
              end
            else cores in
          Some (set_iter U cores)
      end
  end.

(** [for i in range(len(toks)-1, -1, -1)]: the rightmost index below [n]
    whose token is not a particle. *)
Fixpoint rightmost_non_particle (toks : list str) (n : nat) : option nat :=
  match n with
  | 0 => None
  | S i => if is_particle (at_ toks i) then rightmost_non_particle toks i else Some i
  end.

(** [while j-1 >= 0 and toks[j-1].lower() in _SURNAME_PARTICLES: j -= 1] *)
Fixpoint attach_particles (toks : list str) (j : nat) : nat :=
  match j with
  | 0 => 0
  | S j' => if is_particle (at_ toks j') then attach_particles toks j' else j
  end.

(** [toks[a:b]] *)
Definition slice (toks : list str) (a b : nat) : list str := firstn (b - a) (skipn a toks).

Definition _last_cores_from_surname (surname : str) : list str :=
  let toks := _tokenize surname in
  match toks with
  | [] => []
  | _ =>
      let out := [join sp toks] in
      match rightmost_non_particle toks (length toks) with
      | None => set_iter U out
      | Some ni =>
          let out := out ++ [at_ toks ni] in
          let j := attach_particles toks ni in
          let out := out ++ [join sp (slice toks j (ni + 1))] in
          let out :=
            match ni with
            | S i => if is_particle (at_ toks i) then out
                     else out ++ [join sp [at_ toks i; at_ toks ni]]
            | 0 => out
            end in
          set_iter U
            (List.filter (fun v => negb (is_particle (strip v))) (set_iter U out))
      end
  end.

Definition nonempty (s : str) : bool := match s with [] => false | _ => true end.

Definition _flip_last_first_if_any (name : str) : str :=
  let n := _clean_display_name name in
  if negb (contains 44 n) then n
  else
    match split1 44 n with
    | (_, None) => n
    | (p0, Some p1) =>
        let last := strip p0 in
        let first := strip p1 in
        if negb (nonempty last) || negb (nonempty first) then n
        else
          let first :=
            join sp (List.map (fun p => rstrip_chars (py ".") (strip p))
                       (List.filter (fun p => nonempty (strip p)) (split_ws first))) in
          let last := strip last in
          strip (first ++ sp ++ last)
    end.

Definition _kv_hit (name : str) (d : alias_kv.db) : option Z :=
  let c := _clean_display_name name in
  let k1 := _key c in
  match alias_kv.get_player_id k1 d with
  | Some uid => Some uid
  | None => alias_kv.get_player_id (_key (_strip_acc c)) d
  end.

(** *** The stores *)

(** A record of [all_players.json]; a missing field reads as the empty
    string, as every access is [rec.get(field, "")]. *)
Record player := {
  canonical_name : str;
  first_name : str;
  last_name : str;
  gender : str;
  preferred_hand : str
}.

(** [{"meta": {"db_version", "next_id"}, "data": {id: record}}]; the
    records are kept in the order of the file. [next_id = None]: the
    counter is missing from the file. *)
Record doc := {
  db_version : str;
  next_id : option Z;
  data : list (Z * player)
}.

Record context := {
  source_bookmaker : str;
  tournament : str;
  opponent_raw : str;
  event_time_utc : str
}.

Record proposal := {
  proposal_id : str;
  status : str;
  raw_samples : list str;
  canonical_name_guess : str;
  first_name_guess : str;
  last_name_guess : str;
  gender_guess : str;
  preferred_hand_guess : str;
  aliases : list str;
  created_at_utc : str;
  last_seen_utc : str;
  sightings : Z;
  context_ : list context
}.

(** What the functions of the module read and write: the SQLite file, the
    two JSON files and the module's global [_EXT_INDEX]. [ext_lookups] is a
    ghost counter of the calls of [_ext_lookup]. *)
Record world := {
  kv : alias_kv.db;
  players : doc;
  unmapped : list proposal;
  _EXT_INDEX : option (gmap str Z);
  ext_lookups : nat
}.

Definition set_kv (d : alias_kv.db) (w : world) : world :=
  {| kv := d; players := players w; unmapped := unmapped w;
     _EXT_INDEX := _EXT_INDEX w; ext_lookups := ext_lookups w |}.

Definition set_unmapped (q : list proposal) (w : world) : world :=
  {| kv := kv w; players := players w; unmapped := q;
     _EXT_INDEX := _EXT_INDEX w; ext_lookups := ext_lookups w |}.

(** [(max([int(i) for i in data.keys()]) + 1) if data else 1] *)
Definition fresh_id {A} (d : list (Z * A)) : Z :=
  match d with
  | [] => 1
  | (i, _) :: d' => fold_left Z.max (List.map fst d') i + 1
  end%Z.

Definition _ensure_players_meta (p : doc) : doc :=
  match next_id p with
  | Some _ => p
  | None => {| db_version := db_version p; next_id := Some (fresh_id (data p)); data := data p |}
  end.

(** [load_databases()]: the two documents as read from disk. *)
Definition load_databases (w : world) : doc * list proposal :=
  (_ensure_players_meta (players w), unmapped w).

(** [l[-1]]; [None] is the [IndexError] of an empty list *)
Definition final (l : list str) : option str := last l.

(** [a or b] on strings *)
Definition or_ (a b : str) : str := if nonempty a then a else b.

(** [f"{f} {l}".strip()] for every first core and last core, in loop order *)
Definition core_pairs (first_cores last_cores : list str) : list str :=
  flat_map (fun f => List.map (fun l => strip (f ++ sp ++ l)) last_cores) first_cores.

(** *** The extended index *)

(** The keys one record contributes, in the order of [list(keys)];
    [None] is an [IndexError] of [.split()[0]] or [.split()[-1]]. *)
Definition ext_keys (rec : player) : option (list str) :=
  let first := strip (first_name rec) in
  let last := strip (last_name rec) in
  let canon := strip (or_ (canonical_name rec) (first ++ sp ++ last)) in
  if negb (nonempty first || nonempty last || nonempty canon) then Some []
  else
    first_cores ← _first_cores_from_given (or_ first canon);
    surname ← (if nonempty last then Some last
               else if nonempty canon then final (split_ws canon) else Some []);
    let last_cores := _last_cores_from_surname surname in
    base ← (if nonempty first || nonempty last then
              f0 ← head (split_ws (or_ first canon));
              l0 ← (if nonempty last then Some last else final (split_ws canon));
              Some [strip (f0 ++ sp ++ l0)]
            else Some []);
    Some (set_iter U ([canon] ++ base ++ core_pairs first_cores last_cores)).

Definition norm (k : str) : str := _key (_strip_acc (_clean_display_name k)).

(** [if nk and nk not in idx: idx[nk] = uid], for every key of the record *)
Definition ext_add (uid : Z) (keys : list str) (idx : gmap str Z) : gmap str Z :=
  fold_left (fun idx k =>
               let nk := norm k in
               if nonempty nk then
                 match idx !! nk with Some _ => idx | None => <[nk := uid]> idx end
               else idx) keys idx.

Fixpoint build_from (recs : list (Z * player)) (idx : gmap str Z) : option (gmap str Z) :=
  match recs with
  | [] => Some idx
  | (uid, rec) :: recs' =>
      keys ← ext_keys rec;
      build_from recs' (ext_add uid keys idx)
  end.

Definition _build_ext_index (p : doc) : option (gmap str Z) := build_from (data p) ∅.

Definition _ext_lookup (name : str) (p : doc) (w : world) : result (option Z) * world :=
  match _EXT_INDEX w with
  | Some idx =>
      (Ok (idx !! norm name),
       {| kv := kv w; players := players w; unmapped := unmapped w;
          _EXT_INDEX := Some idx; ext_lookups := S (ext_lookups w) |})
  | None =>
      match _build_ext_index p with
      | None =>
          (Raise IndexError,
           {| kv := kv w; players := players w; unmapped := unmapped w;
              _EXT_INDEX := None; ext_lookups := S (ext_lookups w) |})
      | Some idx =>
          (Ok (idx !! norm name),
           {| kv := kv w; players := players w; unmapped := unmapped w;
              _EXT_INDEX := Some idx; ext_lookups := S (ext_lookups w) |})
      end
  end.

(** *** The resolver *)

Record hit := {
  Unique_ID : Z;
  hit_canonical_name : str;
  hit_first_name : str;
  hit_last_name : str;
  hit_gender : str;
  hit_preferred_hand : str
}.

(** The candidates of the comma form, in the order they are appended. *)
Definition comma_candidates (orig : str) : option (list str) :=
  match split1 44 orig with
  | (_, None) => Some []
  | (p0, Some p1) =>
      let last_part := strip p0 in
      let first_part := strip p1 in
      let flipped := _flip_last_first_if_any orig in
      let candidates := if nonempty flipped then [flipped] else [] in
      first_cores ← _first_cores_from_given first_part;
      let last_cores := _last_cores_from_surname last_part in
      Some (candidates ++ core_pairs first_cores last_cores)
  end.

(** The candidates of a plain name of three tokens or more, in the order
    the double loop probes them ([seen] skips repetitions). *)
Definition plain_candidates (orig : str) : option (list str) :=
  let toks := split_ws orig in
  if (3 <=? length toks)%nat then
    let given := join sp (removelast toks) in
    let j := attach_particles toks (length toks - 1) in
    let surname := join sp (skipn j toks) in
    first_cores ← _first_cores_from_given given;
    let last_cores := _last_cores_from_surname surname in
    let tail := join sp (skipn 1 toks) in
    let last_cores := last_cores ++ _last_cores_from_surname tail in
    Some (insertion_order (core_pairs first_cores last_cores))
  else Some [].

(** [for cand in candidates: uid = _kv_hit(cand); if uid is not None: break] *)
Fixpoint kv_probe (cands : list str) (d : alias_kv.db) : option (str * Z) :=
  match cands with
  | [] => None
  | cand :: rest =>
      match _kv_hit cand d with
      | Some uid => Some (cand, uid)
      | None => kv_probe rest d
      end
  end.

(** The auto-heal: [orig], the winning candidate and their accentless
    forms, keyed and written when the key is not empty. *)
Definition heal_pairs (orig cand : str) (uid : Z) : list (str * Z) :=
  List.map (fun k => (k, uid))
    (List.filter nonempty
       (List.map _key (set_iter U [orig; _strip_acc orig; cand; _strip_acc cand]))).

Definition heal (orig cand : str) (uid : Z) (w : world) : world :=
  set_kv (alias_kv.upsert_player_aliases (heal_pairs orig cand uid) (kv w)) w.

(** [for cand in candidates: uid = _ext_lookup(cand, players); ...] *)
Fixpoint ext_probe (cands : list str) (p : doc) (w : world) : result (option Z) * world :=
  match cands with
  | [] => (Ok None, w)
  | cand :: rest =>
      match _ext_lookup cand p w with
      | (Ok None, w') => ext_probe rest p w'
      | r => r
      end
  end.

Definition record_of (uid : Z) (p : doc) : hit :=
  match List.find (fun kv => (kv.1 =? uid)%Z) (data p) with
  | Some (_, rec) =>
      {| Unique_ID := uid; hit_canonical_name := canonical_name rec;
         hit_first_name := first_name rec; hit_last_name := last_name rec;
         hit_gender := gender rec; hit_preferred_hand := preferred_hand rec |}
  | None =>
      {| Unique_ID := uid; hit_canonical_name := []; hit_first_name := [];
         hit_last_name := []; hit_gender := []; hit_preferred_hand := [] |}
  end.

(** Steps 2 and 3: the candidates kept for step 4, the id found and the
    world after the heal. *)
Definition probe_candidates (orig : str) (w : world)
  : result (list str * option Z) * world :=
  if contains 44 orig then
    match comma_candidates orig with
    | None => (Raise IndexError, w)
    | Some candidates =>
        match kv_probe candidates (kv w) with
        | Some (cand, uid) => (Ok (candidates, Some uid), heal orig cand uid w)
        | None => (Ok (candidates, None), w)
        end
    end
  else
    match plain_candidates orig with
    | None => (Raise IndexError, w)
    | Some cands =>
        match kv_probe cands (kv w) with
        | Some (cand, uid) => (Ok ([], Some uid), heal orig cand uid w)
        | None => (Ok ([], None), w)
        end
    end.

(** Step 4: the extended index, on [orig] and then on the candidates. *)
Definition index_fallback (orig : str) (candidates : list str) (w : world)
  : result (option Z) * world :=
  let p := fst (load_databases w) in
  match _ext_lookup orig p w with
  | (Ok None, w') => ext_probe candidates p w'
  | r => r
  end.

Definition resolve_player (raw_name : str) (w : world) : result (option hit) * world :=
  let orig := _clean_display_name raw_name in
  let finish (uid : option Z) (w : world) :=
    (Ok (option_map (fun u => record_of u (fst (load_databases w))) uid), w) in
  match _kv_hit orig (kv w) with
  | Some uid => finish (Some uid) w
  | None =>
      match probe_candidates orig w with
      | (Raise e, w') => (Raise e, w')
      | (Ok (_, Some uid), w') => finish (Some uid) w'
      | (Ok (candidates, None), w') =>
          match index_fallback orig candidates w' with
          | (Raise e, w'') => (Raise e, w'')
          | (Ok uid, w'') => finish uid w''
          end
      end
  end.

(** *** The queue of unmapped players *)

Record guess := {
  g_first_name : str;
  g_last_name : str;
  g_canonical_guess : str
}.

(** The two branches of [_parse_name_guess] share their tail. *)
Definition guess_of_tokens (toks : list str) (whole : str) : guess :=
  if (2 <=? length toks)%nat then
    let first := str_title U (join sp (removelast toks)) in
    let last := str_title U (List.last toks []) in
    {| g_first_name := first; g_last_name := last;
       g_canonical_guess := first ++ sp ++ last |}
  else
    {| g_first_name := str_title U whole; g_last_name := [];
       g_canonical_guess := str_title U whole |}.

Definition _parse_name_guess (raw_name : str) : guess :=
  let rn := _clean_display_name raw_name in
  if contains 44 rn then
    let flipped := _flip_last_first_if_any rn in
    guess_of_tokens (split_ws flipped) flipped
  else
    guess_of_tokens (split_ws (replace 46 [] rn)) rn.

(** [re.sub(r"\s{2,}", " ", v).strip()] *)
Definition squash (v : str) : str := strip (re_sub_space U [[Rep isspace 2 None]] v).

Definition _alias_variants_for (first last : str) : list str :=
  let first := strip first in
  let last := strip last in
  if negb (nonempty first || nonempty last) then []
  else
    let vs := [strip (first ++ sp ++ last)] in
    let vs := if nonempty first && nonempty last
              then vs ++ [last ++ py ", " ++ first] else vs in
    let vs :=
      if contains 45 first then
        let parts := fields (N.eqb 45) first in
        match parts with
        | [] => vs
        | _ =>
            vs ++ flat_map (fun sub => [sub ++ sp ++ last; last ++ py ", " ++ sub]) parts
               ++ [(join (py ".") (List.map initial parts) ++ py ".") ++ sp ++ last;
                   join [] (List.map initial parts) ++ sp ++ last]
        end
      else vs in
    let vs :=
      if nonempty last
      then vs ++ [first ++ sp ++ firstn 3 last ++ py ".";
                  firstn 3 last ++ py ". " ++ first]
      else vs in
    let add :=
      flat_map (fun v => let na := _strip_acc v in
                         [na; str_lower U v; str_lower U na]) vs in
    let vs := vs ++ add in
    sorted_set (List.map squash
                  (List.filter (fun v => nonempty v && nonempty (strip v)) vs)).

(** The test of the dedupe loop: same canonical guess, or the cleaned raw
    name among the proposal's cleaned samples. *)
Definition same_proposal (raw_name : str) (g : guess) (p : proposal) : bool :=
  str_eqb (_key (_strip_acc (canonical_name_guess p)))
          (_key (_strip_acc (g_canonical_guess g)))
  || str_in (norm raw_name) (List.map norm (raw_samples p)).

(** What the loop does to the proposal it finds. *)
Definition merge_sighting (raw_name : str) (new_aliases : list str) (now : str)
           (p : proposal) : proposal :=
  {| proposal_id := proposal_id p;
     status := status p;
     raw_samples := if str_in raw_name (raw_samples p) then raw_samples p
                    else raw_samples p ++ [raw_name];
     canonical_name_guess := canonical_name_guess p;
     first_name_guess := first_name_guess p;
     last_name_guess := last_name_guess p;
     gender_guess := gender_guess p;
     preferred_hand_guess := preferred_hand_guess p;
     aliases := sorted_set (aliases p ++ new_aliases);
     created_at_utc := created_at_utc p;
     last_seen_utc := now;
     sightings := (sightings p + 1)%Z;
     context_ := context_ p |}.

(** [for p in proposals: if test(p): update p in place; return p] *)
Fixpoint merge_first (test : proposal -> bool) (upd : proposal -> proposal)
         (ps : list proposal) : option (proposal * list proposal) :=
  match ps with
  | [] => None
  | p :: ps' =>
      if test p then Some (upd p, upd p :: ps')
      else match merge_first test upd ps' with
           | Some (r, ps'') => Some (r, p :: ps'')
           | None => None
           end
  end.

(** [fresh] is the value of [uuid.uuid4()] and [now] of [_now_iso()] in this
    call; the CSV log, which is only appended to, is left out. *)
Definition register_unmapped_player (raw_name : str) (ctx : context)
           (fresh now : str) (w : world) : proposal * world :=
  let g := _parse_name_guess raw_name in
  let new_aliases := _alias_variants_for (g_first_name g) (g_last_name g) in
  let prop :=
    {| proposal_id := fresh; status := py "pending";
       raw_samples := [raw_name];
       canonical_name_guess := g_canonical_guess g;
       first_name_guess := g_first_name g;
       last_name_guess := g_last_name g;
       gender_guess := []; preferred_hand_guess := py "Unknown";
       aliases := new_aliases;
       created_at_utc := now; last_seen_utc := now; sightings := 1;
       context_ := [ctx] |} in
  match merge_first (same_proposal raw_name g)
          (merge_sighting raw_name new_aliases now) (unmapped w) with
  | Some (p, q) => (p, set_unmapped q w)
  | None => (prop, set_unmapped (unmapped w ++ [prop]) w)
  end.

Inductive outcome :=
| Hit (h : hit)
| Pending (proposal_id : str) (canonical_guess : str).

Definition resolve_or_register (raw_name : str) (ctx : context) (fresh now : str)
           (w : world) : result outcome * world :=
  match resolve_player raw_name w with
  | (Raise e, w') => (Raise e, w')
  | (Ok (Some h), w') => (Ok (Hit h), w')
  | (Ok None, w') =>
      let '(prop, w'') := register_unmapped_player raw_name ctx fresh now w' in
      (Ok (Pending (proposal_id prop) (canonical_name_guess prop)), w'')
  end.

(** *** Seeding *)

(** [{canon, _strip_acc(canon), canon.lower(), _strip_acc(canon).lower()}],
    keyed, the empty keys dropped *)
Definition base_pairs (uid : Z) (canon : str) : list (str * Z) :=
  List.map (fun k => (k, uid))
    (List.filter nonempty
       (List.map _key
          (set_iter U [canon; _strip_acc canon; str_lower U canon;
                       str_lower U (_strip_acc canon)]))).

Definition canonical_pairs (entry : Z * player) : list (str * Z) :=
  let '(uid, rec) := entry in
  let canon := strip (canonical_name rec) in
  let canon := if nonempty canon then canon
               else strip (strip (first_name rec) ++ sp ++ strip (last_name rec)) in
  if nonempty canon then base_pairs uid canon else [].

Definition seed_aliases_from_canonicals (w : world) : nat * world :=
  let pairs := flat_map canonical_pairs (data (fst (load_databases w))) in
  (length pairs, set_kv (alias_kv.upsert_player_aliases pairs (kv w)) w).

Definition variant_pairs (entry : Z * player) : list (str * Z) :=
  let '(uid, rec) := entry in
  let first := strip (first_name rec) in
  let last := strip (last_name rec) in
  let canon := or_ (strip (canonical_name rec)) (strip (first ++ sp ++ last)) in
  if negb (nonempty first || nonempty last || nonempty canon) then []
  else
    base_pairs uid canon
    ++ List.map (fun k => (k, uid))
         (List.filter nonempty (List.map _key (_alias_variants_for first last))).

Definition seed_all_alias_variants (w : world) : nat * world :=
  let pairs := flat_map variant_pairs (data (fst (load_databases w))) in
  (length pairs, set_kv (alias_kv.upsert_player_aliases pairs (kv w)) w).

End WithEnv.
End alias_utils.

(** ** Python's [dict] with string or integer keys, in insertion order *)

Section Dict.
Context {K V : Type} (eqb : K -> K -> bool).

Fixpoint dict_get (k : K) (d : list (K * V)) : option V :=
  match d with
  | [] => None
  | (k', v) :: d' => if eqb k k' then Some v else dict_get k d'
  end.

(** [d[k] = v]: the value is replaced in place, a new key goes last. *)
Fixpoint dict_set (k : K) (v : V) (d : list (K * V)) : list (K * V) :=
  match d with
  | [] => [(k, v)]
  | (k', v') :: d' => if eqb k k' then (k', v) :: d' else (k', v') :: dict_set k v d'
  end.
End Dict.

(** ** [Utils/alias_utils_tournaments.py]: tournaments *)

Module alias_utils_tournaments.
Section WithEnv.
Variable U : pyenv.

Definition _strip_accents (s : str) : str :=
  List.filter (fun c => negb (combining U c)) (nfkd U s).

Definition _key (s : str) : str := str_lower U (strip s).

Definition nonempty (s : str) : bool := match s with [] => false | _ => true end.

Record tournament := {
  canonical_name : str;
  level : str;
  country : str;
  city : str;
  surface : str
}.

(** [all_tournaments.json] *)
Record doc := {
  db_version : str;
  next_id : option Z;
  data : list (Z * tournament)
}.

Record context := {
  source_bookmaker : str;
  event_time_utc : str
}.

Record proposal := {
  proposal_id : str;
  status : str;
  raw_samples : list str;
  canonical_name_guess : str;
  aliases : list str;
  created_at_utc : str;
  last_seen_utc : str;
  sightings : Z;
  context_ : list context
}.

(** The SQLite file and the two JSON files. [index_reads] is a ghost
    counter of the lookups in the canonical index made by the resolver. *)
Record world := {
  kv : alias_kv.db;
  root : doc;
  unmapped : list proposal;
  index_reads : nat
}.

Definition set_kv (d : alias_kv.db) (w : world) : world :=
  {| kv := d; root := root w; unmapped := unmapped w; index_reads := index_reads w |}.

Definition set_root (r : doc) (w : world) : world :=
  {| kv := kv w; root := r; unmapped := unmapped w; index_reads := index_reads w |}.

Definition set_unmapped (q : list proposal) (w : world) : world :=
  {| kv := kv w; root := root w; unmapped := q; index_reads := index_reads w |}.

Definition fresh_id {A} (d : list (Z * A)) : Z :=
  match d with
  | [] => 1
  | (i, _) :: d' => fold_left Z.max (List.map fst d') i + 1
  end%Z.

Definition _ensure_meta (r : doc) : doc :=
  match next_id r with
  | Some _ => r
  | None => {| db_version := db_version r; next_id := Some (fresh_id (data r)); data := data r |}
  end.

Definition load_databases (w : world) : doc * list proposal :=
  (_ensure_meta (root w), unmapped w).

(** *** The queue *)

Definition same_proposal (raw_name cname : str) (p : proposal) : bool :=
  str_eqb (_key (_strip_accents (canonical_name_guess p))) (_key cname)
  || str_in (_key (_strip_accents raw_name))
            (List.map (fun s => _key (_strip_accents s)) (raw_samples p)).

Definition merge_sighting (raw_name : str) (new_aliases : list str) (now : str)
           (p : proposal) : proposal :=
  {| proposal_id := proposal_id p;
     status := status p;
     raw_samples := if str_in raw_name (raw_samples p) then raw_samples p
                    else raw_samples p ++ [raw_name];
     canonical_name_guess := canonical_name_guess p;
     aliases := sorted_set (aliases p ++ new_aliases);
     created_at_utc := created_at_utc p;
     last_seen_utc := now;
     sightings := (sightings p + 1)%Z;
     context_ := context_ p |}.

Fixpoint merge_first (test : proposal -> bool) (upd : proposal -> proposal)
         (ps : list proposal) : option (proposal * list proposal) :=
  match ps with
  | [] => None
  | p :: ps' =>
      if test p then Some (upd p, upd p :: ps')
      else match merge_first test upd ps' with
           | Some (r, ps'') => Some (r, p :: ps'')
           | None => None
           end
  end.

(** The alias list of a new proposal. *)
Definition aliases_of (raw_name : str) : list str :=
  sorted_set [raw_name; str_lower U raw_name; str_title U (strip raw_name);
              _strip_accents raw_name; str_lower U (_strip_accents raw_name)].

(** [fresh] is the value of [uuid.uuid4()] and [now] of [_now_iso()]. *)
Definition register_unmapped_tournament (raw_name : str) (ctx : context)
           (fresh now : str) (w : world) : proposal * world :=
  let cname := str_title U (strip raw_name) in
  let new_aliases := aliases_of raw_name in
  let prop :=
    {| proposal_id := fresh; status := py "pending"; raw_samples := [raw_name];
       canonical_name_guess := cname; aliases := new_aliases;
       created_at_utc := now; last_seen_utc := now; sightings := 1;
       context_ := [ctx] |} in
  match merge_first (same_proposal raw_name cname)
          (merge_sighting raw_name new_aliases now) (unmapped w) with
  | Some (p, q) => (p, set_unmapped q w)
  | None => (prop, set_unmapped (unmapped w ++ [prop]) w)
  end.

Definition _remove_proposal (q : list proposal) (pid : str) : list proposal :=
  List.filter (fun p => negb (str_eqb (proposal_id p) pid)) q.

(** [next((p for p in proposals if p.get("proposal_id") == proposal_id), None)] *)
Definition find_proposal (pid : str) (q : list proposal) : option proposal :=
  List.find (fun p => str_eqb (proposal_id p) pid) q.

(** *** Review: approve as new, mark as duplicate *)

(** [ex is None or ex == target] *)
Definition free_or_same (ex : option Z) (target : Z) : bool :=
  match ex with
  | None => true
  | Some i => (i =? target)%Z
  end.

(** The pairs the migration loop collects, every test reading the cache as
    it is before the single upsert that follows. *)
Definition migration_pairs (als : list str) (target : Z) (d : alias_kv.db)
  : list (str * Z) :=
  flat_map
    (fun a =>
       let k := _key a in
       let noacc := _key (_strip_accents a) in
       (if free_or_same (alias_kv.get_tournament_id k d) target then [(k, target)] else [])
       ++ (if negb (str_eqb noacc k)
           then (if free_or_same (alias_kv.get_tournament_id noacc d) target
                 then [(noacc, target)] else [])
           else []))
    als.

Definition not_found (pid : str) : exn :=
  ValueError (py "Proposal " ++ pid ++ py " not found.").

Record approved := {
  Tournament_ID : Z;
  approved_record : tournament
}.

(** [today] is the date that goes into [db_version]. *)
Definition approve_proposal_as_new (pid : str) (level country city surface : str)
           (today : str) (w : world) : result approved * world :=
  let '(r, q) := load_databases w in
  match find_proposal pid q with
  | None => (Raise (not_found pid), w)
  | Some target =>
      let new_id := match next_id r with Some n => n | None => 1%Z end in
      let rec := {| canonical_name := strip (canonical_name_guess target);
                    level := level; country := country; city := city;
                    surface := surface |} in
      let r := {| db_version := py "tournaments-" ++ today;
                  next_id := Some (new_id + 1)%Z;
                  data := dict_set Z.eqb new_id rec (data r) |} in
      let pairs := migration_pairs (aliases target) new_id (kv w) in
      let d := alias_kv.upsert_tournament_aliases pairs (kv w) in
      (Ok {| Tournament_ID := new_id; approved_record := rec |},
       {| kv := d; root := r; unmapped := _remove_proposal q pid;
          index_reads := index_reads w |})
  end.

Record duplicate := {
  existing_tournament_id : Z;
  merged_aliases : bool;
  alias_count_added : nat
}.

Definition mark_proposal_as_duplicate (pid : str) (existing : Z) (merge_aliases : bool)
           (w : world) : result duplicate * world :=
  let '(r, q) := load_databases w in
  match find_proposal pid q with
  | None => (Raise (not_found pid), w)
  | Some target =>
      let d := if merge_aliases
               then alias_kv.upsert_tournament_aliases
                      (migration_pairs (aliases target) existing (kv w)) (kv w)
               else kv w in
      (Ok {| existing_tournament_id := existing; merged_aliases := merge_aliases;
             alias_count_added := if merge_aliases then length (aliases target) else 0 |},
       {| kv := d; root := root w; unmapped := _remove_proposal q pid;
          index_reads := index_reads w |})
  end.

(** *** Canonical seeding and the resolver *)

(** [idx[key] = int(tid)] for every record with a non-empty key, the last
    record of a key winning. *)
Definition _canonical_index (r : doc) : list (str * Z) :=
  fold_left (fun idx e =>
               let key := _key (_strip_accents (canonical_name (snd e))) in
               if nonempty key then dict_set str_eqb key (fst e) idx else idx)
            (data r) [].

Definition seed_pairs (r : doc) : list (str * Z) :=
  flat_map (fun kt =>
              let '(key, tid) := kt in
              let raw := match dict_get Z.eqb tid (data r) with
                         | Some rec => canonical_name rec
                         | None => []
                         end in
              let lower := _key raw in
              (key, tid) :: (if nonempty lower && negb (str_eqb lower key)
                             then [(lower, tid)] else []))
           (_canonical_index r).

Definition seed_aliases_from_canonicals (w : world) : nat * world :=
  let pairs := seed_pairs (fst (load_databases w)) in
  (length pairs, set_kv (alias_kv.upsert_tournament_aliases pairs (kv w)) w).

Record hit := {
  hit_Tournament_ID : Z;
  hit_record : tournament
}.

Definition record_of (tid : Z) (r : doc) : hit :=
  {| hit_Tournament_ID := tid;
     hit_record := match dict_get Z.eqb tid (data r) with
                   | Some rec => rec
                   | None => {| canonical_name := []; level := []; country := [];
                                city := []; surface := [] |}
                   end |}.

Definition resolve_tournament (raw_name : str) (w : world) : option hit * world :=
  let k1 := _key raw_name in
  let finish (tid : Z) (w : world) := (Some (record_of tid (fst (load_databases w))), w) in
  match alias_kv.get_tournament_id k1 (kv w) with
  | Some tid => finish tid w
  | None =>
      let k2 := _key (_strip_accents raw_name) in
      match alias_kv.get_tournament_id k2 (kv w) with
      | Some tid => finish tid w
      | None =>
          let idx := _canonical_index (fst (load_databases w)) in
          let w := {| kv := kv w; root := root w; unmapped := unmapped w;
                      index_reads := S (index_reads w) |} in
          match dict_get str_eqb (_key (_strip_accents raw_name)) idx with
          | Some tid =>
              let pairs := (if nonempty k1 then [(k1, tid)] else [])
                           ++ (if nonempty k2 && negb (str_eqb k2 k1)
                               then [(k2, tid)] else []) in
              finish tid (set_kv (alias_kv.upsert_tournament_aliases pairs (kv w)) w)
          | None => (None, w)
          end
      end
  end.

Inductive outcome :=
| Hit (h : hit)
| Pending (proposal_id : str) (canonical_guess : str).

Definition resolve_or_register (raw_name : str) (ctx : context) (fresh now : str)
           (w : world) : outcome * world :=
  match resolve_tournament raw_name w with
  | (Some h, w') => (Hit h, w')
  | (None, w') =>
      let '(prop, w'') := register_unmapped_tournament raw_name ctx fresh now w' in
      (Pending (proposal_id prop) (canonical_name_guess prop), w'')
  end.

End WithEnv.
End alias_utils_tournaments.

(** ** [Utils/alias_review_cli.py]: the review commands *)

Module alias_review_cli.
Module P := alias_utils.
Module T := alias_utils_tournaments.

Section WithEnv.
Variable U : pyenv.

(** The names bound at module level in [alias_utils.py]. *)
Definition P_names : list string :=
  [ "init_db"; "upsert_player_aliases"; "get_player_id";
    "BASE"; "PLAYERS_JSON"; "UNMAPPED_JSON"; "UNMAPPED_CSV";
    "_CLEAN_PATTERNS"; "_CLEAN_RE"; "_now_iso"; "_load_json"; "_save_json_atomic";
    "_strip_acc"; "_key"; "_clean_display_name"; "_append_unmapped_log";
    "_ensure_players_meta"; "load_databases"; "save_players"; "save_unmapped";
    "_canonical_index"; "_SURNAME_PARTICLES"; "_tokenize"; "_first_cores_from_given";
    "_last_cores_from_surname"; "_flip_last_first_if_any"; "_kv_hit"; "_EXT_INDEX";
    "_build_ext_index"; "_ext_lookup"; "register_unmapped_player"; "_parse_name_guess";
    "resolve_player"; "resolve_players_batch"; "resolve_or_register";
    "_alias_variants_for"; "seed_aliases_from_canonicals"; "seed_all_alias_variants" ]%string.

(** The attribute lookup [P.name]. *)
Definition P_getattr (name : string) : result unit :=
  if existsb (String.eqb name) P_names then Ok tt else Raise (AttributeError name).

(** [P.approve_proposal_as_new(args.id, gender=..., preferred_hand=...)]: the
    attribute is looked up before the call; [alias_utils] binds no such name,
    so there is no call to model after a successful lookup. *)
Definition cmd_approve_new_player (id gender hand : str) (w : P.world)
  : result unit * P.world :=
  (P_getattr "approve_proposal_as_new", w).

(** [P.mark_proposal_as_duplicate(args.id, int(args.target_id), ...)] *)
Definition cmd_duplicate_player (id : str) (target_id : Z) (merge_aliases : bool)
           (w : P.world) : result unit * P.world :=
  (P_getattr "mark_proposal_as_duplicate", w).

Definition cmd_approve_new_tournament (id level country city surface today : str)
           (w : T.world) : result T.approved * T.world :=
  T.approve_proposal_as_new U id level country city surface today w.

Definition cmd_duplicate_tournament (id : str) (target_id : Z) (merge_aliases : bool)
           (w : T.world) : result T.duplicate * T.world :=
  T.mark_proposal_as_duplicate U id target_id merge_aliases w.

(** [set-next-id players --value v] *)
Definition cmd_set_next_id_players (value : Z) (w : P.world) : P.world :=
  let r := fst (P.load_databases w) in
  {| P.kv := P.kv w;
     P.players := {| P.db_version := P.db_version r; P.next_id := Some value;
                     P.data := P.data r |};
     P.unmapped := P.unmapped w; P._EXT_INDEX := P._EXT_INDEX w;
     P.ext_lookups := P.ext_lookups w |}.

(** [set-next-id tournaments --value v] *)
Definition cmd_set_next_id_tournaments (value : Z) (w : T.world) : T.world :=
  let r := fst (T.load_databases w) in
  T.set_root {| T.db_version := T.db_version r; T.next_id := Some value;
                T.data := T.data r |} w.

(** [seed-aliases tournaments] *)
Definition cmd_seed_aliases_tournaments (w : T.world) : T.world :=
  snd (T.seed_aliases_from_canonicals U w).

(** The operations on the tournament stores: those of the core and those of
    the command line. *)
Inductive op :=
| Resolve (raw_name : str)
| Register (raw_name : str) (ctx : T.context) (fresh now : str)
| ApproveAsNew (id level country city surface today : str)
| MarkDuplicate (id : str) (target_id : Z) (merge_aliases : bool)
| SeedAliases
| SetNextId (value : Z).

(** One operation: the id it issues, if any, and the stores after it. *)
Definition step (o : op) (w : T.world) : option Z * T.world :=
  match o with
  | Resolve raw => (None, snd (T.resolve_tournament U raw w))
  | Register raw ctx fresh now =>
      (None, snd (T.register_unmapped_tournament U raw ctx fresh now w))
  | ApproveAsNew id level country city surface today =>
      match cmd_approve_new_tournament id level country city surface today w with
      | (Ok a, w') => (Some (T.Tournament_ID a), w')
      | (Raise _, w') => (None, w')
      end
  | MarkDuplicate id target merge =>
      (None, snd (cmd_duplicate_tournament id target merge w))
  | SeedAliases => (None, cmd_seed_aliases_tournaments w)
  | SetNextId v => (None, cmd_set_next_id_tournaments v w)
  end.

(** The ids issued by a sequence of operations, in order, and the stores
    at the end. *)
Fixpoint run (ops : list op) (w : T.world) : list Z * T.world :=
  match ops with
  | [] => ([], w)
  | o :: ops' =>
      let '(i, w') := step o w in
      let '(is_, w'') := run ops' w' in
      (match i with Some n => n :: is_ | None => is_ end, w'')
  end.

(** The counter as the next load reads it. *)
Definition counter (w : T.world) : Z :=
  match T.next_id (fst (T.load_databases w)) with
  | Some n => n
  | None => 1%Z
  end.

End WithEnv.
End alias_review_cli.

(** * Properties *)

Module P := alias_utils.
Module T := alias_utils_tournaments.
Module CLI := alias_review_cli.

(** ** The alias cache *)

Section CacheFacts.
Implicit Types (m : gmap str Z) (pairs : list (str * Z)) (k : str).

Lemma upsert_many_nil m : alias_kv.upsert_many [] m = m.
Proof. reflexivity. Qed.

Lemma upsert_many_app pairs1 pairs2 m :
  alias_kv.upsert_many (pairs1 ++ pairs2) m
  = alias_kv.upsert_many pairs2 (alias_kv.upsert_many pairs1 m).
Proof. unfold alias_kv.upsert_many. apply fold_left_app. Qed.

(** A key that no pair carries keeps its entry. *)
Lemma upsert_many_other pairs m k :
  ~ In k (List.map fst pairs) -> alias_kv.upsert_many pairs m !! k = m !! k.
Proof.
  revert m. induction pairs as [|[k' v] pairs IH]; intros m Hk; [reflexivity|].
  simpl in *. rewrite IH by tauto.
  apply lookup_insert_ne. intros ->. tauto.
Qed.

(** When every pair carries the same id, a key of some pair ends bound to it. *)
Lemma upsert_many_same pairs v m k :
  Forall (fun kv => kv.2 = v) pairs ->
  In k (List.map fst pairs) -> alias_kv.upsert_many pairs m !! k = Some v.
Proof.
  revert m. induction pairs as [|[k' v'] pairs IH]; intros m Hall Hk; [destruct Hk|].
  apply Forall_cons_1 in Hall as [Hv Hall']. simpl in Hv. subst v'.
  simpl. destruct (str_in k (List.map fst pairs)) eqn:E.
  - apply IH; [assumption | now apply str_in_In].
  - assert (Hout : ~ In k (List.map fst pairs)).
    { intros Hin. apply str_in_In in Hin. congruence. }
    rewrite upsert_many_other by assumption.
    destruct Hk as [<-|Hk]; [apply lookup_insert_eq | contradiction].
Qed.

End CacheFacts.

(** ** C6: the same raw name registered twice *)

Section Queue.
Variable U : pyenv.

Lemma str_eqb_refl (x : str) : str_eqb x x = true.
Proof. unfold str_eqb. now apply bool_decide_eq_true. Qed.

Lemma str_in_head (x : str) (l : list str) : str_in x (x :: l) = true.
Proof. unfold str_in. simpl. now rewrite str_eqb_refl. Qed.

(** C6. Registering one raw name twice, starting from an empty queue,
    leaves exactly one proposal, seen twice, with the raw name as its only
    sample; for players and for tournaments alike. *)
Theorem register_twice_one_proposal
    (raw : str) (pw : P.world) (tw : T.world)
    (pc1 pc2 : P.context) (tc1 tc2 : T.context) (id1 id2 now1 now2 : str) :
  P.unmapped pw = [] ->
  T.unmapped tw = [] ->
  (exists p,
      P.unmapped (snd (P.register_unmapped_player U raw pc2 id2 now2
                         (snd (P.register_unmapped_player U raw pc1 id1 now1 pw)))) = [p]
      /\ P.sightings p = 2%Z /\ P.raw_samples p = [raw])
  /\ (exists p,
      T.unmapped (snd (T.register_unmapped_tournament U raw tc2 id2 now2
                         (snd (T.register_unmapped_tournament U raw tc1 id1 now1 tw)))) = [p]
      /\ T.sightings p = 2%Z /\ T.raw_samples p = [raw]).
Proof.
  intros HP HT. split.
  - unfold P.register_unmapped_player at 2. cbv zeta. rewrite HP.
    cbn [P.merge_first snd P.set_unmapped P.unmapped app].
    unfold P.register_unmapped_player. cbv zeta.
    cbn [P.unmapped P.set_unmapped P.merge_first].
    unfold P.same_proposal at 1. cbn [P.canonical_name_guess].
    rewrite str_eqb_refl. cbn [orb snd P.unmapped P.set_unmapped].
    eexists. split; [reflexivity|].
    cbn [P.sightings P.raw_samples P.merge_sighting]. unfold str_in. cbn [existsb].
    rewrite str_eqb_refl. split; reflexivity.
  - unfold T.register_unmapped_tournament at 2. cbv zeta. rewrite HT.
    cbn [T.merge_first snd T.set_unmapped T.unmapped app].
    unfold T.register_unmapped_tournament. cbv zeta.
    cbn [T.unmapped T.set_unmapped T.merge_first].
    unfold T.same_proposal at 1. cbn [T.raw_samples List.map]. unfold str_in at 1.
    cbn [existsb]. rewrite str_eqb_refl. cbn [orb]. rewrite orb_true_r.
    cbn [snd T.unmapped T.set_unmapped].
    eexists. split; [reflexivity|].
    cbn [T.sightings T.raw_samples T.merge_sighting]. unfold str_in. cbn [existsb].
    rewrite str_eqb_refl. split; reflexivity.
Qed.

End Queue.

Definition no_context : P.context :=
  {| P.source_bookmaker := py "SportPesa"; P.tournament := []; P.opponent_raw := [];
     P.event_time_utc := [] |}.

Definition no_context_t : T.context :=
  {| T.source_bookmaker := py "SportPesa"; T.event_time_utc := [] |}.

(** A corpus of one player and an empty cache. *)
Definition nadal : P.player :=
  {| P.canonical_name := py "Rafael Nadal"; P.first_name := py "Rafael";
     P.last_name := py "Nadal"; P.gender := py "M"; P.preferred_hand := py "Left" |}.

Definition one_player : P.world :=
  {| P.kv := alias_kv.empty_db;
     P.players := {| P.db_version := py "players-init"; P.next_id := Some 2%Z;
                     P.data := [(1%Z, nadal)] |};
     P.unmapped := []; P._EXT_INDEX := None; P.ext_lookups := 0 |}.

(** No tournament, an empty cache, an empty queue. *)
Definition no_tournament : T.world :=
  {| T.kv := alias_kv.empty_db;
     T.root := {| T.db_version := py "tournaments-init"; T.next_id := Some 1%Z;
                  T.data := [] |};
     T.unmapped := []; T.index_reads := 0 |}.

Lemma register_twice_one_proposal_witness :
  (exists p,
      P.unmapped (snd (P.register_unmapped_player ascii_env (py "Jannik Sinner") no_context
                         (py "id-2") (py "t2")
                         (snd (P.register_unmapped_player ascii_env (py "Jannik Sinner")
                                 no_context (py "id-1") (py "t1") one_player)))) = [p]
      /\ P.sightings p = 2%Z /\ P.raw_samples p = [py "Jannik Sinner"])
  /\ (exists p,
      T.unmapped (snd (T.register_unmapped_tournament ascii_env (py "Jannik Sinner")
                         no_context_t (py "id-2") (py "t2")
                         (snd (T.register_unmapped_tournament ascii_env (py "Jannik Sinner")
                                 no_context_t (py "id-1") (py "t1") no_tournament)))) = [p]
      /\ T.sightings p = 2%Z /\ T.raw_samples p = [py "Jannik Sinner"]).
Proof.
  apply (register_twice_one_proposal ascii_env (py "Jannik Sinner") one_player no_tournament);
    reflexivity.
Defined.

(** ** C2, C3: the review of a proposal *)

Section Review.
Variable U : pyenv.

(** The lookup keys of a proposal's aliases: each alias keyed, and keyed
    again without accents. *)
Definition derived_keys (als : list str) : list str :=
  flat_map (fun a => [T._key U a; T._key U (T._strip_accents U a)]) als.

(** The cache after a migration towards [target]: a derived key without an
    entry gets [target], every other key keeps what it had. *)
Definition migrated (als : list str) (target : Z) (old : gmap str Z) (k : str)
  : option Z :=
  match old !! k with
  | Some i => Some i
  | None => if str_in k (derived_keys als) then Some target else None
  end.

Lemma str_eqb_eq (a b : str) : str_eqb a b = true <-> a = b.
Proof. unfold str_eqb. apply bool_decide_eq_true. Qed.

Lemma str_eqb_neq (a b : str) : str_eqb a b = false <-> a <> b.
Proof. unfold str_eqb. apply bool_decide_eq_false. Qed.

(** A pair is collected exactly when its key is derived from an alias and
    the cache has no entry for it or already binds it to the target. *)
Lemma migration_pairs_spec (als : list str) (target : Z) (d : alias_kv.db) k i :
  In (k, i) (T.migration_pairs U als target d)
  <-> i = target /\ In k (derived_keys als)
      /\ T.free_or_same (alias_kv.get_tournament_id k d) target = true.
Proof.
  unfold T.migration_pairs, derived_keys. rewrite !in_flat_map. split.
  - intros (a & Ha & Hin). apply in_app_or in Hin as [Hin|Hin].
    + destruct (T.free_or_same _ _) eqn:E in Hin; [|destruct Hin].
      destruct Hin as [[= <- <-]|[]]. repeat split; [|assumption].
      exists a. split; [assumption | now left].
    + destruct (str_eqb _ _) in Hin; simpl in Hin; [destruct Hin|].
      destruct (T.free_or_same _ _) eqn:E in Hin; [|destruct Hin].
      destruct Hin as [[= <- <-]|[]]. repeat split; [|assumption].
      exists a. split; [assumption | right; now left].
  - intros (-> & (a & Ha & Hk) & Hfree). exists a. split; [assumption|].
    apply in_or_app. destruct Hk as [<-|[<-|[]]].
    + left. rewrite Hfree. now left.
    + destruct (str_eqb (T._key U (T._strip_accents U a)) (T._key U a)) eqn:E.
      * left. apply str_eqb_eq in E. rewrite <- E, Hfree. now left.
      * right. simpl. rewrite Hfree. now left.
Qed.

Lemma migration_pairs_target (als : list str) (target : Z) (d : alias_kv.db) :
  Forall (fun kv => kv.2 = target) (T.migration_pairs U als target d).
Proof.
  apply List.Forall_forall. intros [k i] Hin. apply migration_pairs_spec in Hin. tauto.
Qed.

(** The tournament table after the single upsert of the collected pairs. *)
Lemma migration_lookup (als : list str) (target : Z) (d : alias_kv.db) k :
  alias_kv.upsert_many (T.migration_pairs U als target d) (alias_kv.tournament_aliases d) !! k
  = migrated als target (alias_kv.tournament_aliases d) k.
Proof.
  unfold migrated.
  destruct (str_in k (List.map fst (T.migration_pairs U als target d))) eqn:E.
  - apply str_in_In in E. rewrite upsert_many_same with (v := target);
      [|apply migration_pairs_target | assumption].
    apply in_map_iff in E as ([k' i] & Hk & Hin). simpl in Hk. subst k'.
    apply migration_pairs_spec in Hin as (-> & Hd & Hfree).
    unfold alias_kv.get_tournament_id in Hfree.
    destruct (alias_kv.tournament_aliases d !! k) as [j|].
    + simpl in Hfree. apply Z.eqb_eq in Hfree. now subst.
    + apply str_in_In in Hd. now rewrite Hd.
  - assert (Hout : ~ In k (List.map fst (T.migration_pairs U als target d))).
    { intros Hin. apply str_in_In in Hin. congruence. }
    rewrite upsert_many_other by assumption.
    destruct (alias_kv.tournament_aliases d !! k) as [j|] eqn:Hold; [reflexivity|].
    destruct (str_in k (derived_keys als)) eqn:Hd; [|reflexivity].
    exfalso. apply Hout. apply in_map_iff. exists (k, target). split; [reflexivity|].
    apply migration_pairs_spec. repeat split.
    + now apply str_in_In.
    + unfold alias_kv.get_tournament_id. now rewrite Hold.
Qed.

Lemma find_proposal_removed (pid : str) (q : list T.proposal) :
  T.find_proposal pid (T._remove_proposal q pid) = None.
Proof.
  unfold T.find_proposal, T._remove_proposal. induction q as [|p q IH]; [reflexivity|].
  simpl. destruct (str_eqb (T.proposal_id p) pid) eqn:E; simpl; [assumption|].
  now rewrite E.
Qed.

(** C2. For a pending proposal, [approve_proposal_as_new] and
    [mark_proposal_as_duplicate] with [merge_aliases] collect the pair of a
    key exactly when the key comes from one of the proposal's aliases and the
    cache has no entry for it or binds it to the target id already; after
    the upsert a key bound to another id is as before. Without
    [merge_aliases] the cache is untouched. The proposal leaves the queue in
    all three cases. *)
Theorem review_migrates_without_clobbering
    (pid : str) (p : T.proposal) (w : T.world)
    (level country city surface today : str) (existing : Z) :
  T.find_proposal pid (T.unmapped w) = Some p ->
  (exists a w',
      T.approve_proposal_as_new U pid level country city surface today w = (Ok a, w')
      /\ (forall k i, In (k, i) (T.migration_pairs U (T.aliases p) (T.Tournament_ID a) (T.kv w))
                      <-> i = T.Tournament_ID a /\ In k (derived_keys (T.aliases p))
                          /\ (alias_kv.get_tournament_id k (T.kv w) = None
                              \/ alias_kv.get_tournament_id k (T.kv w)
                                 = Some (T.Tournament_ID a)))
      /\ (forall k, alias_kv.get_tournament_id k (T.kv w')
                    = migrated (T.aliases p) (T.Tournament_ID a)
                        (alias_kv.tournament_aliases (T.kv w)) k)
      /\ alias_kv.player_aliases (T.kv w') = alias_kv.player_aliases (T.kv w)
      /\ T.find_proposal pid (T.unmapped w') = None)
  /\ (exists r w',
      T.mark_proposal_as_duplicate U pid existing true w = (Ok r, w')
      /\ (forall k i, In (k, i) (T.migration_pairs U (T.aliases p) existing (T.kv w))
                      <-> i = existing /\ In k (derived_keys (T.aliases p))
                          /\ (alias_kv.get_tournament_id k (T.kv w) = None
                              \/ alias_kv.get_tournament_id k (T.kv w) = Some existing))
      /\ (forall k, alias_kv.get_tournament_id k (T.kv w')
                    = migrated (T.aliases p) existing
                        (alias_kv.tournament_aliases (T.kv w)) k)
      /\ alias_kv.player_aliases (T.kv w') = alias_kv.player_aliases (T.kv w)
      /\ T.find_proposal pid (T.unmapped w') = None)
  /\ (exists r w',
      T.mark_proposal_as_duplicate U pid existing false w = (Ok r, w')
      /\ T.kv w' = T.kv w
      /\ T.alias_count_added r = 0
      /\ T.find_proposal pid (T.unmapped w') = None).
Proof.
  intros Hfind.
  assert (Hfree : forall k target,
             T.free_or_same (alias_kv.get_tournament_id k (T.kv w)) target = true
             <-> alias_kv.get_tournament_id k (T.kv w) = None
                 \/ alias_kv.get_tournament_id k (T.kv w) = Some target).
  { intros k target. destruct (alias_kv.get_tournament_id k (T.kv w)) as [j|]; simpl.
    - rewrite Z.eqb_eq. split; [intros ->; now right | intros [[=]|[= ->]]; reflexivity].
    - split; [now left | reflexivity]. }
  repeat split.
  - unfold T.approve_proposal_as_new. simpl. rewrite Hfind.
    eexists _, _. split; [reflexivity|]. simpl. repeat split.
    + apply migration_pairs_spec in H. tauto.
    + apply migration_pairs_spec in H. tauto.
    + apply Hfree. apply migration_pairs_spec in H. tauto.
    + intros (-> & Hd & Hf). apply migration_pairs_spec. rewrite Hfree. tauto.
    + intros k. apply migration_lookup.
    + apply find_proposal_removed.
  - unfold T.mark_proposal_as_duplicate. simpl. rewrite Hfind.
    eexists _, _. split; [reflexivity|]. simpl. repeat split.
    + apply migration_pairs_spec in H. tauto.
    + apply migration_pairs_spec in H. tauto.
    + apply Hfree. apply migration_pairs_spec in H. tauto.
    + intros (-> & Hd & Hf). apply migration_pairs_spec. rewrite Hfree. tauto.
    + intros k. apply migration_lookup.
    + apply find_proposal_removed.
  - unfold T.mark_proposal_as_duplicate. simpl. rewrite Hfind.
    eexists _, _. split; [reflexivity|]. simpl. repeat split.
    apply find_proposal_removed.
Qed.

(** The tournament functions report an unknown proposal id and leave the
    stores as they are. *)
Lemma tournament_review_not_found
    (pid : str) (w : T.world) (level country city surface today : str)
    (existing : Z) (merge : bool) :
  T.find_proposal pid (T.unmapped w) = None ->
  T.approve_proposal_as_new U pid level country city surface today w
  = (Raise (T.not_found pid), w)
  /\ T.mark_proposal_as_duplicate U pid existing merge w = (Raise (T.not_found pid), w).
Proof.
  intros Hfind. unfold T.approve_proposal_as_new, T.mark_proposal_as_duplicate.
  simpl. now rewrite Hfind.
Qed.

(** C3. The player commands of the review tool fail on the lookup of
    [approve_proposal_as_new] and [mark_proposal_as_duplicate] in
    [alias_utils], which binds neither name: the fault is an
    [AttributeError], for a pending id and for an unknown one, where the
    tournament commands raise the not-found [ValueError] for an unknown id
    only. *)
Theorem player_review_commands_fail
    (pid gender hand : str) (target : Z) (merge : bool) (w : P.world) :
  CLI.cmd_approve_new_player pid gender hand w
  = (Raise (AttributeError "approve_proposal_as_new"), w)
  /\ CLI.cmd_duplicate_player pid target merge w
     = (Raise (AttributeError "mark_proposal_as_duplicate"), w).
Proof. split; reflexivity. Qed.

End Review.

(** A queue of one pending tournament. *)
Definition one_pending : T.world :=
  snd (T.register_unmapped_tournament ascii_env (py "Wimbledon") no_context_t
         (py "id-1") (py "t1") no_tournament).

Lemma review_migrates_without_clobbering_witness :
  (exists p, T.find_proposal (py "id-1") (T.unmapped one_pending) = Some p)
  /\ exists r w',
      T.mark_proposal_as_duplicate ascii_env (py "id-1") 7 false one_pending = (Ok r, w')
      /\ T.kv w' = T.kv one_pending
      /\ T.alias_count_added r = 0
      /\ T.find_proposal (py "id-1") (T.unmapped w') = None.
Proof.
  split.
  - eexists. reflexivity.
  - refine (proj2 (proj2 (review_migrates_without_clobbering ascii_env (py "id-1") _
                            one_pending [] [] [] [] [] 7 _))).
    reflexivity.
Defined.

(** ** C5: the id counter *)

Section Counter.
Variable U : pyenv.

(** No [set-next-id] of the sequence goes below the counter it replaces. *)
Fixpoint never_lowered (ops : list CLI.op) (w : T.world) : Prop :=
  match ops with
  | [] => True
  | o :: ops' =>
      match o with
      | CLI.SetNextId v => (CLI.counter w <= v)%Z
      | _ => True
      end /\ never_lowered ops' (snd (CLI.step U o w))
  end.

Lemma counter_root (w w' : T.world) : T.root w' = T.root w -> CLI.counter w' = CLI.counter w.
Proof. unfold CLI.counter, T.load_databases. now intros ->. Qed.

Lemma counter_ensured (w : T.world) :
  T.next_id (T._ensure_meta (T.root w)) = Some (CLI.counter w).
Proof.
  unfold CLI.counter, T.load_databases, T._ensure_meta. simpl.
  destruct (T.next_id (T.root w)) eqn:E; simpl; [now rewrite E | reflexivity].
Qed.

Lemma resolve_tournament_root (raw : str) (w : T.world) :
  T.root (snd (T.resolve_tournament U raw w)) = T.root w.
Proof.
  unfold T.resolve_tournament.
  repeat (match goal with |- context [match ?x with _ => _ end] => destruct x end);
    reflexivity.
Qed.

Lemma register_tournament_root (raw : str) ctx fresh now (w : T.world) :
  T.root (snd (T.register_unmapped_tournament U raw ctx fresh now w)) = T.root w.
Proof.
  unfold T.register_unmapped_tournament.
  destruct (T.merge_first _ _ _) as [[p q]|]; reflexivity.
Qed.

(** One operation: an id that is issued is the counter, which then moves
    one up; [set-next-id] writes its value; nothing else moves the counter. *)
Lemma step_counter (o : CLI.op) (w : T.world) :
  match o with
  | CLI.SetNextId v =>
      fst (CLI.step U o w) = None /\ CLI.counter (snd (CLI.step U o w)) = v
  | _ =>
      match fst (CLI.step U o w) with
      | Some i => i = CLI.counter w
                  /\ CLI.counter (snd (CLI.step U o w)) = (CLI.counter w + 1)%Z
      | None => CLI.counter (snd (CLI.step U o w)) = CLI.counter w
      end
  end.
Proof.
  destruct o as [raw|raw ctx fresh now|id lv co ci su td|id tg mg| |v]; simpl.
  - apply counter_root, resolve_tournament_root.
  - apply counter_root, register_tournament_root.
  - unfold CLI.cmd_approve_new_tournament, T.approve_proposal_as_new.
    pose proof (counter_ensured w) as Hc. simpl.
    destruct (T.find_proposal id (T.unmapped w)); simpl; [|reflexivity].
    rewrite Hc. split; reflexivity.
  - unfold CLI.cmd_duplicate_tournament, T.mark_proposal_as_duplicate. simpl.
    destruct (T.find_proposal id (T.unmapped w)); reflexivity.
  - reflexivity.
  - split; reflexivity.
Qed.

(** C5, amended. Over every sequence of operations on the tournament stores
    in which no [set-next-id] goes below the counter it replaces, the counter
    does not decrease, the ids issued are strictly increasing (none is issued
    twice), and each of them lies between the counter at the start and the
    counter at the end. *)
Theorem counter_monotone_unless_lowered (ops : list CLI.op) (w : T.world) :
  never_lowered ops w ->
  (CLI.counter w <= CLI.counter (snd (CLI.run U ops w)))%Z
  /\ StronglySorted Z.lt (fst (CLI.run U ops w))
  /\ Forall (fun i => CLI.counter w <= i < CLI.counter (snd (CLI.run U ops w)))%Z
            (fst (CLI.run U ops w)).
Proof.
  revert w. induction ops as [|o ops IH]; intros w Hok.
  - simpl. repeat split; [lia | constructor | constructor].
  - destruct Hok as [Ho Hok]. specialize (IH _ Hok). simpl.
    pose proof (step_counter o w) as Hs.
    destruct (CLI.step U o w) as [i w'] eqn:Es. simpl in *.
    destruct (CLI.run U ops w') as [is_ w''] eqn:Er. simpl in *.
    destruct IH as (Hle & Hsorted & Hall).
    assert (Hstep : (CLI.counter w <= CLI.counter w')%Z
                    /\ forall n, i = Some n -> n = CLI.counter w
                                               /\ CLI.counter w' = (n + 1)%Z).
    { destruct o; try (destruct i as [n|];
        [destruct Hs as [-> Hs]; split; [lia | intros ? [= <-]; split; [reflexivity | lia]]
        | split; [lia | discriminate]]).
      destruct Hs as [-> Hs]. split; [lia | discriminate]. }
    destruct Hstep as [Hle' Hi]. destruct i as [n|].
    + destruct (Hi n eq_refl) as [-> Hn]. repeat split.
      * lia.
      * constructor; [assumption|].
        eapply List.Forall_impl; [|exact Hall]. simpl. intros; lia.
      * constructor; [lia|].
        eapply List.Forall_impl; [|exact Hall]. simpl. intros; lia.
    + repeat split; [lia | assumption |].
      eapply List.Forall_impl; [|exact Hall]. simpl. intros; lia.
Qed.

End Counter.

(** Two tournaments are queued and approved, the second one after the
    counter is set to 500. *)
Definition two_approvals : list CLI.op :=
  [ CLI.Register (py "Wimbledon") no_context_t (py "id-1") (py "t1");
    CLI.Register (py "Roland Garros") no_context_t (py "id-2") (py "t2");
    CLI.ApproveAsNew (py "id-1") (py "G") (py "GB") (py "London") (py "Grass")
      (py "20260101");
    CLI.SetNextId 500;
    CLI.ApproveAsNew (py "id-2") (py "G") (py "FR") (py "Paris") (py "Clay")
      (py "20260101") ].

(** The same, with the counter set back to 1 in between. *)
Definition counter_set_back : list CLI.op :=
  [ CLI.Register (py "Wimbledon") no_context_t (py "id-1") (py "t1");
    CLI.Register (py "Roland Garros") no_context_t (py "id-2") (py "t2");
    CLI.ApproveAsNew (py "id-1") (py "G") (py "GB") (py "London") (py "Grass")
      (py "20260101");
    CLI.SetNextId 1;
    CLI.ApproveAsNew (py "id-2") (py "G") (py "FR") (py "Paris") (py "Clay")
      (py "20260101") ].

Lemma counter_monotone_unless_lowered_witness :
  fst (CLI.run ascii_env two_approvals no_tournament) = [1; 500]%Z
  /\ StronglySorted Z.lt (fst (CLI.run ascii_env two_approvals no_tournament)).
Proof.
  split; [reflexivity|].
  refine (proj1 (proj2 (counter_monotone_unless_lowered ascii_env two_approvals
                          no_tournament _))).
  vm_compute. intuition congruence.
Defined.

(** C5, as stated, fails: [set-next-id] writes any value. After the first
    approval the counter is 2; setting it to 1 takes it back, and the second
    approval issues the id 1 again, over the first tournament's record. *)
Lemma set_next_id_can_regress :
  CLI.counter (snd (CLI.run ascii_env (firstn 3 counter_set_back) no_tournament)) = 2%Z
  /\ CLI.counter (snd (CLI.run ascii_env (firstn 4 counter_set_back) no_tournament)) = 1%Z
  /\ fst (CLI.run ascii_env counter_set_back no_tournament) = [1; 1]%Z
  /\ List.map fst (T.data (T.root (snd (CLI.run ascii_env counter_set_back no_tournament))))
     = [1%Z].
Proof. vm_compute. repeat split; reflexivity. Qed.

(** ** C1: the index fallback and the heal *)

Section Fallback.
Variable U : pyenv.

Lemma ext_lookup_effect (name : str) (p : P.doc) (w : P.world) :
  P.kv (snd (P._ext_lookup U name p w)) = P.kv w
  /\ P.ext_lookups (snd (P._ext_lookup U name p w)) = S (P.ext_lookups w).
Proof.
  unfold P._ext_lookup. destruct (P._EXT_INDEX w); [split; reflexivity|].
  destruct (P._build_ext_index U p); split; reflexivity.
Qed.

Lemma ext_probe_effect (cands : list str) (p : P.doc) (w : P.world) :
  P.kv (snd (P.ext_probe U cands p w)) = P.kv w
  /\ P.ext_lookups w <= P.ext_lookups (snd (P.ext_probe U cands p w)).
Proof.
  revert w. induction cands as [|cand cands IH]; intros w;
    [simpl; split; [reflexivity | lia]|].
  simpl. pose proof (ext_lookup_effect cand p w) as [Hkv Hn].
  destruct (P._ext_lookup U cand p w) as [[[uid|]|e] w']; simpl in *;
    try (split; [assumption | lia]).
  destruct (IH w') as [Hkv' Hn']. split; [congruence | lia].
Qed.

(** The index fallback reads the index at least once and writes nothing
    to the cache. *)
Lemma index_fallback_effect (orig : str) (cands : list str) (w : P.world) :
  P.kv (snd (P.index_fallback U orig cands w)) = P.kv w
  /\ P.ext_lookups w < P.ext_lookups (snd (P.index_fallback U orig cands w)).
Proof.
  unfold P.index_fallback.
  pose proof (ext_lookup_effect orig (P.load_databases w).1 w) as [Hkv Hn].
  destruct (P._ext_lookup U orig (P.load_databases w).1 w) as [[[uid|]|e] w'];
    simpl in *; try (split; [assumption | lia]).
  destruct (ext_probe_effect cands (P.load_databases w).1 w') as [Hkv' Hn'].
  simpl in *. split; [congruence | lia].
Qed.

(** Whether the cache answers, directly or through a candidate. *)
Definition cache_misses (raw_name : str) (d : alias_kv.db) : Prop :=
  let orig := P._clean_display_name U raw_name in
  P._kv_hit U orig d = None
  /\ exists cands,
      (if contains 44 orig then P.comma_candidates U orig else P.plain_candidates U orig)
      = Some cands
      /\ P.kv_probe U cands d = None.

(** For players, a name that only the extended index resolves leaves the
    cache as it was: the next call on the same name misses the cache again
    and goes back to the index. *)
Lemma player_fallback_leaves_cache (raw_name : str) (w : P.world) :
  cache_misses raw_name (P.kv w) ->
  let w1 := snd (P.resolve_player U raw_name w) in
  let w2 := snd (P.resolve_player U raw_name w1) in
  P.kv w1 = P.kv w
  /\ P.ext_lookups w < P.ext_lookups w1
  /\ P.ext_lookups w1 < P.ext_lookups w2.
Proof.
  assert (Hone : forall w0, cache_misses raw_name (P.kv w0) ->
            P.kv (snd (P.resolve_player U raw_name w0)) = P.kv w0
            /\ P.ext_lookups w0 < P.ext_lookups (snd (P.resolve_player U raw_name w0))).
  { intros w0 (Hdirect & cands & Hcands & Hprobe).
    unfold P.resolve_player. rewrite Hdirect. unfold P.probe_candidates.
    destruct (contains 44 (P._clean_display_name U raw_name)); rewrite Hcands, Hprobe.
    - pose proof (index_fallback_effect (P._clean_display_name U raw_name) cands w0) as H.
      destruct (P.index_fallback U _ cands w0) as [[uid|e] w']; exact H.
    - pose proof (index_fallback_effect (P._clean_display_name U raw_name) [] w0) as H.
      destruct (P.index_fallback U _ [] w0) as [[uid|e] w']; exact H. }
  intros Hmiss w1 w2. destruct (Hone w Hmiss) as [Hkv Hn].
  repeat split; [assumption | assumption |].
  apply Hone. unfold w1. now rewrite Hkv.
Qed.

Lemma dict_set_keys (k : str) (v : Z) (d : list (str * Z)) (Q : str -> Prop) :
  Q k -> Forall (fun kv => Q kv.1) d -> Forall (fun kv => Q kv.1) (dict_set str_eqb k v d).
Proof.
  intros Hk. induction 1 as [|[k' v'] d Hk' Hd IH]; simpl.
  - constructor; [assumption | constructor].
  - destruct (str_eqb k k'); constructor; assumption.
Qed.

Lemma dict_get_In (k : str) (d : list (str * Z)) (v : Z) :
  dict_get str_eqb k d = Some v -> In (k, v) d.
Proof.
  induction d as [|[k' v'] d IH]; simpl; [discriminate|].
  destruct (str_eqb k k') eqn:E.
  - intros [= ->]. apply str_eqb_eq in E. subst. now left.
  - intros H. right. now apply IH.
Qed.

(** No key of the canonical index is empty. *)
Lemma canonical_index_keys (r : T.doc) :
  Forall (fun kv => T.nonempty kv.1 = true) (T._canonical_index U r).
Proof.
  unfold T._canonical_index.
  assert (H : forall recs idx,
             Forall (fun kv : str * Z => T.nonempty kv.1 = true) idx ->
             Forall (fun kv : str * Z => T.nonempty kv.1 = true)
               (fold_left (fun idx e =>
                             let key := T._key U (T._strip_accents U (T.canonical_name (snd e))) in
                             if T.nonempty key then dict_set str_eqb key (fst e) idx else idx)
                          recs idx)).
  { induction recs as [|e recs IH]; intros idx Hidx; [assumption|].
    simpl. apply IH.
    destruct (T.nonempty (T._key U (T._strip_accents U (T.canonical_name e.2)))) eqn:E;
      [|assumption].
    now apply (dict_set_keys _ _ _ (fun k => T.nonempty k = true)). }
  apply H. constructor.
Qed.

(** The stores after a hit in the canonical index. *)
Definition healed (raw_name : str) (tid : Z) (w : T.world) : T.world :=
  let k1 := T._key U raw_name in
  let k2 := T._key U (T._strip_accents U raw_name) in
  {| T.kv := alias_kv.upsert_tournament_aliases
               ((if T.nonempty k1 then [(k1, tid)] else [])
                ++ (if T.nonempty k2 && negb (str_eqb k2 k1) then [(k2, tid)] else []))
               (T.kv w);
     T.root := T.root w; T.unmapped := T.unmapped w;
     T.index_reads := S (T.index_reads w) |}.

Lemma resolve_tournament_index_hit (raw_name : str) (w : T.world) (tid : Z) :
  alias_kv.get_tournament_id (T._key U raw_name) (T.kv w) = None ->
  alias_kv.get_tournament_id (T._key U (T._strip_accents U raw_name)) (T.kv w) = None ->
  dict_get str_eqb (T._key U (T._strip_accents U raw_name))
    (T._canonical_index U (fst (T.load_databases w))) = Some tid ->
  T.resolve_tournament U raw_name w
  = (Some (T.record_of tid (fst (T.load_databases w))), healed raw_name tid w).
Proof.
  intros H1 H2 Hidx. unfold T.resolve_tournament. rewrite H1, H2. cbv zeta.
  rewrite Hidx. reflexivity.
Qed.

(** For tournaments the heal is there: after a hit in the canonical index,
    the same call again gives the same answer from the cache and leaves
    everything, the count of index reads included, as it is. *)
Lemma tournament_index_hit_heals (raw_name : str) (w : T.world) (tid : Z) :
  alias_kv.get_tournament_id (T._key U raw_name) (T.kv w) = None ->
  alias_kv.get_tournament_id (T._key U (T._strip_accents U raw_name)) (T.kv w) = None ->
  dict_get str_eqb (T._key U (T._strip_accents U raw_name))
    (T._canonical_index U (fst (T.load_databases w))) = Some tid ->
  let w1 := snd (T.resolve_tournament U raw_name w) in
  T.index_reads w1 = S (T.index_reads w)
  /\ T.resolve_tournament U raw_name w1 = (fst (T.resolve_tournament U raw_name w), w1).
Proof.
  intros H1 H2 Hidx.
  assert (Hk2 : T.nonempty (T._key U (T._strip_accents U raw_name)) = true).
  { pose proof (canonical_index_keys (fst (T.load_databases w))) as Hall.
    rewrite List.Forall_forall in Hall. apply (Hall (_, tid)). now apply dict_get_In. }
  rewrite (resolve_tournament_index_hit raw_name w tid H1 H2 Hidx).
  cbv zeta. unfold snd, fst. split; [reflexivity|].
  unfold T.resolve_tournament, healed, alias_kv.get_tournament_id in *.
  cbn [T.kv alias_kv.upsert_tournament_aliases alias_kv.tournament_aliases].
  set (k1 := T._key U raw_name) in *.
  set (k2 := T._key U (T._strip_accents U raw_name)) in *.
  rewrite Hk2. cbn [andb].
  destruct (T.nonempty k1) eqn:Ek1.
  - rewrite upsert_many_same with (v := tid).
    + reflexivity.
    + destruct (negb (str_eqb k2 k1)); repeat constructor.
    + simpl. now left.
  - assert (Hne : k2 <> k1).
    { intros E. rewrite E in Hk2. congruence. }
    assert (Hne' := Hne). apply str_eqb_neq in Hne'. rewrite Hne'.
    cbn [negb app alias_kv.upsert_many fold_left fst snd].
    rewrite lookup_insert_ne by assumption.
    rewrite H1, lookup_insert_eq. reflexivity.
Qed.

End Fallback.

(** C1, at a failing input. The cache is empty and the corpus holds Rafael
    Nadal under id 1. [resolve_player("Rafael Nadal")] finds him through the
    extended index and writes nothing to the cache; the same call again
    finds him through the index again: one index lookup in the first call,
    one more in the second. *)
Theorem player_index_hit_is_not_healed :
  let r1 := P.resolve_player ascii_env (py "Rafael Nadal") one_player in
  let r2 := P.resolve_player ascii_env (py "Rafael Nadal") (snd r1) in
  cache_misses ascii_env (py "Rafael Nadal") (P.kv one_player)
  /\ (exists h, fst r1 = Ok (Some h) /\ P.Unique_ID h = 1%Z)
  /\ P.kv (snd r1) = P.kv one_player
  /\ P.ext_lookups (snd r1) = 1
  /\ fst r2 = fst r1
  /\ P.ext_lookups (snd r2) = 2.
Proof.
  split; [|split; [|vm_compute; repeat split; reflexivity]].
  - split; [reflexivity|]. exists []. split; reflexivity.
  - eexists. split; [vm_compute; reflexivity | reflexivity].
Qed.

(** ** C10: the empty lookup key *)

Section EmptyKey.
Variable U : pyenv.

Lemma upsert_many_empty_key (pairs : list (str * Z)) (m : gmap str Z) :
  Forall (fun kv => kv.1 <> []) pairs -> alias_kv.upsert_many pairs m !! [] = m !! [].
Proof.
  intros Hall. apply upsert_many_other. intros Hin.
  apply in_map_iff in Hin as (kv & Hk & Hin).
  rewrite List.Forall_forall in Hall. now apply (Hall kv).
Qed.

(** Keys that went through the [if k:] test. *)
Lemma tested_keys (keys : list str) (uid : Z) :
  Forall (fun kv : str * Z => kv.1 <> [])
    (List.map (fun k => (k, uid)) (List.filter P.nonempty keys)).
Proof.
  apply List.Forall_forall. intros kv Hin.
  apply in_map_iff in Hin as (k & <- & Hk). apply filter_In in Hk as [_ Hk].
  simpl. now destruct k.
Qed.

Lemma forall_flat_map {A B} (f : A -> list B) (Q : B -> Prop) (l : list A) :
  (forall a, Forall Q (f a)) -> Forall Q (flat_map f l).
Proof.
  intros H. apply List.Forall_forall. intros b Hin.
  apply in_flat_map in Hin as (a & _ & Hb).
  specialize (H a). rewrite List.Forall_forall in H. now apply H.
Qed.

(** The writes of the player module: the heal of the resolver and the two
    seeders leave the empty key as it is. *)
Lemma player_writes_skip_empty_key (raw_name : str) (w : P.world) :
  alias_kv.player_aliases (P.kv (snd (P.resolve_player U raw_name w))) !! []
  = alias_kv.player_aliases (P.kv w) !! []
  /\ alias_kv.player_aliases (P.kv (snd (P.seed_aliases_from_canonicals U w))) !! []
     = alias_kv.player_aliases (P.kv w) !! []
  /\ alias_kv.player_aliases (P.kv (snd (P.seed_all_alias_variants U w))) !! []
     = alias_kv.player_aliases (P.kv w) !! [].
Proof.
  assert (Hheal : forall orig cand uid,
             alias_kv.player_aliases (P.kv (P.heal U orig cand uid w)) !! []
             = alias_kv.player_aliases (P.kv w) !! []).
  { intros. unfold P.heal, P.heal_pairs. simpl. apply upsert_many_empty_key, tested_keys. }
  repeat split.
  - unfold P.resolve_player.
    destruct (P._kv_hit U _ (P.kv w)); [reflexivity|].
    unfold P.probe_candidates.
    set (orig := P._clean_display_name U raw_name).
    assert (Hfb : forall cands w0,
               alias_kv.player_aliases (P.kv w0) !! [] = alias_kv.player_aliases (P.kv w) !! [] ->
               alias_kv.player_aliases
                 (P.kv (snd (match P.index_fallback U orig cands w0 with
                             | (Raise e, w'') => (Raise e, w'')
                             | (Ok uid, w'') =>
                                 (Ok (option_map
                                        (fun u => P.record_of u (fst (P.load_databases w'')))
                                        uid), w'')
                             end))) !! []
               = alias_kv.player_aliases (P.kv w) !! []).
    { intros cands w0 H0.
      pose proof (index_fallback_effect U orig cands w0) as [Hkv _].
      destruct (P.index_fallback U orig cands w0) as [[uid|e] w'']; simpl in *;
        now rewrite Hkv. }
    destruct (contains 44 orig).
    + destruct (P.comma_candidates U orig) as [cands|]; [|reflexivity].
      destruct (P.kv_probe U cands (P.kv w)) as [[cand uid]|]; [apply Hheal|].
      now apply Hfb.
    + destruct (P.plain_candidates U orig) as [cands|]; [|reflexivity].
      destruct (P.kv_probe U cands (P.kv w)) as [[cand uid]|]; [apply Hheal|].
      now apply Hfb.
  - unfold P.seed_aliases_from_canonicals. simpl.
    apply upsert_many_empty_key, forall_flat_map. intros [uid rec].
    unfold P.canonical_pairs.
    match goal with |- context [if ?c then P.base_pairs _ _ _ else []] => destruct c end;
      [apply tested_keys | constructor].
  - unfold P.seed_all_alias_variants. simpl.
    apply upsert_many_empty_key, forall_flat_map. intros [uid rec].
    unfold P.variant_pairs.
    match goal with |- context [if ?c then [] else _] => destruct c end; [constructor|].
    apply Forall_app. split; apply tested_keys.
Qed.

(** The writes of the tournament resolver and seeder leave it too. *)
Lemma tournament_writes_skip_empty_key (raw_name : str) (w : T.world) :
  alias_kv.tournament_aliases (T.kv (snd (T.resolve_tournament U raw_name w))) !! []
  = alias_kv.tournament_aliases (T.kv w) !! []
  /\ alias_kv.tournament_aliases (T.kv (snd (T.seed_aliases_from_canonicals U w))) !! []
     = alias_kv.tournament_aliases (T.kv w) !! [].
Proof.
  split.
  - unfold T.resolve_tournament.
    destruct (alias_kv.get_tournament_id _ (T.kv w)); [reflexivity|].
    destruct (alias_kv.get_tournament_id _ (T.kv w)); [reflexivity|]. cbv zeta.
    destruct (dict_get _ _ _) as [tid|]; [|reflexivity]. simpl.
    apply upsert_many_empty_key. apply Forall_app. split.
    + destruct (T._key U raw_name); repeat constructor. discriminate.
    + destruct (T._key U (T._strip_accents U raw_name)); repeat constructor.
      simpl. destruct (negb _); repeat constructor. discriminate.
  - unfold T.seed_aliases_from_canonicals, T.seed_pairs. simpl.
    apply upsert_many_empty_key.
    pose proof (canonical_index_keys U (T._ensure_meta (T.root w))) as Hall.
    apply List.Forall_forall. intros kv Hin.
    apply in_flat_map in Hin as ([key tid] & Hidx & Hin).
    rewrite List.Forall_forall in Hall. specialize (Hall _ Hidx). simpl in Hall.
    destruct Hin as [<-|Hin]; [simpl; now destruct key|].
    match type of Hin with In _ (if ?c then _ else _) => destruct c eqn:E end;
      [|destruct Hin].
    destruct Hin as [<-|[]]. simpl. apply andb_true_iff in E as [E _].
    intros Hnil. rewrite Hnil in E. discriminate.
Qed.

End EmptyKey.

(** The feed gives a match without a competition name: the scraper passes
    the empty string, which no lookup resolves, and a proposal is queued. *)
Definition unnamed_pending : T.world :=
  snd (T.resolve_or_register ascii_env [] no_context_t (py "id-1") (py "t1") no_tournament).

(** C10, at a failing input. The proposal queued for the empty tournament
    name has the empty string as its only alias; the migration of
    [approve_proposal_as_new], which has no [if k:] test, writes the empty
    key into the tournament table. *)
Theorem approval_writes_empty_key :
  alias_kv.tournament_aliases (T.kv unnamed_pending) !! [] = None
  /\ List.map T.aliases (T.unmapped unnamed_pending) = [[[]]]
  /\ exists a w',
      T.approve_proposal_as_new ascii_env (py "id-1") (py "Unknown") [] [] (py "Unknown")
        (py "20260101") unnamed_pending = (Ok a, w')
      /\ alias_kv.tournament_aliases (T.kv w') !! [] = Some (T.Tournament_ID a).
Proof.
  split; [reflexivity|]. split; [reflexivity|].
  eexists _, _. split; [reflexivity|]. reflexivity.
Qed.

(** ** Facts about strings and [re.sub] *)

Section StringFacts.
Variable p : N -> bool.

Lemma lstrip_by_suffix (s : str) : exists pre, s = pre ++ lstrip_by p s.
Proof.
  induction s as [|c s [pre IH]]; [now exists []|].
  simpl. destruct (p c).
  - exists (c :: pre). simpl. now rewrite <- IH.
  - now exists [].
Qed.

Lemma lstrip_by_head (s : str) (c : N) (t : str) :
  lstrip_by p s = c :: t -> p c = false.
Proof.
  induction s as [|d s IH]; simpl; [discriminate|].
  destruct (p d) eqn:E; [assumption|]. now intros [= <- <-].
Qed.

Lemma lstrip_by_id (c : N) (t : str) : p c = false -> lstrip_by p (c :: t) = c :: t.
Proof. intros H. simpl. now rewrite H. Qed.

Lemma lstrip_by_idem (s : str) : lstrip_by p (lstrip_by p s) = lstrip_by p s.
Proof.
  destruct (lstrip_by p s) as [|c t] eqn:E; [reflexivity|].
  apply lstrip_by_id. eapply lstrip_by_head. exact E.
Qed.

Lemma lstrip_by_snoc (l : str) (c : N) :
  p c = false -> lstrip_by p (l ++ [c]) = lstrip_by p l ++ [c].
Proof.
  intros H. induction l as [|d l IH]; simpl; [now rewrite H|].
  destruct (p d); [assumption | reflexivity].
Qed.

Lemma rstrip_by_cons (c : N) (t : str) :
  p c = false -> rstrip_by p (c :: t) = c :: rstrip_by p t.
Proof.
  intros H. unfold rstrip_by. simpl. rewrite lstrip_by_snoc by assumption.
  rewrite rev_app_distr. reflexivity.
Qed.

Lemma rstrip_by_idem (s : str) : rstrip_by p (rstrip_by p s) = rstrip_by p s.
Proof. unfold rstrip_by. now rewrite rev_involutive, lstrip_by_idem. Qed.

Lemma rstrip_by_prefix (s : str) : exists post, s = rstrip_by p s ++ post.
Proof.
  unfold rstrip_by. destruct (lstrip_by_suffix (rev s)) as [pre H].
  exists (rev pre). rewrite <- rev_app_distr, <- H. now rewrite rev_involutive.
Qed.

(** [strip] keeps a middle part of the string... *)
Lemma strip_by_middle (s : str) : exists pre post, s = pre ++ strip_by p s ++ post.
Proof.
  unfold strip_by. destruct (lstrip_by_suffix s) as [pre H].
  destruct (rstrip_by_prefix (lstrip_by p s)) as [post H'].
  exists pre, post. now rewrite <- H', <- H.
Qed.

(** ... and stripping what is stripped changes nothing. *)
Lemma strip_by_idem (s : str) : strip_by p (strip_by p s) = strip_by p s.
Proof.
  unfold strip_by. destruct (lstrip_by p s) as [|c t] eqn:E; [reflexivity|].
  assert (Hc : p c = false) by (eapply lstrip_by_head; exact E).
  rewrite rstrip_by_cons by assumption. rewrite lstrip_by_id by assumption.
  rewrite <- rstrip_by_cons by assumption. apply rstrip_by_idem.
Qed.

Lemma strip_by_incl (s : str) (x : N) : In x (strip_by p s) -> In x s.
Proof.
  destruct (strip_by_middle s) as (pre & post & H). intros Hx. rewrite H.
  apply in_or_app. right. apply in_or_app. now left.
Qed.

End StringFacts.

Lemma replace_In (a : N) (b s : str) (x : N) :
  In x (replace a b s) -> In x b \/ (In x s /\ x <> a).
Proof.
  unfold replace. rewrite in_flat_map. intros (c & Hc & Hx).
  destruct (c =? a)%N eqn:E; [now left|].
  destruct Hx as [<-|[]]. right. split; [assumption|]. now apply N.eqb_neq.
Qed.

Lemma replace_absent (a : N) (b s : str) : ~ In a s -> replace a b s = s.
Proof.
  unfold replace. induction s as [|c s IH]; [reflexivity|]. intros H. simpl.
  destruct (c =? a)%N eqn:E.
  - apply N.eqb_eq in E. subst. exfalso. apply H. now left.
  - simpl. f_equal. apply IH. intros Hin. apply H. now right.
Qed.

(** Two neighbours in a string. *)
Definition adjacent (a b : N) (s : str) : Prop := exists s1 s2, s = s1 ++ a :: b :: s2.

(** No two whitespace characters in a row. *)
Definition single_spaced (s : str) : Prop :=
  forall a b, adjacent a b s -> isspace a && isspace b = false.

Lemma adjacent_cons (a b c : N) (s : str) :
  adjacent a b (c :: s) <-> (a = c /\ exists s2, s = b :: s2) \/ adjacent a b s.
Proof.
  unfold adjacent. split.
  - intros ([|d s1] & s2 & H); simpl in H; injection H as -> ->.
    + left. split; [reflexivity | now exists s2].
    + right. now exists s1, s2.
  - intros [[-> [s2 ->]]|(s1 & s2 & ->)].
    + now exists [], s2.
    + now exists (c :: s1), s2.
Qed.

Lemma single_spaced_tail (c : N) (s : str) : single_spaced (c :: s) -> single_spaced s.
Proof. intros H a b Hab. apply H. apply adjacent_cons. now right. Qed.

Lemma single_spaced_middle (pre s post : str) :
  single_spaced (pre ++ s ++ post) -> single_spaced s.
Proof.
  intros H a b (s1 & s2 & ->). apply H. exists (pre ++ s1), (s2 ++ post).
  now rewrite <- !app_assoc.
Qed.

Section SubFacts.
Variable U : pyenv.

(** The recursion of the matcher on a repetition, as an equation. *)
Lemma match_here_rep cls lo hi (p' : list atom) (prev : option N) (s : str) :
  match_here U (Rep cls lo hi :: p') prev s
  = let stop := match lo with 0 => match_here U p' prev s | S _ => None end in
    match s with
    | c :: t =>
        if cls c && match hi with Some 0 => false | _ => true end then
          match match_here U (Rep cls (pred lo) (option_map pred hi) :: p') (Some c) t with
          | Some n => Some (S n)
          | None => stop
          end
        else stop
    | [] => stop
    end.
Proof. destruct s; reflexivity. Qed.

(** What [re.sub] returns is made of characters of the input and spaces. *)
Lemma sub_aux_In (alts : list (list atom)) (s : str) :
  forall skip prev x, In x (sub_aux U alts skip prev s) -> x = SP \/ In x s.
Proof.
  induction s as [|c s IH]; intros skip prev x; simpl; [tauto|].
  destruct skip as [|k].
  - destruct (first_match U alts prev (c :: s)) as [[|n]|]; simpl;
      intros [<-|H]; auto; apply IH in H; tauto.
  - intros H. apply IH in H. tauto.
Qed.

(** A pattern of one class: every character of the class becomes a space. *)
Lemma sub_one_class (q : N -> bool) (s : str) :
  forall prev, sub_aux U [[One q]] 0 prev s
               = List.map (fun c => if q c then SP else c) s.
Proof.
  induction s as [|c s IH]; intros prev; [reflexivity|].
  assert (Hm : first_match U [[One q]] prev (c :: s) = if q c then Some 1 else None).
  { unfold first_match, One. rewrite match_here_rep. cbv zeta. cbn [pred option_map].
    destruct (q c); cbn [andb]; [|reflexivity].
    rewrite match_here_rep. cbv zeta. destruct s as [|d s']; [reflexivity|].
    now rewrite andb_false_r. }
  cbn [sub_aux List.map]. rewrite Hm. destruct (q c); simpl; now rewrite IH.
Qed.

(** The length of the run of whitespace at the start of a string. *)
Fixpoint ws_run (s : str) : nat :=
  match s with
  | c :: t => if isspace c then S (ws_run t) else 0
  | [] => 0
  end.

Lemma match_ws_run (lo : nat) (s : str) :
  forall prev, match_here U [Rep isspace lo None] prev s
               = if (lo <=? ws_run s)%nat then Some (ws_run s) else None.
Proof.
  revert lo. induction s as [|c s IH]; intros lo prev; rewrite match_here_rep; cbv zeta.
  - destruct lo; reflexivity.
  - simpl option_map. rewrite IH. simpl ws_run. destruct (isspace c); simpl.
    + destruct lo as [|lo]; simpl; [reflexivity|].
      destruct (lo <=? ws_run s)%nat; reflexivity.
    + destruct lo; reflexivity.
Qed.

(** [re.sub(r"\s{2,}", " ", s)] directly: [drop] is set inside a run that
    has been replaced. *)
Fixpoint squeeze (drop : bool) (s : str) : str :=
  match s with
  | [] => []
  | c :: t =>
      if drop then (if isspace c then squeeze true t else c :: squeeze false t)
      else if isspace c && match t with d :: _ => isspace d | [] => false end
           then SP :: squeeze true t
           else c :: squeeze false t
  end.

Lemma sub_squeeze (s : str) :
  forall prev,
    sub_aux U [[Rep isspace 2 None]] 0 prev s = squeeze false s
    /\ sub_aux U [[Rep isspace 2 None]] (ws_run s) prev s = squeeze true s.
Proof.
  induction s as [|c s IH]; intros prev; [split; reflexivity|].
  assert (H0 : sub_aux U [[Rep isspace 2 None]] 0 prev (c :: s) = squeeze false (c :: s)).
  { cbn [sub_aux first_match]. rewrite match_ws_run. cbn [ws_run squeeze].
    destruct (isspace c) eqn:Ec; cbn [andb].
    - destruct s as [|d s']; [reflexivity|]. cbn [ws_run] in *.
      destruct (isspace d) eqn:Ed.
      + cbn [Nat.leb]. f_equal. destruct (IH (Some c)) as [_ H]. exact H.
      + cbn [Nat.leb]. f_equal. apply IH.
    - cbn [Nat.leb]. f_equal. apply IH. }
  split; [exact H0|].
  cbn [ws_run]. destruct (isspace c) eqn:Ec.
  - cbn [sub_aux squeeze]. rewrite Ec. apply IH.
  - rewrite H0. cbn [squeeze]. now rewrite Ec.
Qed.

Lemma squeeze_true_head (s : str) (c : N) (t : str) :
  squeeze true s = c :: t -> isspace c = false.
Proof.
  induction s as [|d s IH]; cbn [squeeze]; [discriminate|].
  destruct (isspace d) eqn:E; [assumption|]. now intros [= <- <-].
Qed.

Lemma squeeze_single_spaced (s : str) :
  single_spaced (squeeze false s) /\ single_spaced (squeeze true s).
Proof.
  induction s as [|c s [IHf IHt]];
    [split; intros a b ([|? ?] & ? & H); discriminate H|].
  assert (Hkeep : isspace c && match s with d :: _ => isspace d | [] => false end = false ->
                  single_spaced (c :: squeeze false s)).
  { intros Hc a b Hab. apply adjacent_cons in Hab as [[-> [s2 Hs]]|Hab]; [|now apply IHf].
    destruct s as [|d s']; [discriminate Hs|].
    destruct (isspace c) eqn:Ec; [|reflexivity]. cbn [andb] in Hc.
    cbn [squeeze] in Hs. rewrite Hc in Hs. cbn [andb] in Hs.
    injection Hs as -> _. now rewrite Hc. }
  split.
  - cbn [squeeze].
    destruct (isspace c && match s with d :: _ => isspace d | [] => false end) eqn:Hc;
      [|now apply Hkeep].
    intros a b Hab. apply adjacent_cons in Hab as [[-> [s2 Hs]]|Hab]; [|now apply IHt].
    apply squeeze_true_head in Hs. rewrite Hs. apply andb_false_r.
  - cbn [squeeze]. destruct (isspace c) eqn:Ec; [assumption|].
    apply Hkeep. reflexivity.
Qed.

Lemma squeeze_id (s : str) : single_spaced s -> squeeze false s = s.
Proof.
  induction s as [|c s IH]; intros H; [reflexivity|]. cbn [squeeze].
  assert (Hc : isspace c && match s with d :: _ => isspace d | [] => false end = false).
  { destruct s as [|d s']; [apply andb_false_r|]. apply H. now exists [], s'. }
  rewrite Hc. f_equal. apply IH. eapply single_spaced_tail. exact H.
Qed.

End SubFacts.

(** ** C4: the cleaner *)

Section Cleaner.
Variable U : pyenv.

(** The characters the first two steps remove or replace. *)
Definition unified_away (z : N) : Prop :=
  z = 8203%N \/ z = 8211%N \/ z = 8212%N \/ z = 8217%N \/ z = 96%N.

(** The string after the two replacement steps. *)
Definition unified (s : str) : str :=
  replace 96 (py "'")
    (replace 8217 (py "'") (replace 8212 (py "-") (replace 8211 (py "-") (replace 8203 [] s)))).

Lemma unified_free (s : str) (z : N) : In z (unified s) -> ~ unified_away z.
Proof.
  unfold unified, unified_away. intros H.
  repeat (apply replace_In in H as [H|[H ?]];
          [vm_compute in H; repeat (destruct H as [<-|H]; [lia|]); destruct H|]).
  lia.
Qed.

Lemma space_is_kept : P.not_kept U SP = false.
Proof. unfold P.not_kept. destruct (isword U SP); reflexivity. Qed.

Lemma squeeze_In (s : str) (z : N) (drop : bool) :
  In z (squeeze drop s) -> z = SP \/ In z s.
Proof.
  revert drop. induction s as [|c s IH]; intros drop; cbn [squeeze]; [tauto|].
  destruct drop.
  - destruct (isspace c).
    + intros H. apply IH in H. simpl. tauto.
    + intros [<-|H]; [simpl; tauto|]. apply IH in H. simpl. tauto.
  - destruct (isspace c && _).
    + intros [<-|H]; [tauto|]. apply IH in H. simpl. tauto.
    + intros [<-|H]; [simpl; tauto|]. apply IH in H. simpl. tauto.
Qed.

(** The cleaner with its last three steps written directly. *)
Lemma clean_stages (x : str) :
  P._clean_display_name U x
  = strip_chars (py " ,.-/")
      (squeeze false
         (List.map (fun c => if P.not_kept U c then SP else c)
            (re_sub_space U (P._CLEAN_RE U) (unified x)))).
Proof.
  unfold P._clean_display_name. cbv zeta. fold (unified x).
  set (s3 := re_sub_space U (P._CLEAN_RE U) (unified x)).
  unfold re_sub_space. rewrite sub_one_class.
  now destruct (sub_squeeze U (List.map (fun c => if P.not_kept U c then SP else c) s3) None)
    as [-> _].
Qed.

(** What comes out of the cleaner: only kept characters, none of the
    replaced ones, no two whitespace characters in a row, nothing left to
    strip at the ends. *)
Lemma clean_output (x : str) :
  let c := P._clean_display_name U x in
  (forall z, In z c -> P.not_kept U z = false)
  /\ (forall z, In z c -> ~ unified_away z)
  /\ single_spaced c
  /\ strip_chars (py " ,.-/") c = c.
Proof.
  cbv zeta. rewrite clean_stages.
  set (s3 := re_sub_space U (P._CLEAN_RE U) (unified x)).
  assert (H3 : forall z, In z s3 -> ~ unified_away z).
  { intros z Hz. apply sub_aux_In in Hz as [->|Hz]; [|now apply unified_free in Hz].
    unfold unified_away, SP. lia. }
  set (s4 := List.map (fun c => if P.not_kept U c then SP else c) s3).
  assert (H4 : forall z, In z s4 -> P.not_kept U z = false /\ ~ unified_away z).
  { intros z Hz. apply in_map_iff in Hz as (c & <- & Hc).
    destruct (P.not_kept U c) eqn:E.
    - split; [apply space_is_kept | unfold unified_away, SP; lia].
    - split; [assumption | now apply H3]. }
  assert (H5 : forall z, In z (strip_chars (py " ,.-/") (squeeze false s4)) ->
                         P.not_kept U z = false /\ ~ unified_away z).
  { intros z Hz. apply strip_by_incl, squeeze_In in Hz as [->|Hz]; [|now apply H4].
    split; [apply space_is_kept | unfold unified_away, SP; lia]. }
  split; [|split; [|split]].
  - intros z Hz. now apply H5.
  - intros z Hz. now apply H5.
  - destruct (strip_by_middle (chr_in (py " ,.-/")) (squeeze false s4)) as (pre & post & E).
    apply (single_spaced_middle pre _ post). unfold strip_chars.
    rewrite <- E. apply squeeze_single_spaced.
  - apply strip_by_idem.
Qed.

Lemma map_kept_id (s : str) :
  (forall z, In z s -> P.not_kept U z = false) ->
  List.map (fun c => if P.not_kept U c then SP else c) s = s.
Proof.
  induction s as [|c s IH]; intros H; [reflexivity|]. simpl.
  rewrite (H c) by now left. f_equal. apply IH. intros z Hz. apply H. now right.
Qed.

(** C4, amended. The cleaner is a total function, and cleaning a second
    time changes nothing whenever the noise pattern [_CLEAN_RE] finds
    nothing to replace in the cleaned string. *)
Theorem clean_idempotent_when_noise_free (x : str) :
  re_sub_space U (P._CLEAN_RE U) (P._clean_display_name U x) = P._clean_display_name U x ->
  P._clean_display_name U (P._clean_display_name U x) = P._clean_display_name U x.
Proof.
  destruct (clean_output x) as (Hkept & Hfree & Hsingle & Hstrip).
  set (c := P._clean_display_name U x) in *. intros Hnoise.
  unfold P._clean_display_name at 1. cbv zeta.
  assert (Hrep : forall a b, unified_away a -> replace a b c = c).
  { intros a b Ha. apply replace_absent. intros Hin. now apply (Hfree a). }
  rewrite (Hrep 8203%N), (Hrep 8211%N), (Hrep 8212%N), (Hrep 8217%N), (Hrep 96%N)
    by (unfold unified_away; lia).
  rewrite Hnoise. unfold re_sub_space. rewrite sub_one_class, map_kept_id by assumption.
  destruct (sub_squeeze U c None) as [-> _]. rewrite squeeze_id by assumption.
  exact Hstrip.
Qed.

(** The empty string is cleaned to itself. *)
Lemma clean_empty : P._clean_display_name U [] = [].
Proof. reflexivity. Qed.

End Cleaner.

Lemma clean_idempotent_when_noise_free_witness :
  P._clean_display_name ascii_env (py "Rafael Nadal (ESP) [Q]") = py "Rafael Nadal"
  /\ P._clean_display_name ascii_env
       (P._clean_display_name ascii_env (py "Rafael Nadal (ESP) [Q]"))
     = P._clean_display_name ascii_env (py "Rafael Nadal (ESP) [Q]").
Proof.
  split; [reflexivity|].
  apply (clean_idempotent_when_noise_free ascii_env (py "Rafael Nadal (ESP) [Q]")).
  reflexivity.
Defined.

(** C4, as stated, fails. The parentheses of ["seed (3)"] are no noise
    token; the character filter turns them into spaces and the result is
    ["seed 3"], which the noise pattern removes in a second pass. *)
Lemma clean_not_idempotent :
  P._clean_display_name ascii_env (py "seed (3)") = py "seed 3"
  /\ P._clean_display_name ascii_env (P._clean_display_name ascii_env (py "seed (3)")) = []
  /\ P._clean_display_name ascii_env (P._clean_display_name ascii_env (py "seed (3)"))
     <> P._clean_display_name ascii_env (py "seed (3)").
Proof. vm_compute. split; [reflexivity|]. split; [reflexivity|]. discriminate. Qed.

(** ** C7: resolving a registered alias *)

Section Registered.
Variable U : pyenv.

Lemma record_of_id (uid : Z) (p : P.doc) : P.Unique_ID (P.record_of uid p) = uid.
Proof. unfold P.record_of. destruct (List.find _ _) as [[? ?]|]; reflexivity. Qed.

(** A direct hit in the cache is the answer. *)
Lemma resolve_player_direct (raw_name : str) (w : P.world) (uid : Z) :
  P._kv_hit U (P._clean_display_name U raw_name) (P.kv w) = Some uid ->
  exists h, P.resolve_player U raw_name w = (Ok (Some h), w) /\ P.Unique_ID h = uid.
Proof.
  intros H. unfold P.resolve_player. rewrite H. eexists. split; [reflexivity|].
  apply record_of_id.
Qed.

(** C7, amended. Let [X] be an alias that the cleaner leaves unchanged, as
    it is and without its accents, and let the cache bind the lookup key of
    [X] and the lookup key of the accentless [X] to [I]. Then resolving [X]
    and resolving the accentless [X] both give [I], from the cache. *)
Theorem resolve_registered_alias (X : str) (I : Z) (w : P.world) :
  P._clean_display_name U X = X ->
  P._clean_display_name U (P._strip_acc U X) = P._strip_acc U X ->
  alias_kv.get_player_id (P._key U X) (P.kv w) = Some I ->
  alias_kv.get_player_id (P._key U (P._strip_acc U X)) (P.kv w) = Some I ->
  (exists h, P.resolve_player U X w = (Ok (Some h), w) /\ P.Unique_ID h = I)
  /\ (exists h, P.resolve_player U (P._strip_acc U X) w = (Ok (Some h), w)
                /\ P.Unique_ID h = I).
Proof.
  intros Hc Hc' Hk Hk'. split; apply resolve_player_direct; unfold P._kv_hit.
  - now rewrite !Hc, Hk.
  - now rewrite !Hc', Hk'.
Qed.

(** Tournament names are not cleaned: a registered key is found as it is. *)
Lemma resolve_registered_tournament (X : str) (I : Z) (w : T.world) :
  alias_kv.get_tournament_id (T._key U X) (T.kv w) = Some I ->
  alias_kv.get_tournament_id (T._key U (T._strip_accents U X)) (T.kv w) = Some I ->
  (exists h, T.resolve_tournament U X w = (Some h, w) /\ T.hit_Tournament_ID h = I)
  /\ (exists h, T.resolve_tournament U (T._strip_accents U X) w = (Some h, w)
                /\ T.hit_Tournament_ID h = I).
Proof.
  intros Hk Hk'. unfold T.resolve_tournament. rewrite Hk, Hk'.
  split; eexists; split; reflexivity.
Qed.

End Registered.

(** The cache after [seed-aliases players --full yes] on the one-player corpus. *)
Definition seeded : P.world := snd (P.seed_all_alias_variants ascii_env one_player).

Lemma resolve_registered_alias_witness :
  alias_kv.get_player_id (py "rafael nadal") (P.kv seeded) = Some 1%Z
  /\ (exists h, P.resolve_player ascii_env (py "Rafael Nadal") seeded = (Ok (Some h), seeded)
                /\ P.Unique_ID h = 1%Z).
Proof.
  split; [vm_compute; reflexivity|].
  refine (proj1 (resolve_registered_alias ascii_env (py "Rafael Nadal") 1 seeded _ _ _ _));
    vm_compute; reflexivity.
Defined.

(** C7, as stated, fails. The seeder registers the truncated variant
    ["rafael nad."] for id 1, but the resolver cleans the name first, which
    strips the final period: the key it looks up is ["rafael nad"], which
    nothing registers, and the index does not know it either. *)
Lemma registered_alias_not_resolved :
  alias_kv.get_player_id (py "rafael nad.") (P.kv seeded) = Some 1%Z
  /\ P._strip_acc ascii_env (py "rafael nad.") = py "rafael nad."
  /\ P._clean_display_name ascii_env (py "rafael nad.") = py "rafael nad"
  /\ fst (P.resolve_player ascii_env (py "rafael nad.") seeded) = Ok None.
Proof. vm_compute. repeat split; reflexivity. Qed.

(** ** C9: the alias set of a proposal *)

Section Covering.
Variable U : pyenv.

Lemma insert_sorted_In (x y : str) (l : list str) :
  In x (insert_sorted y l) <-> x = y \/ In x l.
Proof.
  induction l as [|z l IH]; simpl; [intuition|].
  destruct (str_eqb y z) eqn:E.
  - apply str_eqb_eq in E. subst. simpl. intuition.
  - destruct (str_ltb y z); simpl; [intuition|]. rewrite IH. intuition.
Qed.

Lemma sorted_set_In (x : str) (l : list str) : In x (sorted_set l) <-> In x l.
Proof.
  unfold sorted_set. induction l as [|y l IH]; simpl; [tauto|].
  rewrite insert_sorted_In, IH. intuition.
Qed.

(** The alias variants the queue derives from a raw name: those of its
    title-cased name guess. *)
Definition variants_of (raw_name : str) : list str :=
  let g := P._parse_name_guess U raw_name in
  P._alias_variants_for U (P.g_first_name g) (P.g_last_name g).

(** The alias set of the proposal holds the variants of each of its samples. *)
Definition covered (p : P.proposal) : Prop :=
  forall s, In s (P.raw_samples p) -> incl (variants_of s) (P.aliases p).

Record registration := {
  reg_raw : str;
  reg_context : P.context;
  reg_fresh : str;
  reg_now : str
}.

Definition register_all (rs : list registration) (w : P.world) : P.world :=
  fold_left (fun w r =>
               snd (P.register_unmapped_player U (reg_raw r) (reg_context r)
                      (reg_fresh r) (reg_now r) w))
            rs w.

Lemma merge_first_Forall (Q : P.proposal -> Prop) test upd (ps : list P.proposal) r ps' :
  (forall p, Q p -> Q (upd p)) ->
  Forall Q ps -> P.merge_first test upd ps = Some (r, ps') -> Forall Q ps'.
Proof.
  intros Hupd. revert r ps'. induction ps as [|p ps IH]; intros r ps' Hall; simpl;
    [discriminate|].
  apply Forall_cons_1 in Hall as [Hp Hall]. destruct (test p).
  - intros [= <- <-]. constructor; [now apply Hupd | assumption].
  - destruct (P.merge_first test upd ps) as [[r0 ps0]|]; [|discriminate].
    intros [= <- <-]. constructor; [assumption|]. now apply (IH r0).
Qed.

Lemma merge_sighting_covered (raw_name now : str) (p : P.proposal) :
  covered p -> covered (P.merge_sighting raw_name (variants_of raw_name) now p).
Proof.
  intros Hp s Hs a Ha. cbn [P.merge_sighting P.raw_samples P.aliases] in *.
  apply sorted_set_In, in_or_app.
  assert (Hcases : In s (P.raw_samples p) \/ s = raw_name).
  { clear Ha. destruct (str_in raw_name (P.raw_samples p)); [left; exact Hs|].
    apply in_app_or in Hs as [Hs|[<-|[]]]; [left; exact Hs | right; reflexivity]. }
  destruct Hcases as [Hold| ->]; [left; exact (Hp s Hold a Ha) | right; exact Ha].
Qed.

Lemma register_covered (raw_name : str) ctx fresh now (w : P.world) :
  Forall covered (P.unmapped w) ->
  Forall covered (P.unmapped (snd (P.register_unmapped_player U raw_name ctx fresh now w))).
Proof.
  intros Hall. unfold P.register_unmapped_player. cbv zeta. fold (variants_of raw_name).
  destruct (P.merge_first _ _ (P.unmapped w)) as [[r q]|] eqn:E;
    cbn [snd P.set_unmapped P.unmapped].
  - eapply merge_first_Forall; [|exact Hall | exact E].
    intros p. apply merge_sighting_covered.
  - apply Forall_app. split; [assumption|]. constructor; [|constructor].
    intros s Hs. cbn [P.raw_samples P.aliases] in *. destruct Hs as [<-|[]].
    apply incl_refl.
Qed.

(** C9, amended. After any sequence of registrations, the alias set of
    every proposal of the queue contains, for each string of its
    [raw_samples], the alias variants derived from that string's name
    guess. (The normalized form of the raw string itself is among them only
    when the guess reproduces it.) *)
Theorem alias_set_covers_sample_variants (rs : list registration) (w : P.world) :
  Forall covered (P.unmapped w) ->
  Forall covered (P.unmapped (register_all rs w)).
Proof.
  revert w. unfold register_all.
  induction rs as [|r rs IH]; intros w Hall; [assumption|].
  cbn [fold_left]. apply IH. now apply register_covered.
Qed.

End Covering.

Lemma alias_set_covers_sample_variants_witness :
  Forall (covered ascii_env)
    (P.unmapped
       (register_all ascii_env
          [ {| reg_raw := py "R. Nadal"; reg_context := no_context;
               reg_fresh := py "id-1"; reg_now := py "t1" |};
            {| reg_raw := py "r nadal (ESP)"; reg_context := no_context;
               reg_fresh := py "id-2"; reg_now := py "t2" |} ]
          one_player)).
Proof.
  apply (alias_set_covers_sample_variants ascii_env). constructor.
Defined.

(** C9, as stated, fails. The proposal queued for ["R. Nadal"] has this as
    its one raw sample, whose normalized form is ["r. nadal"]; the name
    guess drops the period, and no alias of the proposal has it. *)
Lemma alias_set_misses_normalized_sample :
  let p := fst (P.register_unmapped_player ascii_env (py "R. Nadal") no_context
                  (py "id-1") (py "t1") one_player) in
  P.raw_samples p = [py "R. Nadal"]
  /\ P.norm ascii_env (py "R. Nadal") = py "r. nadal"
  /\ P.aliases p = List.map py [ "Nad. R"; "Nadal, R"; "R Nad."; "R Nadal";
                                 "nad. r"; "nadal, r"; "r nad."; "r nadal" ]%string
  /\ ~ In (P.norm ascii_env (py "R. Nadal")) (P.aliases p).
Proof.
  vm_compute. split; [reflexivity|]. split; [reflexivity|]. split; [reflexivity|].
  intros H. repeat (destruct H as [H|H]; [discriminate H|]). exact H.
Qed.

(** ** More facts about stripping, splitting and joining *)

Section StripFacts.
Variable p : N -> bool.

Lemma lstrip_by_app_keep (u : str) (d : N) (v : str) :
  p d = false -> lstrip_by p (u ++ d :: v) = lstrip_by p u ++ d :: v.
Proof.
  intros H. induction u as [|e u IH]; simpl; [now rewrite H|].
  destruct (p e); [assumption | reflexivity].
Qed.

Lemma rstrip_by_app_keep (a : str) (d : N) (t : str) :
  p d = false -> rstrip_by p (a ++ d :: t) = a ++ d :: rstrip_by p t.
Proof.
  intros H. unfold rstrip_by. rewrite rev_app_distr. simpl. rewrite <- app_assoc. simpl.
  rewrite lstrip_by_app_keep by assumption.
  rewrite rev_app_distr. simpl. rewrite rev_involutive, <- app_assoc. reflexivity.
Qed.

Lemma rstrip_by_keeps (e : N) (s : str) : In e s -> p e = false -> In e (rstrip_by p s).
Proof.
  intros Hin He. apply in_split in Hin as (a & t & ->).
  rewrite rstrip_by_app_keep by assumption. apply in_or_app. right. now left.
Qed.

Lemma lstrip_by_keeps (e : N) (s : str) : In e s -> p e = false -> In e (lstrip_by p s).
Proof.
  intros Hin He. apply in_split in Hin as (a & t & ->).
  rewrite lstrip_by_app_keep by assumption. apply in_or_app. right. now left.
Qed.

Lemma strip_by_keeps (e : N) (s : str) : In e s -> p e = false -> In e (strip_by p s).
Proof.
  intros Hin He. unfold strip_by. apply rstrip_by_keeps; [|assumption].
  now apply lstrip_by_keeps.
Qed.

(** What stands between two characters that are not stripped stays. *)
Lemma strip_by_keeps_between (a b : str) (m : N) :
  (exists c, In c a /\ p c = false) ->
  (exists d, In d b /\ p d = false) ->
  In m (strip_by p (a ++ m :: b)).
Proof.
  intros (c & Hc & Hpc) (d & Hd & Hpd).
  apply in_split in Hc as (a1 & a2 & ->). apply in_split in Hd as (b1 & b2 & ->).
  unfold strip_by. rewrite <- app_assoc. simpl.
  rewrite lstrip_by_app_keep by assumption.
  replace (lstrip_by p a1 ++ c :: a2 ++ m :: b1 ++ d :: b2)
    with ((lstrip_by p a1 ++ c :: a2 ++ m :: b1) ++ d :: b2)
    by (rewrite <- app_assoc; simpl; now rewrite <- app_assoc).
  rewrite rstrip_by_app_keep by assumption.
  apply in_or_app. left. apply in_or_app. right. right.
  apply in_or_app. right. now left.
Qed.

Lemma strip_by_head (s : str) (c : N) (t : str) : strip_by p s = c :: t -> p c = false.
Proof.
  unfold strip_by. destruct (lstrip_by p s) as [|c' t'] eqn:E; [discriminate|].
  assert (Hc : p c' = false) by (eapply lstrip_by_head; exact E).
  rewrite rstrip_by_cons by assumption. now intros [= <- _].
Qed.

Lemma strip_by_last (s a : str) (e : N) : strip_by p s = a ++ [e] -> p e = false.
Proof.
  unfold strip_by, rstrip_by. intros H. apply (f_equal (@rev N)) in H.
  rewrite rev_involutive, rev_app_distr in H. simpl in H.
  eapply lstrip_by_head. exact H.
Qed.

End StripFacts.

Section FieldFacts.
Variable d : N -> bool.

(** A field is not empty and is made of characters of the string that are
    not delimiters. *)
Lemma fields_spec (s : str) (tok : str) :
  In tok (fields d s) -> tok <> [] /\ forall c, In c tok -> In c s /\ d c = false.
Proof.
  revert tok. induction s as [|c s IH]; intros tok; cbn [fields]; [intros []|].
  destruct (d c) eqn:Ec.
  - intros H. destruct (IH _ H) as [Hne Hall]. split; [assumption|].
    intros x Hx. destruct (Hall x Hx). split; [now right | assumption].
  - assert (Hone : tok = [c] -> tok <> [] /\ forall x, In x tok -> In x (c :: s) /\ d x = false).
    { intros ->. split; [discriminate|]. intros x [<-|[]]. split; [now left | assumption]. }
    assert (Hold : In tok (fields d s) ->
                   tok <> [] /\ forall x, In x tok -> In x (c :: s) /\ d x = false).
    { intros H. destruct (IH _ H) as [Hne Hall]. split; [assumption|].
      intros x Hx. destruct (Hall x Hx). split; [now right | assumption]. }
    destruct s as [|c' s']; [intros [<-|[]]; now apply Hone|].
    destruct (d c').
    + intros [<-|H]; [now apply Hone | now apply Hold].
    + destruct (fields d (c' :: s')) as [|tok0 toks] eqn:Ef;
        [intros [<-|[]]; now apply Hone|].
      intros [<-|H]; [|apply Hold; now right].
      destruct (IH tok0 (or_introl eq_refl)) as [_ Hall]. split; [discriminate|].
      intros x [<-|Hx]; [split; [now left | assumption]|].
      destruct (Hall x Hx). split; [now right | assumption].
Qed.

(** Every character that is not a delimiter lies in some field. *)
Lemma fields_covers (s : str) (x : N) :
  In x s -> d x = false -> exists tok, In tok (fields d s) /\ In x tok.
Proof.
  induction s as [|c s IH]; intros Hin Hx; [destruct Hin|]. cbn [fields].
  destruct (d c) eqn:Ec.
  - destruct Hin as [->|Hin]; [congruence|]. now apply IH.
  - destruct s as [|c' s'].
    + destruct Hin as [<-|[]]. exists [c]. split; now left.
    + destruct (d c') eqn:Ec'.
      * destruct Hin as [<-|Hin]; [exists [c]; split; now left|].
        destruct (IH Hin Hx) as (tok & Htok & Hxt). exists tok. split; [now right | assumption].
      * destruct (fields d (c' :: s')) as [|tok0 toks] eqn:Ef.
        -- destruct Hin as [<-|Hin]; [exists [c]; split; now left|].
           destruct (IH Hin Hx) as (tok & [] & _).
        -- destruct Hin as [<-|Hin]; [exists (c :: tok0); split; now left|].
           destruct (IH Hin Hx) as (tok & [<-|Htok] & Hxt).
           ++ exists (c :: tok0). split; [now left | now right].
           ++ exists tok. split; [now right | assumption].
Qed.

End FieldFacts.

Lemma join_In (sep : str) (parts : list str) (x : N) :
  In x (join sep parts) -> In x sep \/ exists q, In q parts /\ In x q.
Proof.
  induction parts as [|q parts IH]; simpl; [intros []|].
  destruct parts as [|q' parts'].
  - intros H. right. exists q. split; [now left | assumption].
  - intros H. apply in_app_or in H as [H|H]; [right; exists q; split; [now left | assumption]|].
    apply in_app_or in H as [H|H]; [now left|].
    destruct (IH H) as [Hs|(q0 & Hq0 & Hx)]; [now left|].
    right. exists q0. split; [now right | assumption].
Qed.

Lemma In_join (sep : str) (parts : list str) (q : str) (x : N) :
  In q parts -> In x q -> In x (join sep parts).
Proof.
  induction parts as [|q0 parts IH]; [intros []|].
  intros Hq Hx. simpl. destruct parts as [|q' parts'].
  - destruct Hq as [->|[]]. assumption.
  - apply in_or_app. destruct Hq as [->|Hq]; [now left|].
    right. apply in_or_app. right. now apply IH.
Qed.

Lemma split1_spec (sep : N) (s a b : str) :
  split1 sep s = (a, Some b) -> s = a ++ sep :: b.
Proof.
  revert a. induction s as [|c s IH]; intros a; simpl; [discriminate|].
  destruct (c =? sep)%N eqn:E.
  - apply N.eqb_eq in E. subst. now intros [= <- <-].
  - destruct (split1 sep s) as [a' b']. intros [= <- ->].
    simpl. f_equal. now apply IH.
Qed.

Lemma split1_found (sep : N) (s : str) :
  contains sep s = true -> exists a b, split1 sep s = (a, Some b).
Proof.
  unfold contains, chr_in. induction s as [|c s IH]; simpl; [discriminate|].
  rewrite N.eqb_sym. destruct (c =? sep)%N; [now eexists _, _|]. simpl.
  intros H. destruct (IH H) as (a & b & ->). now eexists _, _.
Qed.

(** ** C8: the candidates *)

Section Candidates.
Variable U : pyenv.

(** The candidates the resolver generates for a cleaned name, in the order
    it probes them. *)
Definition emitted (orig : str) : option (list str) :=
  if contains 44 orig then P.comma_candidates U orig else P.plain_candidates U orig.

(** A string with a character that is not whitespace. *)
Definition solid (s : str) : Prop := exists c, In c s /\ isspace c = false.

Lemma chr_in_In (cs : str) (c : N) : chr_in cs c = true <-> In c cs.
Proof.
  unfold chr_in. rewrite existsb_exists. split.
  - intros (x & Hx & E). apply N.eqb_eq in E. now subst.
  - intros H. exists c. split; [assumption | apply N.eqb_refl].
Qed.

(** No particle has a space or a comma in it. *)
Lemma particles_are_single_words :
  forallb (fun q => negb (chr_in q SP) && negb (chr_in q 44)) P._SURNAME_PARTICLES = true.
Proof. reflexivity. Qed.

(** A string with a space or a comma in it is not a particle. *)
Lemma not_particle (c : str) : In SP c \/ In 44%N c -> P.is_particle U c = false.
Proof.
  intros H. unfold P.is_particle.
  destruct (str_in (str_lower U c) P._SURNAME_PARTICLES) eqn:E; [|reflexivity].
  apply str_in_In in E. pose proof particles_are_single_words as Hall.
  rewrite forallb_forall in Hall. specialize (Hall _ E).
  apply andb_true_iff in Hall as [H32 H44].
  apply negb_true_iff in H32, H44.
  destruct H as [H|H]; apply (str_lower_low U) in H; try (unfold SP; lia);
    apply chr_in_In in H; congruence.
Qed.

(** A first core, a space, a last core: the space survives the strip. *)
Lemma core_pair_spaced (f l : str) : solid f -> solid l -> In SP (strip (f ++ sp ++ l)).
Proof. intros Hf Hl. now apply strip_by_keeps_between. Qed.

Lemma core_pairs_spaced (fc lc : list str) (c : str) :
  (forall f, In f fc -> solid f) -> (forall l, In l lc -> solid l) ->
  In c (P.core_pairs fc lc) -> In SP c.
Proof.
  intros Hf Hl Hc. unfold P.core_pairs in Hc.
  apply in_flat_map in Hc as (f & Hfin & Hc). apply in_map_iff in Hc as (l & <- & Hlin).
  apply core_pair_spaced; [now apply Hf | now apply Hl].
Qed.

Lemma fields_solid (s tok : str) : In tok (fields isspace s) -> solid tok.
Proof.
  intros H. apply fields_spec in H as [Hne Hall].
  destruct tok as [|c tok]; [congruence|]. exists c. split; [now left|].
  apply (Hall c). now left.
Qed.

(** Every first core has a character that is not whitespace. *)
Lemma first_cores_solid (given : str) (fc : list str) (f : str) :
  P._first_cores_from_given U given = Some fc -> In f fc -> solid f.
Proof.
  unfold P._first_cores_from_given. destruct given as [|g given]; [now intros [= <-] []|].
  destruct (split_ws (g :: given)) as [|t0 rest] eqn:Es; [discriminate|].
  assert (Ht0 : forall c, In c t0 -> isspace c = false).
  { intros c Hc. assert (Hin : In t0 (fields isspace (g :: given))).
    { unfold split_ws in Es. rewrite Es. now left. }
    apply fields_spec in Hin as [_ Hall]. now apply Hall. }
  assert (Hs0 : solid t0).
  { apply (fields_solid (g :: given)). unfold split_ws in Es. rewrite Es. now left. }
  intros [= <-] Hf. apply set_iter_In in Hf.
  destruct (contains 45 t0); [|destruct Hf as [<-|[]]; assumption].
  destruct (fields (N.eqb 45) t0) as [|q parts] eqn:Ep;
    [destruct Hf as [<-|[]]; assumption|].
  assert (Hparts : forall q', In q' (q :: parts) -> solid q').
  { intros q' Hq'. rewrite <- Ep in Hq'. apply fields_spec in Hq' as [Hne Hall].
    destruct q' as [|c q']; [congruence|]. exists c. split; [now left|].
    apply Ht0. apply (Hall c). now left. }
  destruct Hf as [<-|Hf]; [assumption|].
  apply in_app_or in Hf as [Hf|[<-|[<-|[]]]]; [now apply Hparts| |].
  - exists 46%N. split; [|reflexivity]. apply in_or_app. right. now left.
  - destruct (Hparts q (or_introl eq_refl)) as (c & Hc & _).
    destruct q as [|c0 q]; [destruct Hc|].
    exists c0. split.
    + apply (In_join [] _ (P.initial (c0 :: q))); [now left | now left].
    + apply Ht0. assert (Hq : In (c0 :: q) (fields (N.eqb 45) t0)) by (rewrite Ep; now left).
      apply fields_spec in Hq as [_ Hall]. apply (Hall c0). now left.
Qed.

Lemma firstn_In {A} (n : nat) (l : list A) (x : A) : In x (firstn n l) -> In x l.
Proof. intros H. rewrite <- (firstn_skipn n l). apply in_or_app. now left. Qed.

Lemma skipn_In {A} (n : nat) (l : list A) (x : A) : In x (skipn n l) -> In x l.
Proof. intros H. rewrite <- (firstn_skipn n l). apply in_or_app. now right. Qed.

Lemma rightmost_non_particle_lt (toks : list str) (n ni : nat) :
  P.rightmost_non_particle U toks n = Some ni -> (ni < n)%nat.
Proof.
  induction n as [|n IH]; simpl; [discriminate|].
  destruct (P.is_particle U (P.at_ toks n)).
  - intros H. apply IH in H. lia.
  - intros [= <-]. lia.
Qed.

Lemma attach_particles_le (toks : list str) (j : nat) :
  (P.attach_particles U toks j <= j)%nat.
Proof.
  induction j as [|j IH]; simpl; [lia|].
  destruct (P.is_particle U (P.at_ toks j)); lia.
Qed.

(** A join of tokens, at least one, each with a character that is not
    whitespace. *)
Lemma join_solid (ts : list str) :
  ts <> [] -> (forall t, In t ts -> solid t) -> solid (join sp ts).
Proof.
  destruct ts as [|t ts]; [congruence|]. intros _ H.
  destruct (H t (or_introl eq_refl)) as (c & Hc & Hws).
  exists c. split; [|assumption]. apply (In_join sp _ t); [now left | assumption].
Qed.

(** Every last core has one too, when the only whitespace of the surname
    is the plain space. *)
Lemma last_cores_solid (surname l : str) :
  (forall c, In c surname -> isspace c = true -> c = SP) ->
  In l (P._last_cores_from_surname U surname) -> solid l.
Proof.
  intros Hsp. unfold P._last_cores_from_surname.
  set (toks := P._tokenize surname).
  assert (Htok : forall t, In t toks -> solid t).
  { intros t Ht. unfold toks, P._tokenize in Ht. apply fields_spec in Ht as [Hne Hall].
    destruct t as [|c t]; [congruence|]. exists c. split; [now left|].
    destruct (Hall c (or_introl eq_refl)) as [Hin Hd].
    apply strip_by_incl in Hin. destruct (isspace c) eqn:Ews; [|reflexivity].
    rewrite (Hsp c Hin Ews) in Hd. discriminate Hd. }
  destruct toks as [|t0 toks'] eqn:Et; [intros []|]. rewrite <- Et in *.
  assert (Hfull : solid (join sp toks)).
  { apply join_solid; [rewrite Et; discriminate | assumption]. }
  destruct (P.rightmost_non_particle U toks (length toks)) as [ni|] eqn:Eni.
  2:{ intros H. apply set_iter_In in H as [<-|[]]. assumption. }
  apply rightmost_non_particle_lt in Eni.
  assert (Hat : forall i, (i < length toks)%nat -> In (P.at_ toks i) toks).
  { intros i Hi. unfold P.at_. now apply nth_In. }
  assert (Hni : solid (P.at_ toks ni)) by (apply Htok, Hat; assumption).
  assert (Hslice : solid (join sp (P.slice toks (P.attach_particles U toks ni) (ni + 1)))).
  { pose proof (attach_particles_le toks ni) as Hj. apply join_solid.
    - intros E. apply (f_equal (@length str)) in E. unfold P.slice in E.
      rewrite length_firstn, length_skipn in E. simpl in E. lia.
    - intros t Ht. apply Htok. unfold P.slice in Ht. eapply skipn_In, firstn_In. exact Ht. }
  intros H. apply set_iter_In, filter_In in H as [H _]. apply set_iter_In in H.
  assert (Hbase : In l (([join sp toks] ++ [P.at_ toks ni])
                          ++ [join sp (P.slice toks (P.attach_particles U toks ni) (ni + 1))])
                  -> solid l).
  { intros H'. apply in_app_or in H' as [H'|[<-|[]]]; [|assumption].
    apply in_app_or in H' as [[<-|[]]|[<-|[]]]; assumption. }
  destruct ni as [|i]; [now apply Hbase|].
  destruct (P.is_particle U (P.at_ toks i)); [now apply Hbase|].
  apply in_app_or in H as [H|[<-|[]]]; [now apply Hbase|].
  apply join_solid; [discriminate|].
  intros t [<-|[<-|[]]]; apply Htok, Hat; lia.
Qed.

(** The inverted form of a comma name has a space or a comma in it, when
    the name is a fixed point of the cleaner and its only whitespace is the
    plain space. *)
Lemma flipped_spaced (orig : str) :
  P._clean_display_name U orig = orig ->
  (forall c, In c orig -> isspace c = true -> c = SP) ->
  contains 44 orig = true ->
  In SP (P._flip_last_first_if_any U orig) \/ In 44%N (P._flip_last_first_if_any U orig).
Proof.
  intros H1 H2 Hcomma. unfold P._flip_last_first_if_any. cbv zeta.
  rewrite H1, Hcomma. cbn [negb].
  destruct (split1_found _ _ Hcomma) as (p0 & p1 & Es). rewrite Es.
  pose proof (split1_spec _ _ _ _ Es) as Eo.
  destruct (negb (P.nonempty (strip p0)) || negb (P.nonempty (strip p1))) eqn:En.
  { right. now apply chr_in_In. }
  left. apply orb_false_iff in En as [En0 En1]. apply negb_false_iff in En0, En1.
  apply core_pair_spaced.
  - assert (Hp1 : p1 <> []) by (intros ->; discriminate En1).
    destruct (exists_last Hp1) as (p1' & e & Ee).
    assert (Hend : chr_in (py " ,.-/") e = false).
    { pose proof (clean_output U orig) as (_ & _ & _ & Hstrip). cbv zeta in Hstrip.
      rewrite H1 in Hstrip. unfold strip_chars in Hstrip.
      apply (strip_by_last _ orig (p0 ++ 44%N :: p1') e).
      rewrite Hstrip, Eo, Ee, <- app_assoc. reflexivity. }
    assert (Hin : In e orig).
    { rewrite Eo, Ee. apply in_or_app. right. right. apply in_or_app. right. now left. }
    assert (Hws : isspace e = false).
    { destruct (isspace e) eqn:E; [|reflexivity].
      rewrite (H2 e Hin E) in Hend. discriminate Hend. }
    assert (Hdot : chr_in (py ".") e = false).
    { destruct (chr_in (py ".") e) eqn:E; [|reflexivity].
      apply chr_in_In in E as [<-|[]]. discriminate Hend. }
    assert (He1 : In e (strip p1)).
    { apply strip_by_keeps; [|assumption]. rewrite Ee. apply in_or_app. right. now left. }
    destruct (fields_covers isspace _ e He1 Hws) as (tok & Htok & Hetok).
    exists e. split; [|assumption].
    apply (In_join sp _ (rstrip_chars (py ".") (strip tok))).
    + apply in_map_iff. exists tok. split; [reflexivity|].
      apply filter_In. split; [exact Htok|].
      assert (Hs : In e (strip tok)) by now apply strip_by_keeps.
      destruct (strip tok); [destruct Hs | reflexivity].
    + apply rstrip_by_keeps; [|assumption]. now apply strip_by_keeps.
  - unfold strip. rewrite strip_by_idem. fold (strip p0).
    destruct (strip p0) as [|c t] eqn:E0; [discriminate En0|].
    exists c. split; [now left|]. eapply strip_by_head. exact E0.
Qed.

(** C8, amended. For a fixed iteration order of sets the generator is a
    function of the cleaned name: two runs give the same candidates in the
    same order. And when the name is a fixed point of the cleaner and its
    only whitespace is the plain space, no candidate is a bare particle. *)
Theorem candidates_are_not_particles (orig : str) (cands : list str) :
  P._clean_display_name U orig = orig ->
  (forall c, In c orig -> isspace c = true -> c = SP) ->
  emitted orig = Some cands ->
  (forall cands', emitted orig = Some cands' -> cands' = cands)
  /\ forall c, In c cands -> P.is_particle U c = false.
Proof.
  intros H1 H2 He. split; [intros cands' He'; congruence|].
  intros c Hc. apply not_particle. revert He. unfold emitted.
  destruct (contains 44 orig) eqn:Hcomma.
  - unfold P.comma_candidates.
    destruct (split1_found _ _ Hcomma) as (p0 & p1 & Es). rewrite Es.
    pose proof (split1_spec _ _ _ _ Es) as Eo. cbv zeta.
    destruct (P._first_cores_from_given U (strip p1)) as [fc|] eqn:Ef; [|discriminate].
    cbn [mbind option_bind]. intros [= <-].
    apply in_app_or in Hc as [Hc|Hc].
    + destruct (P.nonempty (P._flip_last_first_if_any U orig)); [|destruct Hc].
      destruct Hc as [<-|[]]. now apply flipped_spaced.
    + left. apply (core_pairs_spaced fc (P._last_cores_from_surname U (strip p0))).
      * intros f Hf. eapply first_cores_solid; eassumption.
      * intros l. apply last_cores_solid. intros x Hx. apply H2.
        apply strip_by_incl in Hx. rewrite Eo. apply in_or_app. now left.
      * assumption.
  - unfold P.plain_candidates. cbv zeta.
    destruct (3 <=? length (split_ws orig))%nat; [|intros [= <-]; destruct Hc].
    destruct (P._first_cores_from_given U (join sp (removelast (split_ws orig))))
      as [fc|] eqn:Ef; [|discriminate].
    cbn [mbind option_bind]. intros [= <-].
    apply (proj1 (insertion_order_In _ _)) in Hc.
    assert (Hjoin : forall n x, In x (join sp (skipn n (split_ws orig))) ->
                                isspace x = true -> x = SP).
    { intros n x Hx Hws. apply join_In in Hx as [[<-|[]]|(q & Hq & Hx)]; [reflexivity|].
      apply skipn_In in Hq. apply fields_spec in Hq as [_ Hall].
      destruct (Hall x Hx) as [_ Hnot]. congruence. }
    left. eapply core_pairs_spaced; [| |exact Hc].
    + intros f Hf. eapply first_cores_solid; eassumption.
    + intros l Hl. apply in_app_or in Hl as [Hl|Hl];
        (eapply last_cores_solid; [|exact Hl]); apply Hjoin.
Qed.

End Candidates.

Lemma candidates_are_not_particles_witness :
  emitted ascii_env (py "Struff, Jan-Lennard")
  = Some (List.map py [ "Jan-Lennard Struff"; "Jan-Lennard Struff"; "Jan Struff";
                        "Lennard Struff"; "J.L. Struff"; "JL Struff" ]%string)
  /\ forall c,
      In c (List.map py [ "Jan-Lennard Struff"; "Jan-Lennard Struff"; "Jan Struff";
                          "Lennard Struff"; "J.L. Struff"; "JL Struff" ]%string) ->
      P.is_particle ascii_env c = false.
Proof.
  split; [vm_compute; reflexivity|].
  refine (proj2 (candidates_are_not_particles ascii_env (py "Struff, Jan-Lennard") _ _ _ _)).
  - vm_compute. reflexivity.
  - intros c Hc Hws. vm_compute in Hc.
    repeat (destruct Hc as [<-|Hc];
            [first [reflexivity | vm_compute in Hws; discriminate Hws]|]).
    destruct Hc.
  - vm_compute. reflexivity.
Defined.

(** C8, as stated, fails. ["seed (3), de"] is cleaned to ["seed 3 , de"].
    For this cleaned name the inverted form is computed from a second
    cleaning, which removes ["seed 3"] and the comma with it: the first
    candidate is ["de"], a particle. *)
Lemma cleaned_name_yields_bare_particle :
  P._clean_display_name ascii_env (py "seed (3), de") = py "seed 3 , de"
  /\ emitted ascii_env (py "seed 3 , de")
     = Some (List.map py [ "de"; "de seed 3"; "de 3" ]%string)
  /\ P.is_particle ascii_env (py "de") = true
  /\ In (py "de") P._SURNAME_PARTICLES.
Proof.
  split; [vm_compute; reflexivity|]. split; [vm_compute; reflexivity|].
  split; [vm_compute; reflexivity|]. vm_compute. tauto.
Qed.

(** The two conditions of the amended C8 are both needed: a name that the
    cleaner leaves unchanged, with a line break as a surname token of its
    own, also yields the bare particle. *)
Definition line_break_name : str := py "x-" ++ [10%N] ++ py "-, de".

Lemma line_break_yields_bare_particle :
  P._clean_display_name ascii_env line_break_name = line_break_name
  /\ exists cands, emitted ascii_env line_break_name = Some cands /\ In (py "de") cands.
Proof.
  split; [vm_compute; reflexivity|].
  eexists. split; [vm_compute; reflexivity|]. vm_compute. tauto.
Qed.

(** The order of the candidates follows the iteration order of sets: with
    the sets iterated in reverse, the same name gives the same candidates
    in another order. *)
Lemma reverse_order_In (l : list str) (x : str) : In x (rev (insertion_order l)) <-> In x l.
Proof. rewrite <- in_rev. apply insertion_order_In. Qed.

Definition reversed_env : pyenv :=
  {| isword := isword ascii_env; isdecimal := isdecimal ascii_env;
     str_lower := str_lower ascii_env; str_title := str_title ascii_env;
     nfkd := nfkd ascii_env; combining := combining ascii_env;
     set_iter := fun l => rev (insertion_order l);
     set_iter_In := reverse_order_In;
     str_lower_low := lower_ascii_low |}.

Lemma candidate_order_follows_set_order :
  emitted reversed_env (py "Struff, Jan-Lennard")
  = Some (List.map py [ "Jan-Lennard Struff"; "JL Struff"; "J.L. Struff";
                        "Lennard Struff"; "Jan Struff"; "Jan-Lennard Struff" ]%string)
  /\ emitted reversed_env (py "Struff, Jan-Lennard")
     <> emitted ascii_env (py "Struff, Jan-Lennard").
Proof. vm_compute. split; [reflexivity | discriminate]. Qed.

(** ** C7 once more: an accent

    An environment that knows one accented letter: e acute, upper and
    lower case, which NFKD decomposes into the plain letter and the
    combining acute accent U+0301. *)
Definition acute_map (f : N -> N) (c : N) : N :=
  if (c =? 201)%N then 233%N else f c.

Definition is_e_acute (c : N) : bool := ((c =? 201) || (c =? 233))%N.

Fixpoint title_acute (prev_cased : bool) (s : str) : str :=
  match s with
  | [] => []
  | c :: t =>
      if is_alpha_ascii c || is_e_acute c
      then (if prev_cased then acute_map lower_ascii c
            else if (c =? 233)%N then 201%N else upper_ascii c) :: title_acute true t
      else c :: title_acute false t
  end.

Lemma lower_acute_low (c : N) (s : str) :
  (c < 65)%N -> In c (List.map (acute_map lower_ascii) s) <-> In c s.
Proof.
  intros Hc. rewrite in_map_iff. unfold acute_map, lower_ascii, is_upper_ascii. split.
  - intros (x & Hx & Hin). destruct (x =? 201)%N; [lia|].
    destruct ((65 <=? x) && (x <=? 90))%N eqn:E; [|now subst].
    apply andb_true_iff in E as [E _]. apply N.leb_le in E. lia.
  - intros Hin. exists c. split; [|assumption].
    destruct (c =? 201)%N eqn:E1; [apply N.eqb_eq in E1; lia|].
    destruct ((65 <=? c) && (c <=? 90))%N eqn:E; [|reflexivity].
    apply andb_true_iff in E as [E _]. apply N.leb_le in E. lia.
Qed.

Definition acute_env : pyenv :=
  {| isword := fun c => isword ascii_env c || is_e_acute c;
     isdecimal := is_digit_ascii;
     str_lower := List.map (acute_map lower_ascii);
     str_title := title_acute false;
     nfkd := flat_map (fun c => if (c =? 233)%N then [101; 769]%N
                                else if (c =? 201)%N then [69; 769]%N else [c]);
     combining := fun c => (c =? 769)%N;
     set_iter := insertion_order;
     set_iter_In := insertion_order_In;
     str_lower_low := lower_acute_low |}.

(** ["José Lopez"] *)
Definition jose_acute : str := py "Jos" ++ [233%N] ++ py " Lopez".

Definition two_joses : P.world :=
  {| P.kv := alias_kv.empty_db;
     P.players :=
       {| P.db_version := py "players-init"; P.next_id := Some 3%Z;
          P.data := [ (1%Z, {| P.canonical_name := jose_acute;
                               P.first_name := py "Jos" ++ [233%N];
                               P.last_name := py "Lopez"; P.gender := py "M";
                               P.preferred_hand := py "Right" |});
                      (2%Z, {| P.canonical_name := py "Jose Lopez";
                               P.first_name := py "Jose"; P.last_name := py "Lopez";
                               P.gender := py "M"; P.preferred_hand := py "Left" |}) ] |};
     P.unmapped := []; P._EXT_INDEX := None; P.ext_lookups := 0 |}.

(** After seeding the canonical names of the two players, the accented
    alias is registered to id 1 and resolves to 1; its accentless form
    belongs to the other player and resolves to 2. *)
Lemma accentless_form_resolves_elsewhere :
  let w := snd (P.seed_aliases_from_canonicals acute_env two_joses) in
  P._clean_display_name acute_env jose_acute = jose_acute
  /\ P._strip_acc acute_env jose_acute = py "Jose Lopez"
  /\ alias_kv.get_player_id (P._key acute_env jose_acute) (P.kv w) = Some 1%Z
  /\ option_map P.Unique_ID
       match fst (P.resolve_player acute_env jose_acute w) with
       | Ok h => h | Raise _ => None end = Some 1%Z
  /\ option_map P.Unique_ID
       match fst (P.resolve_player acute_env (P._strip_acc acute_env jose_acute) w) with
       | Ok h => h | Raise _ => None end = Some 2%Z.
Proof. vm_compute. repeat split; reflexivity. Qed.

(** * Further properties of the code *)

(** ** [alias_kv]: reading after a bulk upsert *)

Section Upsert.
Implicit Types (m : gmap str Z) (pairs : list (str * Z)) (k : str) (d : alias_kv.db).

(** The id of the last pair that carries the key. *)
Fixpoint last_binding (k : str) (pairs : list (str * Z)) : option Z :=
  match pairs with
  | [] => None
  | (k', v) :: rest =>
      match last_binding k rest with
      | Some v' => Some v'
      | None => if str_eqb k k' then Some v else None
      end
  end.

Lemma upsert_many_lookup pairs m k :
  alias_kv.upsert_many pairs m !! k
  = match last_binding k pairs with Some v => Some v | None => m !! k end.
Proof.
  revert m. induction pairs as [|[k' v] pairs IH]; intros m; [reflexivity|].
  cbn [alias_kv.upsert_many fold_left last_binding fst snd].
  change (fold_left _ pairs (<[k':=v]> m)) with (alias_kv.upsert_many pairs (<[k':=v]> m)).
  rewrite IH. destruct (last_binding k pairs); [reflexivity|].
  destruct (str_eqb k k') eqn:E.
  - apply str_eqb_eq in E. subst. apply lookup_insert_eq.
  - apply str_eqb_neq in E. apply lookup_insert_ne. congruence.
Qed.

(** After a bulk upsert, a key reads as the id of the last pair that carries
    it, and as before when no pair carries it; the other table is not
    touched. Players and tournaments alike. *)
Theorem get_after_upsert pairs d k :
  alias_kv.get_player_id k (alias_kv.upsert_player_aliases pairs d)
  = match last_binding k pairs with
    | Some v => Some v
    | None => alias_kv.get_player_id k d
    end
  /\ alias_kv.get_tournament_id k (alias_kv.upsert_player_aliases pairs d)
     = alias_kv.get_tournament_id k d
  /\ alias_kv.get_tournament_id k (alias_kv.upsert_tournament_aliases pairs d)
     = match last_binding k pairs with
       | Some v => Some v
       | None => alias_kv.get_tournament_id k d
       end
  /\ alias_kv.get_player_id k (alias_kv.upsert_tournament_aliases pairs d)
     = alias_kv.get_player_id k d.
Proof.
  unfold alias_kv.get_player_id, alias_kv.get_tournament_id,
    alias_kv.upsert_player_aliases, alias_kv.upsert_tournament_aliases.
  cbn [alias_kv.player_aliases alias_kv.tournament_aliases].
  repeat split; try reflexivity; apply upsert_many_lookup.
Qed.

(** The bulk upsert is idempotent: the same batch a second time changes
    nothing. *)
Theorem upsert_twice_is_upsert_once pairs d :
  alias_kv.upsert_player_aliases pairs (alias_kv.upsert_player_aliases pairs d)
  = alias_kv.upsert_player_aliases pairs d
  /\ alias_kv.upsert_tournament_aliases pairs (alias_kv.upsert_tournament_aliases pairs d)
     = alias_kv.upsert_tournament_aliases pairs d.
Proof.
  assert (H : forall m, alias_kv.upsert_many pairs (alias_kv.upsert_many pairs m)
                        = alias_kv.upsert_many pairs m).
  { intros m. apply map_eq. intros k. rewrite !upsert_many_lookup.
    now destruct (last_binding k pairs). }
  unfold alias_kv.upsert_player_aliases, alias_kv.upsert_tournament_aliases.
  cbn [alias_kv.player_aliases alias_kv.tournament_aliases].
  split; f_equal; apply H.
Qed.

End Upsert.

(** ** The id counter of a file without one *)

Section FreshId.

Lemma fold_max_bounds (l : list Z) (a : Z) :
  (a <= fold_left Z.max l a)%Z /\ Forall (fun x => x <= fold_left Z.max l a)%Z l.
Proof.
  revert a. induction l as [|x l IH]; intros a; [split; [simpl; lia | constructor]|].
  simpl. destruct (IH (Z.max a x)) as [Ha Hall]. split; [lia|].
  constructor; [lia | assumption].
Qed.

Lemma fresh_id_above {A} (d : list (Z * A)) :
  Forall (fun e => e.1 < T.fresh_id d)%Z d.
Proof.
  destruct d as [|[i a] d]; [constructor|]. unfold T.fresh_id.
  destruct (fold_max_bounds (List.map fst d) i) as [Hi Hall].
  constructor; [simpl; lia|].
  apply List.Forall_forall. intros e He.
  rewrite List.Forall_forall in Hall. specialize (Hall e.1 (in_map fst _ _ He)). lia.
Qed.

(** When [all_tournaments.json] or [all_players.json] has no [next_id], the
    counter that [load_databases] supplies is above every id of the data (1
    for no data); a counter that is there is kept, whatever it is. *)
Theorem missing_counter_is_above_all_ids :
  (forall v (d : list (Z * T.tournament)),
      exists n, T.next_id (T._ensure_meta {| T.db_version := v; T.next_id := None;
                                             T.data := d |}) = Some n
                /\ Forall (fun e => e.1 < n)%Z d /\ (d = [] -> n = 1%Z))
  /\ (forall v (d : list (Z * P.player)),
      exists n, P.next_id (P._ensure_players_meta {| P.db_version := v; P.next_id := None;
                                                     P.data := d |}) = Some n
                /\ Forall (fun e => e.1 < n)%Z d /\ (d = [] -> n = 1%Z))
  /\ (forall v n (d : list (Z * T.tournament)),
      T._ensure_meta {| T.db_version := v; T.next_id := Some n; T.data := d |}
      = {| T.db_version := v; T.next_id := Some n; T.data := d |})
  /\ (forall v n (d : list (Z * P.player)),
      P._ensure_players_meta {| P.db_version := v; P.next_id := Some n; P.data := d |}
      = {| P.db_version := v; P.next_id := Some n; P.data := d |}).
Proof.
  split; [|split; [|split; reflexivity]].
  - intros v d. eexists. split; [reflexivity|]. split; [apply fresh_id_above|].
    now intros ->.
  - intros v d. eexists. split; [reflexivity|]. split; [apply (fresh_id_above d)|].
    now intros ->.
Qed.

End FreshId.

(** ** Review and resolution together *)

Section ReviewThenResolve.
Variable U : pyenv.

Lemma dict_get_set_eq {V} (k : Z) (v : V) (d : list (Z * V)) :
  dict_get Z.eqb k (dict_set Z.eqb k v d) = Some v.
Proof.
  induction d as [|[k' v'] d IH]; simpl; [now rewrite Z.eqb_refl|].
  destruct (k =? k')%Z eqn:E; simpl; rewrite E; [reflexivity | assumption].
Qed.

Lemma dict_get_set_ne {V} (k k0 : Z) (v : V) (d : list (Z * V)) :
  k0 <> k -> dict_get Z.eqb k0 (dict_set Z.eqb k v d) = dict_get Z.eqb k0 d.
Proof.
  intros Hne. induction d as [|[k' v'] d IH]; simpl.
  - destruct (k0 =? k)%Z eqn:E; [apply Z.eqb_eq in E; congruence | reflexivity].
  - destruct (k =? k')%Z eqn:E; simpl.
    + apply Z.eqb_eq in E. subst k'.
      destruct (k0 =? k)%Z eqn:E0; [apply Z.eqb_eq in E0; congruence | reflexivity].
    + destruct (k0 =? k')%Z; [reflexivity | assumption].
Qed.

Lemma dict_set_keys_incl {V} (k : Z) (v : V) (d : list (Z * V)) (x : Z) :
  In x (List.map fst (dict_set Z.eqb k v d)) <-> x = k \/ In x (List.map fst d).
Proof.
  induction d as [|[k' v'] d IH]; simpl; [intuition|].
  destruct (k =? k')%Z eqn:E; simpl.
  - apply Z.eqb_eq in E. subst. intuition.
  - rewrite IH. intuition.
Qed.

Lemma dict_set_NoDup {V} (k : Z) (v : V) (d : list (Z * V)) :
  List.NoDup (List.map fst d) -> List.NoDup (List.map fst (dict_set Z.eqb k v d)).
Proof.
  induction d as [|[k' v'] d IH]; simpl; intros H.
  - apply List.NoDup_cons_iff. split; [intros [] | apply List.NoDup_nil].
  - apply List.NoDup_cons_iff in H as [Hk' Hd].
    destruct (k =? k')%Z eqn:E; simpl.
    + apply List.NoDup_cons_iff. split; assumption.
    + apply List.NoDup_cons_iff. split; [|now apply IH].
      rewrite dict_set_keys_incl. intros [->|Hin]; [|contradiction].
      rewrite Z.eqb_refl in E. discriminate.
Qed.

Lemma derived_key_of_alias (als : list str) (a : str) :
  In a als -> str_in (T._key U a) (derived_keys U als) = true.
Proof.
  intros Ha. apply str_in_In. unfold derived_keys. apply in_flat_map.
  exists a. split; [assumption | now left].
Qed.

(** Approving a pending proposal makes its aliases resolve: a name among
    the proposal's aliases whose lookup key the cache did not know resolves,
    right after [approve_proposal_as_new], to the id just issued and to the
    record just stored, from the cache. *)
Theorem approved_alias_resolves
    (pid : str) (p : T.proposal) (raw_name : str) (w : T.world)
    (level country city surface today : str) :
  T.find_proposal pid (T.unmapped w) = Some p ->
  In raw_name (T.aliases p) ->
  alias_kv.get_tournament_id (T._key U raw_name) (T.kv w) = None ->
  exists a w',
    T.approve_proposal_as_new U pid level country city surface today w = (Ok a, w')
    /\ T.canonical_name (T.approved_record a) = strip (T.canonical_name_guess p)
    /\ T.resolve_tournament U raw_name w'
       = (Some {| T.hit_Tournament_ID := T.Tournament_ID a;
                  T.hit_record := T.approved_record a |}, w').
Proof.
  intros Hfind Hin Hfree. unfold T.approve_proposal_as_new.
  cbn [T.load_databases fst snd]. rewrite Hfind. eexists _, _.
  split; [reflexivity|]. split; [reflexivity|].
  cbn [T.Tournament_ID T.approved_record]. unfold T.resolve_tournament.
  unfold alias_kv.get_tournament_id, alias_kv.upsert_tournament_aliases.
  cbn [T.kv alias_kv.tournament_aliases]. rewrite migration_lookup. unfold migrated.
  unfold alias_kv.get_tournament_id in Hfree. rewrite Hfree.
  rewrite derived_key_of_alias by assumption.
  unfold T.record_of, T.load_databases, T._ensure_meta.
  cbn [T.root T.next_id T.data fst]. now rewrite dict_get_set_eq.
Qed.

(** Marking a proposal as a duplicate with [merge_aliases] makes its aliases
    resolve to the existing id; the id is not checked against the data, and
    the record is whatever the data has under it. *)
Theorem duplicate_alias_resolves
    (pid : str) (p : T.proposal) (raw_name : str) (existing : Z) (w : T.world) :
  T.find_proposal pid (T.unmapped w) = Some p ->
  In raw_name (T.aliases p) ->
  alias_kv.get_tournament_id (T._key U raw_name) (T.kv w) = None ->
  exists r w',
    T.mark_proposal_as_duplicate U pid existing true w = (Ok r, w')
    /\ T.root w' = T.root w
    /\ T.resolve_tournament U raw_name w'
       = (Some (T.record_of existing (T._ensure_meta (T.root w))), w').
Proof.
  intros Hfind Hin Hfree. unfold T.mark_proposal_as_duplicate.
  cbn [T.load_databases fst snd]. rewrite Hfind. eexists _, _.
  split; [reflexivity|]. split; [reflexivity|].
  unfold T.resolve_tournament.
  unfold alias_kv.get_tournament_id, alias_kv.upsert_tournament_aliases.
  cbn [T.kv alias_kv.tournament_aliases]. rewrite migration_lookup. unfold migrated.
  unfold alias_kv.get_tournament_id in Hfree. rewrite Hfree.
  rewrite derived_key_of_alias by assumption. reflexivity.
Qed.

(** [set-next-id v] and then an approval: the id issued is [v], and the
    counter is left at [v + 1]. *)
Theorem set_next_id_then_approve
    (v : Z) (pid : str) (p : T.proposal) (w : T.world)
    (level country city surface today : str) :
  T.find_proposal pid (T.unmapped w) = Some p ->
  exists a w',
    CLI.cmd_approve_new_tournament U pid level country city surface today
      (CLI.cmd_set_next_id_tournaments v w) = (Ok a, w')
    /\ T.Tournament_ID a = v
    /\ CLI.counter w' = (v + 1)%Z.
Proof.
  intros Hfind. unfold CLI.cmd_approve_new_tournament, T.approve_proposal_as_new.
  unfold CLI.cmd_set_next_id_tournaments.
  cbn [T.load_databases T.set_root T.root T.unmapped T._ensure_meta T.next_id fst snd].
  rewrite Hfind. eexists _, _. split; [reflexivity|]. split; reflexivity.
Qed.

(** An approval keeps the ids of the data distinct: the new record goes
    under the issued id, in place of any record that was there, and every
    other id of the data reads as before. *)
Theorem approval_keeps_ids_distinct
    (pid : str) (p : T.proposal) (w : T.world)
    (level country city surface today : str) :
  T.find_proposal pid (T.unmapped w) = Some p ->
  List.NoDup (List.map fst (T.data (T.root w))) ->
  exists a w',
    T.approve_proposal_as_new U pid level country city surface today w = (Ok a, w')
    /\ List.NoDup (List.map fst (T.data (T.root w')))
    /\ dict_get Z.eqb (T.Tournament_ID a) (T.data (T.root w')) = Some (T.approved_record a)
    /\ forall i, i <> T.Tournament_ID a ->
                 dict_get Z.eqb i (T.data (T.root w')) = dict_get Z.eqb i (T.data (T.root w)).
Proof.
  intros Hfind Hnd. unfold T.approve_proposal_as_new.
  cbn [T.load_databases fst snd]. rewrite Hfind. eexists _, _.
  split; [reflexivity|]. cbn [T.root T.data T.Tournament_ID T.approved_record].
  assert (Hdata : T.data (T._ensure_meta (T.root w)) = T.data (T.root w)).
  { unfold T._ensure_meta. now destruct (T.next_id (T.root w)). }
  rewrite Hdata. split; [now apply dict_set_NoDup|].
  split; [apply dict_get_set_eq|]. intros i Hi. now apply dict_get_set_ne.
Qed.

Lemma find_proposal_other (pid pid' : str) (q : list T.proposal) :
  pid' <> pid -> T.find_proposal pid' (T._remove_proposal q pid) = T.find_proposal pid' q.
Proof.
  intros Hne. unfold T.find_proposal, T._remove_proposal.
  induction q as [|p q IH]; [reflexivity|]. cbn [List.filter List.find].
  destruct (str_eqb (T.proposal_id p) pid) eqn:E; cbn [negb List.find].
  - apply str_eqb_eq in E.
    destruct (str_eqb (T.proposal_id p) pid') eqn:E'; [|assumption].
    apply str_eqb_eq in E'. congruence.
  - destruct (str_eqb (T.proposal_id p) pid'); [reflexivity | assumption].
Qed.

(** Either disposition takes out of the queue the proposal it is given and
    no other: every other proposal id is found afterwards as it was before. *)
Theorem disposition_leaves_other_proposals
    (pid pid' : str) (w : T.world) (level country city surface today : str)
    (existing : Z) (merge : bool) :
  pid' <> pid ->
  T.find_proposal pid'
    (T.unmapped (snd (T.approve_proposal_as_new U pid level country city surface today w)))
  = T.find_proposal pid' (T.unmapped w)
  /\ T.find_proposal pid'
       (T.unmapped (snd (T.mark_proposal_as_duplicate U pid existing merge w)))
     = T.find_proposal pid' (T.unmapped w).
Proof.
  intros Hne. unfold T.approve_proposal_as_new, T.mark_proposal_as_duplicate.
  cbn [T.load_databases fst snd].
  destruct (T.find_proposal pid (T.unmapped w)); cbn [snd T.unmapped];
    split; try reflexivity; now apply find_proposal_other.
Qed.

End ReviewThenResolve.

(** The proposal queued for ["Wimbledon"]. *)
Definition wimbledon_proposal : T.proposal :=
  fst (T.register_unmapped_tournament ascii_env (py "Wimbledon") no_context_t
         (py "id-1") (py "t1") no_tournament).

Lemma wimbledon_is_pending :
  T.find_proposal (py "id-1") (T.unmapped one_pending) = Some wimbledon_proposal.
Proof. vm_compute. reflexivity. Qed.

Lemma approved_alias_resolves_witness :
  exists a w',
    T.approve_proposal_as_new ascii_env (py "id-1") (py "G") (py "GB") (py "London")
      (py "Grass") (py "20260101") one_pending = (Ok a, w')
    /\ T.resolve_tournament ascii_env (py "Wimbledon") w'
       = (Some {| T.hit_Tournament_ID := T.Tournament_ID a;
                  T.hit_record := T.approved_record a |}, w').
Proof.
  destruct (approved_alias_resolves ascii_env (py "id-1") wimbledon_proposal
              (py "Wimbledon") one_pending (py "G") (py "GB") (py "London") (py "Grass")
              (py "20260101") wimbledon_is_pending)
    as (a & w' & E1 & _ & E3).
  - vm_compute. tauto.
  - vm_compute. reflexivity.
  - now exists a, w'.
Defined.

Lemma duplicate_alias_resolves_witness :
  exists r w',
    T.mark_proposal_as_duplicate ascii_env (py "id-1") 7 true one_pending = (Ok r, w')
    /\ T.resolve_tournament ascii_env (py "Wimbledon") w'
       = (Some (T.record_of 7 (T._ensure_meta (T.root one_pending))), w').
Proof.
  destruct (duplicate_alias_resolves ascii_env (py "id-1") wimbledon_proposal
              (py "Wimbledon") 7 one_pending wimbledon_is_pending)
    as (r & w' & E1 & _ & E3).
  - vm_compute. tauto.
  - vm_compute. reflexivity.
  - now exists r, w'.
Defined.

Lemma set_next_id_then_approve_witness :
  exists a w',
    CLI.cmd_approve_new_tournament ascii_env (py "id-1") (py "G") (py "GB") (py "London")
      (py "Grass") (py "20260101") (CLI.cmd_set_next_id_tournaments 500 one_pending)
    = (Ok a, w')
    /\ T.Tournament_ID a = 500%Z /\ CLI.counter w' = 501%Z.
Proof.
  exact (set_next_id_then_approve ascii_env 500 (py "id-1") wimbledon_proposal one_pending
           (py "G") (py "GB") (py "London") (py "Grass") (py "20260101")
           wimbledon_is_pending).
Defined.

Lemma approval_keeps_ids_distinct_witness :
  exists a w',
    T.approve_proposal_as_new ascii_env (py "id-1") (py "G") (py "GB") (py "London")
      (py "Grass") (py "20260101") one_pending = (Ok a, w')
    /\ List.NoDup (List.map fst (T.data (T.root w'))).
Proof.
  destruct (approval_keeps_ids_distinct ascii_env (py "id-1") wimbledon_proposal
              one_pending (py "G") (py "GB") (py "London") (py "Grass") (py "20260101")
              wimbledon_is_pending)
    as (a & w' & E1 & E2 & _).
  - apply List.NoDup_nil.
  - now exists a, w'.
Defined.

Lemma disposition_leaves_other_proposals_witness :
  py "id-2" <> py "id-1"
  /\ T.find_proposal (py "id-2")
       (T.unmapped (snd (T.mark_proposal_as_duplicate ascii_env (py "id-1") 7 false
                           one_pending)))
     = T.find_proposal (py "id-2") (T.unmapped one_pending).
Proof.
  assert (Hne : py "id-2" <> py "id-1") by (vm_compute; congruence).
  split; [exact Hne|].
  exact (proj2 (disposition_leaves_other_proposals ascii_env (py "id-1") (py "id-2")
                  one_pending [] [] [] [] [] 7 false Hne)).
Defined.

(** ** Seeding, then resolving *)

Section SeedThenResolve.
Variable U : pyenv.

Lemma last_binding_In (k : str) (pairs : list (str * Z)) :
  In k (List.map fst pairs) -> exists v, last_binding k pairs = Some v.
Proof.
  induction pairs as [|[k' v] pairs IH]; [intros []|]. cbn [List.map In fst last_binding].
  intros [->|Hin].
  - destruct (last_binding k pairs); [eauto|]. rewrite str_eqb_refl. eauto.
  - destruct (IH Hin) as [v' ->]. eauto.
Qed.

Lemma upsert_many_binds (k : str) (pairs : list (str * Z)) (m : gmap str Z) :
  In k (List.map fst pairs) -> exists v, alias_kv.upsert_many pairs m !! k = Some v.
Proof.
  intros Hin. rewrite upsert_many_lookup.
  destruct (last_binding_In k pairs Hin) as [v ->]. eauto.
Qed.

Lemma dict_get_set_str (k k' : str) (v : Z) (d : list (str * Z)) :
  dict_get str_eqb k (dict_set str_eqb k' v d)
  = if str_eqb k k' then Some v else dict_get str_eqb k d.
Proof.
  induction d as [|[k0 v0] d IH]; cbn [dict_set dict_get]; [reflexivity|].
  destruct (str_eqb k' k0) eqn:E; cbn [dict_get].
  - apply str_eqb_eq in E. subst k0. now destruct (str_eqb k k').
  - rewrite IH. destruct (str_eqb k k0) eqn:E0; [|reflexivity].
    apply str_eqb_eq in E0. subst k0.
    destruct (str_eqb k k') eqn:E1; [|reflexivity].
    apply str_eqb_eq in E1. subst k'. rewrite str_eqb_refl in E. discriminate.
Qed.

(** Every record whose accentless key is not empty has this key in the
    canonical index. *)
Lemma canonical_index_has (r : T.doc) (tid : Z) (rec : T.tournament) :
  In (tid, rec) (T.data r) ->
  T.nonempty (T._key U (T._strip_accents U (T.canonical_name rec))) = true ->
  exists t, dict_get str_eqb (T._key U (T._strip_accents U (T.canonical_name rec)))
              (T._canonical_index U r) = Some t.
Proof.
  intros Hin Hne. unfold T._canonical_index.
  set (key := T._key U (T._strip_accents U (T.canonical_name rec))) in *.
  set (f := fun (idx : list (str * Z)) (e : Z * T.tournament) =>
              let key := T._key U (T._strip_accents U (T.canonical_name e.2)) in
              if T.nonempty key then dict_set str_eqb key e.1 idx else idx).
  assert (Hkeep : forall recs idx,
             (exists t, dict_get str_eqb key idx = Some t) ->
             exists t, dict_get str_eqb key (fold_left f recs idx) = Some t).
  { induction recs as [|e recs IH]; intros idx Hidx; [assumption|].
    cbn [fold_left]. apply IH. unfold f at 1. cbv zeta.
    destruct (T.nonempty (T._key U (T._strip_accents U (T.canonical_name e.2))));
      [|assumption].
    rewrite dict_get_set_str. destruct (str_eqb key _); [eauto | assumption]. }
  assert (Hgen : forall recs idx, In (tid, rec) recs ->
             exists t, dict_get str_eqb key (fold_left f recs idx) = Some t).
  { induction recs as [|e recs IH]; intros idx; [intros []|].
    intros [->|Hin']; cbn [fold_left]; [|now apply IH].
    apply Hkeep. unfold f. cbv zeta. cbn [fst snd]. fold key. rewrite Hne.
    rewrite dict_get_set_str, str_eqb_refl. eauto. }
  now apply Hgen.
Qed.

(** After [seed-aliases tournaments], the canonical name of every record
    with a non-empty accentless key resolves from the cache: the answer is a
    hit and no index is read. *)
Theorem seeded_tournament_resolves (w : T.world) (tid : Z) (rec : T.tournament) :
  In (tid, rec) (T.data (T.root w)) ->
  T.nonempty (T._key U (T._strip_accents U (T.canonical_name rec))) = true ->
  let w1 := snd (T.seed_aliases_from_canonicals U w) in
  exists h, T.resolve_tournament U (T.canonical_name rec) w1 = (Some h, w1).
Proof.
  intros Hin Hne w1.
  assert (Hdata : T.data (T._ensure_meta (T.root w)) = T.data (T.root w)).
  { unfold T._ensure_meta. now destruct (T.next_id (T.root w)). }
  destruct (canonical_index_has (T._ensure_meta (T.root w)) tid rec) as [t Ht];
    [now rewrite Hdata | assumption |].
  set (k2 := T._key U (T._strip_accents U (T.canonical_name rec))) in *.
  assert (Hk2 : exists v, alias_kv.get_tournament_id k2 (T.kv w1) = Some v).
  { unfold w1, T.seed_aliases_from_canonicals, alias_kv.get_tournament_id.
    cbn [snd T.set_kv T.kv alias_kv.upsert_tournament_aliases alias_kv.tournament_aliases
         T.load_databases fst].
    apply upsert_many_binds. apply in_map_iff. exists (k2, t). split; [reflexivity|].
    unfold T.seed_pairs. apply in_flat_map. exists (k2, t).
    split; [now apply dict_get_In | now left]. }
  destruct Hk2 as [v Hv]. unfold T.resolve_tournament. fold k2.
  destruct (alias_kv.get_tournament_id (T._key U (T.canonical_name rec)) (T.kv w1));
    [eauto|]. rewrite Hv. eauto.
Qed.

(** The name under which the player seeders file a record: the canonical
    name, or first and last name when there is none. *)
Definition seeded_name (rec : P.player) : str :=
  let canon := strip (P.canonical_name rec) in
  if P.nonempty canon then canon
  else strip (strip (P.first_name rec) ++ sp ++ strip (P.last_name rec)).

Lemma base_pairs_key (uid : Z) (canon : str) :
  P.nonempty (P._key U canon) = true ->
  In (P._key U canon) (List.map fst (P.base_pairs U uid canon)).
Proof.
  intros Hne. unfold P.base_pairs. rewrite List.map_map. cbn [fst].
  rewrite List.map_id. apply filter_In. split; [|assumption].
  apply in_map. apply set_iter_In. now left.
Qed.

Lemma variant_pairs_name (uid : Z) (rec : P.player) :
  P.nonempty (seeded_name rec) = true ->
  P.variant_pairs U (uid, rec)
  = P.base_pairs U uid (seeded_name rec)
    ++ List.map (fun k => (k, uid))
         (List.filter P.nonempty
            (List.map (P._key U)
               (P._alias_variants_for U (strip (P.first_name rec)) (strip (P.last_name rec))))).
Proof.
  unfold seeded_name, P.variant_pairs, P.or_. cbv zeta.
  destruct (P.nonempty (strip (P.canonical_name rec))) eqn:Ec.
  - intros _. now rewrite Ec, !orb_true_r.
  - intros Hn. now rewrite Hn, !orb_true_r.
Qed.

(** After either player seeder, a record's name resolves from the cache
    when the name is not empty, the cleaner leaves it unchanged and its key
    is not empty: the answer is a hit and the stores, the count of index
    lookups included, are as they were. *)
Theorem seeded_player_resolves (w : P.world) (uid : Z) (rec : P.player) :
  In (uid, rec) (P.data (P.players w)) ->
  P.nonempty (seeded_name rec) = true ->
  P._clean_display_name U (seeded_name rec) = seeded_name rec ->
  P.nonempty (P._key U (seeded_name rec)) = true ->
  (let w1 := snd (P.seed_aliases_from_canonicals U w) in
   exists h, P.resolve_player U (seeded_name rec) w1 = (Ok (Some h), w1))
  /\ (let w1 := snd (P.seed_all_alias_variants U w) in
      exists h, P.resolve_player U (seeded_name rec) w1 = (Ok (Some h), w1)).
Proof.
  intros Hin Hname Hclean Hkey.
  assert (Hdata : P.data (P._ensure_players_meta (P.players w)) = P.data (P.players w)).
  { unfold P._ensure_players_meta. now destruct (P.next_id (P.players w)). }
  assert (Hdirect : forall pairs,
             In (P._key U (seeded_name rec)) (List.map fst pairs) ->
             let w1 := P.set_kv (alias_kv.upsert_player_aliases pairs (P.kv w)) w in
             exists h, P.resolve_player U (seeded_name rec) w1 = (Ok (Some h), w1)).
  { intros pairs Hp w1.
    destruct (upsert_many_binds _ pairs (alias_kv.player_aliases (P.kv w)) Hp) as [v Hv].
    destruct (resolve_player_direct U (seeded_name rec) w1 v) as (h & Hh & _); [|eauto].
    unfold P._kv_hit. rewrite !Hclean. unfold alias_kv.get_player_id, w1.
    cbn [P.set_kv P.kv alias_kv.upsert_player_aliases alias_kv.player_aliases].
    now rewrite Hv. }
  split.
  - unfold P.seed_aliases_from_canonicals. cbv zeta. cbn [snd P.load_databases fst].
    apply Hdirect. rewrite Hdata, List.flat_map_concat_map, List.concat_map, List.map_map.
    apply in_concat. exists (List.map fst (P.canonical_pairs U (uid, rec))).
    split; [apply in_map_iff; now exists (uid, rec)|].
    unfold P.canonical_pairs. fold (seeded_name rec). rewrite Hname.
    now apply base_pairs_key.
  - unfold P.seed_all_alias_variants. cbv zeta. cbn [snd P.load_databases fst].
    apply Hdirect. rewrite Hdata, List.flat_map_concat_map, List.concat_map, List.map_map.
    apply in_concat. exists (List.map fst (P.variant_pairs U (uid, rec))).
    split; [apply in_map_iff; now exists (uid, rec)|].
    rewrite variant_pairs_name by assumption. rewrite List.map_app.
    apply in_or_app. left. now apply base_pairs_key.
Qed.

End SeedThenResolve.

(** A corpus of one tournament and an empty cache. *)
Definition wimbledon : T.tournament :=
  {| T.canonical_name := py "Wimbledon"; T.level := py "G"; T.country := py "GB";
     T.city := py "London"; T.surface := py "Grass" |}.

Definition one_tournament : T.world :=
  {| T.kv := alias_kv.empty_db;
     T.root := {| T.db_version := py "tournaments-init"; T.next_id := Some 2%Z;
                  T.data := [(1%Z, wimbledon)] |};
     T.unmapped := []; T.index_reads := 0 |}.

Lemma seeded_tournament_resolves_witness :
  exists h,
    T.resolve_tournament ascii_env (py "Wimbledon")
      (snd (T.seed_aliases_from_canonicals ascii_env one_tournament))
    = (Some h, snd (T.seed_aliases_from_canonicals ascii_env one_tournament)).
Proof.
  apply (seeded_tournament_resolves ascii_env one_tournament 1 wimbledon).
  - now left.
  - reflexivity.
Defined.

Lemma seeded_player_resolves_witness :
  exists h,
    P.resolve_player ascii_env (py "Rafael Nadal")
      (snd (P.seed_aliases_from_canonicals ascii_env one_player))
    = (Ok (Some h), snd (P.seed_aliases_from_canonicals ascii_env one_player)).
Proof.
  refine (proj1 (seeded_player_resolves ascii_env one_player 1 nadal _ _ _ _)).
  - now left.
  - reflexivity.
  - vm_compute. reflexivity.
  - reflexivity.
Defined.

Lemma tournament_index_hit_heals_witness :
  T.index_reads (snd (T.resolve_tournament ascii_env (py "WIMBLEDON") one_tournament)) = 1
  /\ T.resolve_tournament ascii_env (py "WIMBLEDON")
       (snd (T.resolve_tournament ascii_env (py "WIMBLEDON") one_tournament))
     = (fst (T.resolve_tournament ascii_env (py "WIMBLEDON") one_tournament),
        snd (T.resolve_tournament ascii_env (py "WIMBLEDON") one_tournament)).
Proof.
  apply (tournament_index_hit_heals ascii_env (py "WIMBLEDON") one_tournament 1);
    vm_compute; reflexivity.
Defined.

(** ** The heal of a candidate hit *)

Section CandidateHeal.
Variable U : pyenv.

Lemma heal_binds_orig (orig cand : str) (uid : Z) (d : alias_kv.db) :
  P.nonempty (P._key U orig) = true ->
  alias_kv.get_player_id (P._key U orig)
    (alias_kv.upsert_player_aliases (P.heal_pairs U orig cand uid) d) = Some uid.
Proof.
  intros Hne. unfold alias_kv.get_player_id, alias_kv.upsert_player_aliases.
  cbn [alias_kv.player_aliases]. apply upsert_many_same.
  - unfold P.heal_pairs. apply List.Forall_forall. intros kv Hin.
    apply in_map_iff in Hin as (k & <- & _). reflexivity.
  - unfold P.heal_pairs. rewrite List.map_map. cbn [fst]. rewrite List.map_id.
    apply filter_In. split; [|assumption]. apply in_map. apply set_iter_In. now left.
Qed.

(** When a generated candidate hits the cache, the heal makes the next call
    direct: for a name that the cleaner leaves unchanged once cleaned, with a
    key that is not empty, the same call again gives the same answer from
    the cache and changes nothing; neither call looks into the index. *)
Theorem candidate_hit_heals
    (raw_name : str) (w : P.world) (cands : list str) (cand : str) (uid : Z) :
  P._clean_display_name U (P._clean_display_name U raw_name)
  = P._clean_display_name U raw_name ->
  P.nonempty (P._key U (P._clean_display_name U raw_name)) = true ->
  P._kv_hit U (P._clean_display_name U raw_name) (P.kv w) = None ->
  emitted U (P._clean_display_name U raw_name) = Some cands ->
  P.kv_probe U cands (P.kv w) = Some (cand, uid) ->
  let w1 := snd (P.resolve_player U raw_name w) in
  (exists h, fst (P.resolve_player U raw_name w) = Ok (Some h) /\ P.Unique_ID h = uid)
  /\ P.ext_lookups w1 = P.ext_lookups w
  /\ P.resolve_player U raw_name w1 = (fst (P.resolve_player U raw_name w), w1).
Proof.
  intros Hclean Hkey Hmiss Hcands Hprobe.
  set (orig := P._clean_display_name U raw_name) in *.
  assert (Hfirst : P.resolve_player U raw_name w
                   = (Ok (Some (P.record_of uid (fst (P.load_databases w)))),
                      P.heal U orig cand uid w)).
  { unfold P.resolve_player. fold orig. rewrite Hmiss. unfold P.probe_candidates.
    unfold emitted in Hcands. destruct (contains 44 orig);
      rewrite Hcands, Hprobe; reflexivity. }
  rewrite Hfirst. cbn [fst snd]. split; [|split].
  - eexists. split; [reflexivity | apply record_of_id].
  - reflexivity.
  - unfold P.resolve_player. fold orig.
    assert (Hhit : P._kv_hit U orig (P.kv (P.heal U orig cand uid w)) = Some uid).
    { unfold P._kv_hit. rewrite Hclean. unfold P.heal. cbn [P.set_kv P.kv].
      now rewrite heal_binds_orig. }
    rewrite Hhit. reflexivity.
Qed.

End CandidateHeal.

(** The cache after [seed-aliases players] on the one-player corpus. *)
Definition seeded_canonicals : P.world :=
  snd (P.seed_aliases_from_canonicals ascii_env one_player).

Lemma candidate_hit_heals_witness :
  let w1 := snd (P.resolve_player ascii_env (py "Nadal, Rafael") seeded_canonicals) in
  P.ext_lookups w1 = 0
  /\ alias_kv.get_player_id (py "nadal, rafael") (P.kv seeded_canonicals) = None
  /\ alias_kv.get_player_id (py "nadal, rafael") (P.kv w1) = Some 1%Z
  /\ P.resolve_player ascii_env (py "Nadal, Rafael") w1
     = (fst (P.resolve_player ascii_env (py "Nadal, Rafael") seeded_canonicals), w1).
Proof.
  destruct (candidate_hit_heals ascii_env (py "Nadal, Rafael") seeded_canonicals
              (List.map py ["Rafael Nadal"; "Rafael Nadal"]%string) (py "Rafael Nadal") 1)
    as (_ & H1 & H2); try (vm_compute; reflexivity).
  split; [exact H1|]. split; [vm_compute; reflexivity|].
  split; [vm_compute; reflexivity | exact H2].
Defined.

(** ** What the resolvers and the registrations leave alone *)

Section Frames.
Variable U : pyenv.

Lemma ext_lookup_frame (name : str) (p : P.doc) (w : P.world) :
  P.players (snd (P._ext_lookup U name p w)) = P.players w
  /\ P.unmapped (snd (P._ext_lookup U name p w)) = P.unmapped w.
Proof.
  unfold P._ext_lookup. destruct (P._EXT_INDEX w); [split; reflexivity|].
  destruct (P._build_ext_index U p); split; reflexivity.
Qed.

Lemma ext_probe_frame (cands : list str) (p : P.doc) (w : P.world) :
  P.players (snd (P.ext_probe U cands p w)) = P.players w
  /\ P.unmapped (snd (P.ext_probe U cands p w)) = P.unmapped w.
Proof.
  revert w. induction cands as [|cand cands IH]; intros w; [split; reflexivity|].
  cbn [P.ext_probe]. pose proof (ext_lookup_frame cand p w) as [Hp Hq].
  destruct (P._ext_lookup U cand p w) as [[[uid|]|e] w']; cbn [snd] in *;
    try (split; assumption).
  destruct (IH w') as [Hp' Hq']. split; congruence.
Qed.

Lemma index_fallback_frame (orig : str) (cands : list str) (w : P.world) :
  P.players (snd (P.index_fallback U orig cands w)) = P.players w
  /\ P.unmapped (snd (P.index_fallback U orig cands w)) = P.unmapped w.
Proof.
  unfold P.index_fallback.
  pose proof (ext_lookup_frame orig (fst (P.load_databases w)) w) as [Hp Hq].
  destruct (P._ext_lookup U orig (fst (P.load_databases w)) w) as [[[uid|]|e] w'];
    cbn [snd] in *; try (split; assumption).
  destruct (ext_probe_frame cands (fst (P.load_databases w)) w') as [Hp' Hq'].
  split; congruence.
Qed.

Lemma last_binding_value (k : str) (pairs : list (str * Z)) (v v' : Z) :
  Forall (fun kv => kv.2 = v) pairs -> last_binding k pairs = Some v' -> v' = v.
Proof.
  induction pairs as [|[k' v0] pairs IH]; [discriminate|].
  intros Hall. apply Forall_cons_1 in Hall as [Hv Hall]. cbn [snd] in Hv. subst v0.
  cbn [last_binding]. destruct (last_binding k pairs) as [v1|].
  - intros [= <-]. now apply IH.
  - destruct (str_eqb k k'); [now intros [= <-] | discriminate].
Qed.

Lemma heal_pairs_uid (orig cand : str) (uid : Z) :
  Forall (fun kv => kv.2 = uid) (P.heal_pairs U orig cand uid).
Proof.
  unfold P.heal_pairs. apply List.Forall_forall. intros kv Hin.
  apply in_map_iff in Hin as (k & <- & _). reflexivity.
Qed.

(** The shape of a call of the player resolver: what the stores are after it. *)
Lemma resolve_player_cases (raw_name : str) (w : P.world) :
  let r := P.resolve_player U raw_name w in
  P.players (snd r) = P.players w
  /\ P.unmapped (snd r) = P.unmapped w
  /\ (P.kv (snd r) = P.kv w
      \/ exists cand h,
          fst r = Ok (Some h)
          /\ P.kv (snd r)
             = alias_kv.upsert_player_aliases
                 (P.heal_pairs U (P._clean_display_name U raw_name) cand (P.Unique_ID h))
                 (P.kv w)).
Proof.
  cbv zeta. unfold P.resolve_player.
  set (orig := P._clean_display_name U raw_name).
  destruct (P._kv_hit U orig (P.kv w)) as [uid|]; [repeat split; now left|].
  assert (Hheal : forall cand uid,
             let r := (Ok (Some (P.record_of uid (fst (P.load_databases (P.heal U orig cand uid w))))),
                       P.heal U orig cand uid w) : result (option P.hit) * P.world in
             P.players (snd r) = P.players w /\ P.unmapped (snd r) = P.unmapped w
             /\ (P.kv (snd r) = P.kv w
                 \/ exists cand h,
                     fst r = Ok (Some h)
                     /\ P.kv (snd r)
                        = alias_kv.upsert_player_aliases
                            (P.heal_pairs U orig cand (P.Unique_ID h)) (P.kv w))).
  { intros cand uid. cbv zeta. cbn [fst snd]. repeat split. right.
    eexists cand, _. split; [reflexivity|]. now rewrite record_of_id. }
  assert (Hfb : forall cands,
             let r := match P.index_fallback U orig cands w with
                      | (Raise e, w'') => (Raise e, w'')
                      | (Ok uid, w'') =>
                          (Ok (option_map
                                 (fun u => P.record_of u (fst (P.load_databases w'')))
                                 uid), w'')
                      end : result (option P.hit) * P.world in
             P.players (snd r) = P.players w /\ P.unmapped (snd r) = P.unmapped w
             /\ (P.kv (snd r) = P.kv w
                 \/ exists cand h,
                     fst r = Ok (Some h)
                     /\ P.kv (snd r)
                        = alias_kv.upsert_player_aliases
                            (P.heal_pairs U orig cand (P.Unique_ID h)) (P.kv w))).
  { intros cands. cbv zeta.
    pose proof (index_fallback_frame orig cands w) as [Hp Hq].
    pose proof (index_fallback_effect U orig cands w) as [Hkv _].
    destruct (P.index_fallback U orig cands w) as [[uid|e] w'']; cbn [snd] in *;
      repeat split; try assumption; now left. }
  unfold P.probe_candidates. destruct (contains 44 orig).
  - destruct (P.comma_candidates U orig) as [cands|]; [|repeat split; now left].
    destruct (P.kv_probe U cands (P.kv w)) as [[cand uid]|]; [apply Hheal | apply Hfb].
  - destruct (P.plain_candidates U orig) as [cands|]; [|repeat split; now left].
    destruct (P.kv_probe U cands (P.kv w)) as [[cand uid]|]; [apply Hheal | apply Hfb].
Qed.

Lemma player_resolver_writes (raw_name : str) (w : P.world) :
  let r := P.resolve_player U raw_name w in
  P.players (snd r) = P.players w
  /\ P.unmapped (snd r) = P.unmapped w
  /\ alias_kv.tournament_aliases (P.kv (snd r)) = alias_kv.tournament_aliases (P.kv w)
  /\ forall k, alias_kv.get_player_id k (P.kv (snd r)) = alias_kv.get_player_id k (P.kv w)
               \/ exists h, fst r = Ok (Some h)
                            /\ alias_kv.get_player_id k (P.kv (snd r)) = Some (P.Unique_ID h).
Proof.
  cbv zeta. destruct (resolve_player_cases raw_name w) as (Hp & Hq & Hkv).
  cbv zeta in Hkv. split; [assumption|]. split; [assumption|].
  destruct Hkv as [Hkv|(cand & h & Hr & Hkv)].
  - rewrite Hkv. split; [reflexivity|]. intros k. now left.
  - rewrite Hkv. split; [reflexivity|]. intros k.
    unfold alias_kv.get_player_id, alias_kv.upsert_player_aliases.
    cbn [alias_kv.player_aliases]. rewrite upsert_many_lookup.
    destruct (last_binding k _) as [v|] eqn:E; [|now left].
    right. exists h. split; [assumption|]. f_equal.
    eapply last_binding_value; [apply heal_pairs_uid | exact E].
Qed.

Lemma tournament_resolver_writes (raw_name : str) (w : T.world) :
  let r := T.resolve_tournament U raw_name w in
  T.root (snd r) = T.root w
  /\ T.unmapped (snd r) = T.unmapped w
  /\ alias_kv.player_aliases (T.kv (snd r)) = alias_kv.player_aliases (T.kv w)
  /\ forall k, alias_kv.get_tournament_id k (T.kv (snd r))
               = alias_kv.get_tournament_id k (T.kv w)
               \/ exists h, fst r = Some h
                            /\ alias_kv.get_tournament_id k (T.kv (snd r))
                               = Some (T.hit_Tournament_ID h).
Proof.
  cbv zeta. unfold T.resolve_tournament.
  destruct (alias_kv.get_tournament_id (T._key U raw_name) (T.kv w));
    [repeat split; now left|].
  destruct (alias_kv.get_tournament_id (T._key U (T._strip_accents U raw_name)) (T.kv w));
    [repeat split; now left|].
  cbv zeta. destruct (dict_get _ _ _) as [tid|]; [|repeat split; now left].
  cbn [fst snd T.set_kv T.root T.unmapped T.kv alias_kv.upsert_tournament_aliases
       alias_kv.player_aliases].
  repeat split. intros k.
  unfold alias_kv.get_tournament_id, alias_kv.upsert_tournament_aliases.
  cbn [alias_kv.tournament_aliases]. rewrite upsert_many_lookup.
  destruct (last_binding k _) as [v|] eqn:E; [|now left].
  right. eexists. split; [reflexivity|]. cbn [T.record_of T.hit_Tournament_ID]. f_equal.
  eapply last_binding_value; [|exact E].
  destruct (T.nonempty (T._key U raw_name)), (T.nonempty _ && _); repeat constructor.
Qed.

(** A resolver writes only its answer. The player resolver
    ([lookup_player_only] of the scraper) never touches the corpus, the
    queue or the tournament table, and a key of the player table that reads
    differently after the call reads as the id the call returned; the same
    holds of the tournament resolver, with the tables exchanged. *)
Theorem resolvers_write_only_their_answer :
  (forall raw_name w,
      let r := P.resolve_player U raw_name w in
      P.players (snd r) = P.players w
      /\ P.unmapped (snd r) = P.unmapped w
      /\ alias_kv.tournament_aliases (P.kv (snd r)) = alias_kv.tournament_aliases (P.kv w)
      /\ forall k, alias_kv.get_player_id k (P.kv (snd r)) = alias_kv.get_player_id k (P.kv w)
                   \/ exists h, fst r = Ok (Some h)
                                /\ alias_kv.get_player_id k (P.kv (snd r))
                                   = Some (P.Unique_ID h))
  /\ (forall raw_name w,
      let r := T.resolve_tournament U raw_name w in
      T.root (snd r) = T.root w
      /\ T.unmapped (snd r) = T.unmapped w
      /\ alias_kv.player_aliases (T.kv (snd r)) = alias_kv.player_aliases (T.kv w)
      /\ forall k, alias_kv.get_tournament_id k (T.kv (snd r))
                   = alias_kv.get_tournament_id k (T.kv w)
                   \/ exists h, fst r = Some h
                                /\ alias_kv.get_tournament_id k (T.kv (snd r))
                                   = Some (T.hit_Tournament_ID h)).
Proof.
  split; intros raw_name w; [apply player_resolver_writes | apply tournament_resolver_writes].
Qed.

End Frames.

(** ** The queue of proposals *)

Section QueueFacts.
Variable U : pyenv.

Definition str_lt (a b : str) : Prop := str_ltb a b = true.

Lemma str_ltb_irrefl (a : str) : str_ltb a a = false.
Proof.
  induction a as [|x a IH]; [reflexivity|].
  cbn [str_ltb]. now rewrite N.ltb_irrefl, N.eqb_refl, IH.
Qed.

Lemma str_ltb_trans (a b c : str) : str_lt a b -> str_lt b c -> str_lt a c.
Proof.
  unfold str_lt. revert b c. induction a as [|x a IH]; intros [|y b] [|z c]; cbn [str_ltb];
    try discriminate; try reflexivity.
  intros H1 H2.
  apply orb_true_iff in H1 as [H1|H1]; apply orb_true_iff in H2 as [H2|H2];
    apply orb_true_iff.
  - apply N.ltb_lt in H1, H2. left. apply N.ltb_lt. lia.
  - apply andb_true_iff in H2 as [H2 _]. apply N.eqb_eq in H2. subst. now left.
  - apply andb_true_iff in H1 as [H1 _]. apply N.eqb_eq in H1. subst. now left.
  - apply andb_true_iff in H1 as [H1 H1']. apply andb_true_iff in H2 as [H2 H2'].
    right. apply N.eqb_eq in H1, H2. subst. rewrite N.eqb_refl. cbn [andb].
    exact (IH b c H1' H2').
Qed.

Lemma str_ltb_total (a b : str) : a <> b -> str_ltb a b = false -> str_lt b a.
Proof.
  unfold str_lt. revert b. induction a as [|x a IH]; intros [|y b]; cbn [str_ltb];
    try discriminate; try reflexivity; [congruence|].
  intros Hne H. apply orb_false_iff in H as [H1 H2]. apply N.ltb_ge in H1.
  destruct (N.eqb_spec y x) as [->|Hxy].
  - rewrite N.eqb_refl in H2. cbn [andb] in *. rewrite N.ltb_irrefl. cbn [orb].
    apply IH; [congruence | exact H2].
  - replace (y <? x)%N with true; [reflexivity|]. symmetry. apply N.ltb_lt. lia.
Qed.

Lemma insert_sorted_sorted (x : str) (l : list str) :
  StronglySorted str_lt l -> StronglySorted str_lt (insert_sorted x l).
Proof.
  induction l as [|y l IH]; intros Hs; cbn [insert_sorted];
    [repeat constructor|].
  apply StronglySorted_inv in Hs as [Hs Hy].
  destruct (str_eqb x y) eqn:E; [now constructor|].
  apply str_eqb_neq in E.
  destruct (str_ltb x y) eqn:L.
  - constructor; [now constructor|]. constructor; [exact L|].
    eapply List.Forall_impl; [|exact Hy]. intros z Hz. now apply (str_ltb_trans x y z).
  - constructor; [now apply IH|]. apply List.Forall_forall. intros z Hz.
    apply insert_sorted_In in Hz as [->|Hz].
    + now apply str_ltb_total.
    + exact (proj1 (List.Forall_forall _ _) Hy z Hz).
Qed.

Lemma sorted_set_sorted (l : list str) : StronglySorted str_lt (sorted_set l).
Proof.
  unfold sorted_set. induction l as [|x l IH]; cbn [fold_right]; [constructor|].
  now apply insert_sorted_sorted.
Qed.

Lemma sorted_NoDup (l : list str) : StronglySorted str_lt l -> List.NoDup l.
Proof.
  induction 1 as [|x l Hs IH Hx]; [constructor|].
  constructor; [|assumption]. intros Hin.
  pose proof (proj1 (List.Forall_forall _ _) Hx x Hin) as Hlt.
  unfold str_lt in Hlt. now rewrite str_ltb_irrefl in Hlt.
Qed.

(** The scan of the queue: when it finds a proposal, the queue keeps its
    length, the updated proposal is in it and is the update of a proposal
    that passed the test. *)
Lemma merge_first_player test upd (ps : list P.proposal) r ps' :
  P.merge_first test upd ps = Some (r, ps') ->
  In r ps' /\ length ps' = length ps
  /\ exists p, In p ps /\ test p = true /\ r = upd p.
Proof.
  revert r ps'. induction ps as [|p ps IH]; intros r ps'; cbn [P.merge_first];
    [discriminate|].
  destruct (test p) eqn:E.
  - intros [= <- <-]. split; [now left|]. split; [reflexivity|].
    exists p. repeat split; [now left | assumption].
  - destruct (P.merge_first test upd ps) as [[r0 ps0]|]; [|discriminate].
    intros [= <- <-]. destruct (IH r0 ps0 eq_refl) as (Hin & Hlen & p0 & Hp0 & Ht & Hr).
    split; [now right|]. split; [cbn [length]; congruence|].
    exists p0. repeat split; [now right | assumption | assumption].
Qed.

Lemma merge_first_tournament test upd (ps : list T.proposal) r ps' :
  T.merge_first test upd ps = Some (r, ps') ->
  In r ps' /\ length ps' = length ps
  /\ exists p, In p ps /\ test p = true /\ r = upd p.
Proof.
  revert r ps'. induction ps as [|p ps IH]; intros r ps'; cbn [T.merge_first];
    [discriminate|].
  destruct (test p) eqn:E.
  - intros [= <- <-]. split; [now left|]. split; [reflexivity|].
    exists p. repeat split; [now left | assumption].
  - destruct (T.merge_first test upd ps) as [[r0 ps0]|]; [|discriminate].
    intros [= <- <-]. destruct (IH r0 ps0 eq_refl) as (Hin & Hlen & p0 & Hp0 & Ht & Hr).
    split; [now right|]. split; [cbn [length]; congruence|].
    exists p0. repeat split; [now right | assumption | assumption].
Qed.

Lemma merge_first_tournament_Forall (Q : T.proposal -> Prop) test upd
      (ps : list T.proposal) r ps' :
  (forall p, Q p -> Q (upd p)) ->
  Forall Q ps -> T.merge_first test upd ps = Some (r, ps') -> Forall Q ps'.
Proof.
  intros Hupd. revert r ps'. induction ps as [|p ps IH]; intros r ps' Hall;
    cbn [T.merge_first]; [discriminate|].
  apply Forall_cons_1 in Hall as [Hp Hall]. destruct (test p).
  - intros [= <- <-]. constructor; [now apply Hupd | assumption].
  - destruct (T.merge_first test upd ps) as [[r0 ps0]|]; [|discriminate].
    intros [= <- <-]. constructor; [assumption|]. now apply (IH r0).
Qed.

Lemma sample_kept (raw_name : str) (samples : list str) :
  In raw_name (if str_in raw_name samples then samples else samples ++ [raw_name]).
Proof.
  destruct (str_in raw_name samples) eqn:E; [now apply str_in_In|].
  apply in_or_app. right. now left.
Qed.

Lemma player_registration_effect (raw_name : str) (ctx : P.context)
        (fresh now : str) (w : P.world) :
  let r := P.register_unmapped_player U raw_name ctx fresh now w in
  P.kv (snd r) = P.kv w
  /\ P.players (snd r) = P.players w
  /\ P._EXT_INDEX (snd r) = P._EXT_INDEX w
  /\ In (fst r) (P.unmapped (snd r))
  /\ In raw_name (P.raw_samples (fst r))
  /\ (length (P.unmapped (snd r)) = length (P.unmapped w)
      \/ P.unmapped (snd r) = P.unmapped w ++ [fst r]).
Proof.
  cbv zeta. unfold P.register_unmapped_player. cbv zeta.
  destruct (P.merge_first _ _ (P.unmapped w)) as [[r q]|] eqn:E;
    cbn [fst snd P.set_unmapped P.kv P.players P._EXT_INDEX P.unmapped P.raw_samples].
  - apply merge_first_player in E as (Hin & Hlen & p & _ & _ & ->).
    repeat split; [assumption | | now left].
    cbn [P.merge_sighting P.raw_samples]. apply sample_kept.
  - repeat split; [apply in_or_app; right; now left | now left | now right].
Qed.

Lemma tournament_registration_effect (raw_name : str) (ctx : T.context)
        (fresh now : str) (w : T.world) :
  let r := T.register_unmapped_tournament U raw_name ctx fresh now w in
  T.kv (snd r) = T.kv w
  /\ T.root (snd r) = T.root w
  /\ In (fst r) (T.unmapped (snd r))
  /\ In raw_name (T.raw_samples (fst r))
  /\ (length (T.unmapped (snd r)) = length (T.unmapped w)
      \/ T.unmapped (snd r) = T.unmapped w ++ [fst r]).
Proof.
  cbv zeta. unfold T.register_unmapped_tournament. cbv zeta.
  destruct (T.merge_first _ _ (T.unmapped w)) as [[r q]|] eqn:E;
    cbn [fst snd T.set_unmapped T.kv T.root T.unmapped T.raw_samples].
  - apply merge_first_tournament in E as (Hin & Hlen & p & _ & _ & ->).
    repeat split; [assumption | | now left].
    cbn [T.merge_sighting T.raw_samples]. apply sample_kept.
  - repeat split; [apply in_or_app; right; now left | now left | now right].
Qed.

(** Registering a name touches nothing but the queue: the cache, the
    corpus and the index are as before. The proposal returned is in the
    queue and lists the raw name among its samples, and the queue either
    keeps its length (the sighting was merged) or grows by the returned
    proposal at its end. This holds of players and of tournaments. *)
Theorem registrations_only_queue (raw_name fresh now : str) :
  (forall ctx w,
      let r := P.register_unmapped_player U raw_name ctx fresh now w in
      P.kv (snd r) = P.kv w
      /\ P.players (snd r) = P.players w
      /\ P._EXT_INDEX (snd r) = P._EXT_INDEX w
      /\ In (fst r) (P.unmapped (snd r))
      /\ In raw_name (P.raw_samples (fst r))
      /\ (length (P.unmapped (snd r)) = length (P.unmapped w)
          \/ P.unmapped (snd r) = P.unmapped w ++ [fst r]))
  /\ (forall ctx w,
      let r := T.register_unmapped_tournament U raw_name ctx fresh now w in
      T.kv (snd r) = T.kv w
      /\ T.root (snd r) = T.root w
      /\ In (fst r) (T.unmapped (snd r))
      /\ In raw_name (T.raw_samples (fst r))
      /\ (length (T.unmapped (snd r)) = length (T.unmapped w)
          \/ T.unmapped (snd r) = T.unmapped w ++ [fst r])).
Proof.
  split; intros ctx w;
    [apply player_registration_effect | apply tournament_registration_effect].
Qed.

(** The alias list of the proposal a registration returns is strictly
    increasing in the order of code points, hence free of duplicates,
    whatever the alias list of the proposal it was merged into. *)
Theorem registered_aliases_are_sorted (raw_name fresh now : str) :
  (forall ctx w,
      let p := fst (P.register_unmapped_player U raw_name ctx fresh now w) in
      StronglySorted str_lt (P.aliases p) /\ List.NoDup (P.aliases p))
  /\ (forall ctx w,
      let p := fst (T.register_unmapped_tournament U raw_name ctx fresh now w) in
      StronglySorted str_lt (T.aliases p) /\ List.NoDup (T.aliases p)).
Proof.
  split; intros ctx w; cbv zeta.
  - assert (Hs : StronglySorted str_lt
                   (P.aliases (fst (P.register_unmapped_player U raw_name ctx fresh now w)))).
    { unfold P.register_unmapped_player. cbv zeta.
      destruct (P.merge_first _ _ (P.unmapped w)) as [[r q]|] eqn:E; cbn [fst].
      - apply merge_first_player in E as (_ & _ & p & _ & _ & ->).
        cbn [P.merge_sighting P.aliases]. apply sorted_set_sorted.
      - cbn [P.aliases]. unfold P._alias_variants_for. cbv zeta.
        destruct (negb _); [constructor | apply sorted_set_sorted]. }
    split; [exact Hs | now apply sorted_NoDup].
  - assert (Hs : StronglySorted str_lt
                   (T.aliases (fst (T.register_unmapped_tournament U raw_name ctx fresh now w)))).
    { unfold T.register_unmapped_tournament. cbv zeta.
      destruct (T.merge_first _ _ (T.unmapped w)) as [[r q]|] eqn:E; cbn [fst].
      - apply merge_first_tournament in E as (_ & _ & p & _ & _ & ->).
        cbn [T.merge_sighting T.aliases]. apply sorted_set_sorted.
      - cbn [T.aliases]. apply sorted_set_sorted. }
    split; [exact Hs | now apply sorted_NoDup].
Qed.

(** A proposal counts its sightings: its samples are distinct, there is at
    least one, and there are no more samples than sightings. *)
Definition well_counted (samples : list str) (sightings : Z) : Prop :=
  List.NoDup samples /\ samples <> [] /\ (Z.of_nat (length samples) <= sightings)%Z.

Lemma sighting_counted (raw_name : str) (samples : list str) (n : Z) :
  well_counted samples n ->
  well_counted (if str_in raw_name samples then samples else samples ++ [raw_name])
               (n + 1).
Proof.
  intros (Hnd & Hne & Hlen). destruct (str_in raw_name samples) eqn:E.
  - repeat split; [assumption | assumption | lia].
  - assert (Hnot : ~ In raw_name samples).
    { intros Hin. apply str_in_In in Hin. congruence. }
    repeat split.
    + clear Hne Hlen E. induction samples as [|s samples IH].
      * cbn [app]. constructor; [intros []|constructor].
      * apply List.NoDup_cons_iff in Hnd as [Hs Hnd]. cbn [app].
        apply List.NoDup_cons_iff. split.
        -- intros Hin. apply in_app_or in Hin as [Hin|[<-|[]]]; [now apply Hs|].
           apply Hnot. now left.
        -- apply IH; [assumption|]. intros Hin. apply Hnot. now right.
    + destruct samples; discriminate.
    + rewrite length_app. cbn [length]. lia.
Qed.

Definition T_register_all (rs : list (str * T.context * str * str)) (w : T.world) : T.world :=
  fold_left (fun w r =>
               match r with
               | (raw, ctx, fresh, now) =>
                   snd (T.register_unmapped_tournament U raw ctx fresh now w)
               end)
            rs w.

Lemma player_queue_counted (rs : list registration) (w : P.world) :
  Forall (fun p => well_counted (P.raw_samples p) (P.sightings p)) (P.unmapped w) ->
  Forall (fun p => well_counted (P.raw_samples p) (P.sightings p))
         (P.unmapped (register_all U rs w)).
Proof.
  revert w. unfold register_all.
  induction rs as [|r rs IH]; intros w Hall; [assumption|].
  cbn [fold_left]. apply IH. unfold P.register_unmapped_player. cbv zeta.
  destruct (P.merge_first _ _ (P.unmapped w)) as [[p q]|] eqn:E;
    cbn [snd P.set_unmapped P.unmapped].
  - eapply merge_first_Forall; [|exact Hall | exact E].
    intros p0 Hp0. cbn [P.merge_sighting P.raw_samples P.sightings].
    now apply sighting_counted.
  - apply Forall_app. split; [assumption|]. constructor; [|constructor].
    cbn [P.raw_samples P.sightings]. repeat split.
    + constructor; [intros []|constructor].
    + discriminate.
    + cbn [length]. lia.
Qed.

Lemma tournament_queue_counted
        (rs : list (str * T.context * str * str)) (w : T.world) :
  Forall (fun p => well_counted (T.raw_samples p) (T.sightings p)) (T.unmapped w) ->
  Forall (fun p => well_counted (T.raw_samples p) (T.sightings p))
         (T.unmapped (T_register_all rs w)).
Proof.
  revert w. unfold T_register_all.
  induction rs as [|[[[raw ctx] fresh] now] rs IH]; intros w Hall; [assumption|].
  cbn [fold_left]. apply IH. unfold T.register_unmapped_tournament. cbv zeta.
  destruct (T.merge_first _ _ (T.unmapped w)) as [[p q]|] eqn:E;
    cbn [snd T.set_unmapped T.unmapped].
  - eapply merge_first_tournament_Forall; [|exact Hall | exact E].
    intros p0 Hp0. cbn [T.merge_sighting T.raw_samples T.sightings].
    now apply sighting_counted.
  - apply Forall_app. split; [assumption|]. constructor; [|constructor].
    cbn [T.raw_samples T.sightings]. repeat split.
    + constructor; [intros []|constructor].
    + discriminate.
    + cbn [length]. lia.
Qed.

(** Registrations keep the queues well counted: when every proposal of the
    two queues has distinct samples, at least one, and no more samples than
    sightings, this is so after any sequence of registrations. *)
Theorem queues_stay_well_counted (rs : list registration) (w : P.world)
        (rst : list (str * T.context * str * str)) (wt : T.world) :
  Forall (fun p => well_counted (P.raw_samples p) (P.sightings p)) (P.unmapped w) ->
  Forall (fun p => well_counted (T.raw_samples p) (T.sightings p)) (T.unmapped wt) ->
  Forall (fun p => well_counted (P.raw_samples p) (P.sightings p))
         (P.unmapped (register_all U rs w))
  /\ Forall (fun p => well_counted (T.raw_samples p) (T.sightings p))
            (T.unmapped (T_register_all rst wt)).
Proof.
  intros Hp Ht. split; [now apply player_queue_counted | now apply tournament_queue_counted].
Qed.

End QueueFacts.

(** A queue with one pending player. *)
Definition pending_player : P.world :=
  snd (P.register_unmapped_player ascii_env (py "R. Nadal") no_context
         (py "id-1") (py "t1") one_player).

Lemma queues_stay_well_counted_witness :
  Forall (fun p => well_counted (P.raw_samples p) (P.sightings p))
         (P.unmapped
            (register_all ascii_env
               [ {| reg_raw := py "r nadal"; reg_context := no_context;
                    reg_fresh := py "id-2"; reg_now := py "t2" |};
                 {| reg_raw := py "Roger Federer"; reg_context := no_context;
                    reg_fresh := py "id-3"; reg_now := py "t3" |} ]
               pending_player))
  /\ Forall (fun p => well_counted (T.raw_samples p) (T.sightings p))
            (T.unmapped
               (T_register_all ascii_env
                  [ (py "wimbledon", no_context_t, py "id-2", py "t2");
                    (py "Roland Garros", no_context_t, py "id-3", py "t3") ]
                  one_pending)).
Proof.
  apply queues_stay_well_counted.
  - set (q := P.unmapped pending_player). vm_compute in q. subst q.
    constructor; [|constructor]. cbn [P.raw_samples P.sightings].
    split; [constructor; [intros []|constructor]|]. split; [discriminate|].
    cbn [length]. lia.
  - set (q := T.unmapped one_pending). vm_compute in q. subst q.
    constructor; [|constructor]. cbn [T.raw_samples T.sightings].
    split; [constructor; [intros []|constructor]|]. split; [discriminate|].
    cbn [length]. lia.
Defined.

(** ** The extended index of players *)

Section Splitting.
Variable U : pyenv.

Lemma split_ws_solid (s : str) : solid s -> split_ws s <> [].
Proof.
  intros (c & Hc & Hws) E.
  destruct (fields_covers isspace s c Hc Hws) as (tok & Htok & _).
  unfold split_ws in E. rewrite E in Htok. destruct Htok.
Qed.

Lemma stripped_solid (x : str) : strip x <> [] -> solid (strip x).
Proof.
  intros Hne. destruct (strip x) as [|c t] eqn:E; [congruence|].
  exists c. split; [now left|]. exact (strip_by_head isspace x c t E).
Qed.

Lemma first_cores_total (given : str) :
  given = [] \/ solid given -> exists fc, P._first_cores_from_given U given = Some fc.
Proof.
  unfold P._first_cores_from_given. intros [->|Hs]; [now eexists|].
  destruct given as [|g given]; [now eexists|].
  apply split_ws_solid in Hs. destruct (split_ws (g :: given)); [congruence|].
  now eexists.
Qed.

End Splitting.

Section IndexKeys.
Variable U : pyenv.

(** A record whose [canonical_name] is not empty but blank, and which has
    exactly one of first and last name. *)
Definition blank_named (rec : P.player) : bool :=
  P.nonempty (P.canonical_name rec)
  && negb (P.nonempty (strip (P.canonical_name rec)))
  && xorb (P.nonempty (strip (P.first_name rec))) (P.nonempty (strip (P.last_name rec))).

Lemma nonempty_true (s : str) : P.nonempty s = true <-> s <> [].
Proof. destruct s; cbn [P.nonempty]; split; congruence. Qed.

Lemma head_split_ws (s : str) : solid s -> exists t, head (split_ws s) = Some t.
Proof.
  intros Hs. apply split_ws_solid in Hs. destruct (split_ws s); [congruence|]. now eexists.
Qed.

Lemma final_split_ws (s : str) : solid s -> exists t, P.final (split_ws s) = Some t.
Proof.
  intros Hs. apply split_ws_solid in Hs. unfold P.final.
  destruct (last (split_ws s)) eqn:E; [now eexists|].
  apply last_None in E. congruence.
Qed.

Lemma full_name_solid (f l : str) : solid f \/ solid l -> strip (f ++ sp ++ l) <> [].
Proof.
  intros H E.
  assert (Hc : exists c, In c (f ++ sp ++ l) /\ isspace c = false).
  { destruct H as [(c & Hc & Hws)|(c & Hc & Hws)]; exists c; split; try assumption;
      apply in_or_app; [now left | right; now right]. }
  destruct Hc as (c & Hc & Hws).
  pose proof (strip_by_keeps isspace c _ Hc Hws) as Hin.
  unfold strip in E. rewrite E in Hin. destruct Hin.
Qed.

Lemma ext_keys_fails_iff (rec : P.player) :
  P.ext_keys U rec = None <-> blank_named rec = true.
Proof.
  unfold P.ext_keys, blank_named. cbv zeta.
  set (f := strip (P.first_name rec)). set (l := strip (P.last_name rec)).
  set (cn := P.canonical_name rec).
  assert (Hf : f <> [] -> solid f) by apply stripped_solid.
  assert (Hl : l <> [] -> solid l) by apply stripped_solid.
  assert (Hc : strip (P.or_ cn (f ++ sp ++ l)) <> [] -> solid (strip (P.or_ cn (f ++ sp ++ l))))
    by apply stripped_solid.
  assert (Hcanon : f <> [] \/ l <> [] ->
                   (strip (P.or_ cn (f ++ sp ++ l)) = []
                    <-> P.nonempty cn && negb (P.nonempty (strip cn)) = true)).
  { intros Hfl. unfold P.or_. destruct cn as [|c0 cn'] eqn:Ecn; cbn [P.nonempty andb].
    - split; [|discriminate]. intros E. exfalso. revert E. apply full_name_solid.
      destruct Hfl as [H|H]; [left; now apply Hf | right; now apply Hl].
    - destruct (strip (c0 :: cn')); cbn [P.nonempty negb]; split; congruence. }
  generalize dependent (strip (P.or_ cn (f ++ sp ++ l))). intros canon Hc Hcanon.
  destruct f as [|f0 f'] eqn:Ef; destruct l as [|l0 l'] eqn:El;
    cbn [P.nonempty orb negb xorb].
  - rewrite andb_false_r. destruct canon as [|c canon'] eqn:Ec; cbn [P.nonempty negb];
      [split; discriminate|].
    unfold P.or_. cbn [P.nonempty].
    destruct (first_cores_total U (c :: canon')) as (fc & ->); [right; now apply Hc|].
    destruct (final_split_ws (c :: canon')) as (t & ->); [now apply Hc|].
    cbn. split; discriminate.
  - rewrite andb_true_r. rewrite <- Hcanon by (now right).
    unfold P.or_. cbn [P.nonempty].
    destruct canon as [|c canon'] eqn:Ec.
    + cbn. split; reflexivity.
    + destruct (first_cores_total U (c :: canon')) as (fc & ->); [right; now apply Hc|].
      destruct (head_split_ws (c :: canon')) as (t & ->); [now apply Hc|].
      cbn. split; discriminate.
  - rewrite andb_true_r. rewrite <- Hcanon by (now left).
    unfold P.or_. cbn [P.nonempty].
    destruct (first_cores_total U (f0 :: f')) as (fc & ->); [right; now apply Hf|].
    destruct (head_split_ws (f0 :: f')) as (t & ->); [now apply Hf|].
    destruct canon as [|c canon'] eqn:Ec.
    + cbn. split; reflexivity.
    + cbn [P.nonempty]. destruct (final_split_ws (c :: canon')) as (t' & ->); [now apply Hc|].
      cbn. split; discriminate.
  - rewrite andb_false_r.
    unfold P.or_. cbn [P.nonempty].
    destruct (first_cores_total U (f0 :: f')) as (fc & ->); [right; now apply Hf|].
    destruct (head_split_ws (f0 :: f')) as (t & ->); [now apply Hf|].
    cbn. split; discriminate.
Qed.

End IndexKeys.

Section IndexLookup.
Variable U : pyenv.

Lemma build_fails_iff (p : P.doc) :
  P._build_ext_index U p = None
  <-> existsb (fun e => blank_named e.2) (P.data p) = true.
Proof.
  unfold P._build_ext_index. generalize (∅ : gmap str Z).
  induction (P.data p) as [|[uid rec] recs IH]; intros idx; cbn [P.build_from existsb snd].
  - split; discriminate.
  - destruct (P.ext_keys U rec) as [keys|] eqn:E; cbn [mbind option_bind].
    + assert (Hb : blank_named rec = false).
      { destruct (blank_named rec) eqn:B; [|reflexivity].
        apply (proj2 (ext_keys_fails_iff U rec)) in B. congruence. }
      rewrite Hb. cbn [orb]. apply IH.
    + apply (proj1 (ext_keys_fails_iff U rec)) in E. rewrite E. cbn [orb]. split; reflexivity.
Qed.

(** Whether a record contributes the key [k] to the index. *)
Definition derives (rec : P.player) (k : str) : bool :=
  match P.ext_keys U rec with
  | Some keys => P.nonempty k && str_in k (List.map (P.norm U) keys)
  | None => false
  end.

Lemma ext_add_lookup (uid : Z) (keys : list str) (idx : gmap str Z) (k : str) :
  P.ext_add U uid keys idx !! k
  = match idx !! k with
    | Some v => Some v
    | None => if P.nonempty k && str_in k (List.map (P.norm U) keys)
              then Some uid else None
    end.
Proof.
  revert idx. induction keys as [|n keys IH]; intros idx.
  - cbn [P.ext_add fold_left List.map str_in existsb]. rewrite andb_false_r.
    now destruct (idx !! k).
  - unfold P.ext_add. cbn [fold_left]. cbv zeta.
    change (fold_left _ keys ?i) with (P.ext_add U uid keys i). rewrite IH.
    cbn [List.map]. unfold str_in at 2. cbn [existsb]. fold (str_in k (List.map (P.norm U) keys)).
    destruct (str_eqb k (P.norm U n)) eqn:E.
    + apply str_eqb_eq in E. subst k. cbn [orb].
      destruct (P.nonempty (P.norm U n)); cbn [andb].
      * destruct (idx !! P.norm U n) eqn:L; [now rewrite L|].
        now rewrite lookup_insert_eq.
      * now destruct (idx !! P.norm U n).
    + apply str_eqb_neq in E. cbn [orb].
      destruct (P.nonempty (P.norm U n)); [|reflexivity].
      destruct (idx !! P.norm U n); [reflexivity|].
      rewrite lookup_insert_ne by congruence. reflexivity.
Qed.

Lemma build_from_lookup (recs : list (Z * P.player)) (idx0 idx : gmap str Z) (k : str) :
  P.build_from U recs idx0 = Some idx ->
  idx !! k = match idx0 !! k with
             | Some v => Some v
             | None => option_map fst (List.find (fun e => derives e.2 k) recs)
             end.
Proof.
  revert idx0. induction recs as [|[uid rec] recs IH]; intros idx0; cbn [P.build_from].
  - intros [= ->]. now destruct (idx !! k).
  - cbn [List.find snd]. unfold derives at 1.
    destruct (P.ext_keys U rec) as [keys|] eqn:E; cbn [mbind option_bind]; [|discriminate].
    intros H. rewrite (IH _ H), ext_add_lookup.
    destruct (idx0 !! k); [reflexivity|].
    destruct (P.nonempty k && str_in k (List.map (P.norm U) keys)); reflexivity.
Qed.

Lemma index_lookup (p : P.doc) (idx : gmap str Z) :
  P._build_ext_index U p = Some idx ->
  forall k, idx !! k = option_map fst (List.find (fun e => derives e.2 k) (P.data p)).
Proof.
  unfold P._build_ext_index. intros H k. rewrite (build_from_lookup _ _ _ k H).
  now rewrite lookup_empty.
Qed.

(** The extended index is built, without an [IndexError], exactly when no
    record of the corpus has a blank canonical name beside exactly one of
    first and last name. *)
Theorem ext_index_build_fails_iff (p : P.doc) :
  P._build_ext_index U p = None
  <-> existsb (fun e => blank_named e.2) (P.data p) = true.
Proof. apply build_fails_iff. Qed.

(** The index maps a key to the id of the first record of the corpus that
    derives it, and holds no other key: of two players with the same derived
    key the one listed first answers. *)
Theorem ext_index_first_record_wins (p : P.doc) (idx : gmap str Z) :
  P._build_ext_index U p = Some idx ->
  forall k, idx !! k = option_map fst (List.find (fun e => derives e.2 k) (P.data p)).
Proof. apply index_lookup. Qed.

(** The canonical name of every record is a key of the index. *)
Theorem canonical_name_is_indexed (p : P.doc) (idx : gmap str Z) (uid : Z) (rec : P.player) :
  P._build_ext_index U p = Some idx ->
  In (uid, rec) (P.data p) ->
  let canon := strip (P.or_ (P.canonical_name rec)
                        (strip (P.first_name rec) ++ sp ++ strip (P.last_name rec))) in
  P.nonempty canon = true ->
  P.nonempty (P.norm U canon) = true ->
  exists u rec', idx !! P.norm U canon = Some u /\ In (u, rec') (P.data p)
                 /\ derives rec' (P.norm U canon) = true.
Proof.
  intros H Hin canon Hc Hne. rewrite (index_lookup p idx H).
  assert (Hd : derives rec (P.norm U canon) = true).
  { unfold derives. destruct (P.ext_keys U rec) as [keys|] eqn:E.
    - rewrite Hne. cbn [andb]. apply str_in_In, in_map.
      revert E. unfold P.ext_keys. cbv zeta. fold canon. rewrite Hc, !orb_true_r.
      cbn [negb].
      destruct (P._first_cores_from_given U _) as [fc|]; cbn [mbind option_bind];
        [|discriminate].
      destruct (if P.nonempty (strip (P.last_name rec)) then _ else _) as [sn|];
        cbn [mbind option_bind]; [|discriminate].
      destruct (if P.nonempty (strip (P.first_name rec)) || _ then _ else _) as [base|];
        cbn [mbind option_bind]; [|discriminate].
      intros [= <-]. apply set_iter_In. now left.
    - exfalso. assert (Hb : blank_named rec = true) by exact (proj1 (ext_keys_fails_iff U rec) E).
      assert (Hx : existsb (fun e => blank_named e.2) (P.data p) = true).
      { apply existsb_exists. now exists (uid, rec). }
      apply (proj2 (build_fails_iff p)) in Hx. congruence. }
  destruct (List.find _ (P.data p)) as [[u rec']|] eqn:F.
  - apply find_some in F as [F1 F2]. exists u, rec'. repeat split; assumption.
  - exfalso. apply (find_none _ _ F (uid, rec)) in Hin. cbn [snd] in Hin. congruence.
Qed.

End IndexLookup.

Section NeverRaises.
Variable U : pyenv.

Lemma removelast_In {A} (l : list A) (x : A) : In x (removelast l) -> In x l.
Proof.
  induction l as [|a l IH]; [intros []|]. cbn [removelast].
  destruct l as [|b l]; [intros []|]. intros [<-|H]; [now left | right; now apply IH].
Qed.

Lemma comma_candidates_total (orig : str) :
  exists cands, P.comma_candidates U orig = Some cands.
Proof.
  unfold P.comma_candidates. destruct (split1 44 orig) as [p0 [p1|]]; [|now eexists].
  cbv zeta. destruct (first_cores_total U (strip p1)) as (fc & ->); [|now eexists].
  destruct (strip p1) eqn:E; [now left|]. right. rewrite <- E.
  apply stripped_solid. congruence.
Qed.

Lemma plain_candidates_total (orig : str) :
  exists cands, P.plain_candidates U orig = Some cands.
Proof.
  unfold P.plain_candidates. cbv zeta.
  destruct (3 <=? length (split_ws orig))%nat eqn:L; [|now eexists].
  destruct (first_cores_total U (join sp (removelast (split_ws orig)))) as (fc & ->);
    [|now eexists].
  right. apply join_solid.
  - destruct (split_ws orig) as [|a [|b t]]; cbn [removelast]; try discriminate.
  - intros t Ht. apply removelast_In in Ht. now apply (fields_solid orig).
Qed.

Lemma ext_lookup_ok (name : str) (p : P.doc) (w : P.world) :
  P._EXT_INDEX w <> None \/ P._build_ext_index U p <> None ->
  exists r w', P._ext_lookup U name p w = (Ok r, w') /\ P._EXT_INDEX w' <> None.
Proof.
  unfold P._ext_lookup. intros H. destruct (P._EXT_INDEX w) as [idx|].
  - eexists _, _. split; [reflexivity|]. cbn [P._EXT_INDEX]. discriminate.
  - destruct (P._build_ext_index U p) as [idx|]; [|destruct H; congruence].
    eexists _, _. split; [reflexivity|]. cbn [P._EXT_INDEX]. discriminate.
Qed.

Lemma ext_probe_ok (cands : list str) (p : P.doc) (w : P.world) :
  P._EXT_INDEX w <> None -> exists r w', P.ext_probe U cands p w = (Ok r, w').
Proof.
  revert w. induction cands as [|cand cands IH]; intros w Hidx; cbn [P.ext_probe];
    [now eexists _, _|].
  destruct (ext_lookup_ok cand p w (or_introl Hidx)) as (r & w' & -> & Hidx').
  destruct r as [uid|]; [now eexists _, _|]. now apply IH.
Qed.

Lemma index_fallback_ok (orig : str) (cands : list str) (w : P.world) :
  P._EXT_INDEX w <> None \/ P._build_ext_index U (fst (P.load_databases w)) <> None ->
  exists r w', P.index_fallback U orig cands w = (Ok r, w').
Proof.
  intros H. unfold P.index_fallback. cbv zeta.
  destruct (ext_lookup_ok orig (fst (P.load_databases w)) w H) as (r & w' & -> & Hidx').
  destruct r as [uid|]; [now eexists _, _|]. now apply ext_probe_ok.
Qed.

(** The player resolver returns, a hit or a miss, without an exception
    whenever the extended index is already built or no record of the corpus
    is blank-named: the [IndexError] of [_build_ext_index] is the only
    exception its own code can raise. *)
Theorem resolve_player_returns (raw_name : str) (w : P.world) :
  P._EXT_INDEX w <> None
  \/ existsb (fun e => blank_named e.2) (P.data (P.players w)) = false ->
  exists r w', P.resolve_player U raw_name w = (Ok r, w').
Proof.
  intros H.
  assert (H' : P._EXT_INDEX w <> None
               \/ P._build_ext_index U (fst (P.load_databases w)) <> None).
  { destruct H as [H|H]; [now left|]. right. intros E.
    apply (proj1 (build_fails_iff U _)) in E.
    cbn [P.load_databases fst] in E. unfold P._ensure_players_meta in E.
    destruct (P.next_id (P.players w)); cbn [P.data] in E; congruence. }
  unfold P.resolve_player. cbv zeta.
  destruct (P._kv_hit U _ (P.kv w)); [now eexists _, _|].
  unfold P.probe_candidates. destruct (contains 44 _).
  - destruct (comma_candidates_total (P._clean_display_name U raw_name)) as (cs & ->).
    destruct (P.kv_probe U cs (P.kv w)) as [[cand uid]|]; [now eexists _, _|].
    destruct (index_fallback_ok (P._clean_display_name U raw_name) cs w H') as (r & w' & ->).
    now eexists _, _.
  - destruct (plain_candidates_total (P._clean_display_name U raw_name)) as (cs & ->).
    destruct (P.kv_probe U cs (P.kv w)) as [[cand uid]|]; [now eexists _, _|].
    destruct (index_fallback_ok (P._clean_display_name U raw_name) [] w H') as (r & w' & ->).
    now eexists _, _.
Qed.

End NeverRaises.

Definition index_of (U : pyenv) (w : P.world) : gmap str Z :=
  match P._build_ext_index U (P.players w) with Some idx => idx | None => ∅ end.

Lemma ext_index_first_record_wins_witness :
  index_of acute_env two_joses !! py "jose lopez"
  = option_map fst (List.find (fun e => derives acute_env e.2 (py "jose lopez"))
                      (P.data (P.players two_joses))).
Proof.
  apply (ext_index_first_record_wins acute_env (P.players two_joses)).
  vm_compute. reflexivity.
Defined.

Lemma canonical_name_is_indexed_witness :
  exists u rec',
    index_of ascii_env one_player !! P.norm ascii_env (py "Rafael Nadal") = Some u
    /\ In (u, rec') (P.data (P.players one_player))
    /\ derives ascii_env rec' (P.norm ascii_env (py "Rafael Nadal")) = true.
Proof.
  apply (canonical_name_is_indexed ascii_env (P.players one_player)
           (index_of ascii_env one_player) 1%Z nadal).
  - vm_compute. reflexivity.
  - now left.
  - vm_compute. reflexivity.
  - vm_compute. reflexivity.
Defined.

Lemma resolve_player_returns_witness :
  exists r w', P.resolve_player ascii_env (py "Nadal, Rafael") one_player = (Ok r, w').
Proof.
  apply resolve_player_returns. right. vm_compute. reflexivity.
Defined.

(** ** The alias variants of a name *)

Section Variants.
Variable U : pyenv.

Lemma squeeze_keeps (s : str) (c : N) (drop : bool) :
  In c s -> isspace c = false -> In c (squeeze drop s).
Proof.
  intros Hin Hc. revert drop. induction s as [|d s IH]; intros drop; [destruct Hin|].
  cbn [squeeze]. destruct Hin as [->|Hin].
  - rewrite Hc. cbn [andb]. destruct drop; now left.
  - destruct drop.
    + destruct (isspace d); [now apply IH | right; now apply IH].
    + destruct (isspace d && _); right; now apply IH.
Qed.

Lemma squash_squeeze (v : str) : P.squash U v = strip (squeeze false v).
Proof.
  unfold P.squash, re_sub_space. now destruct (sub_squeeze U v None) as [-> _].
Qed.

(** The alias variants of a name are normalized: none is empty, none
    begins or ends with whitespace, none has two whitespace characters in a
    row. *)
Theorem alias_variants_are_normalized (first last : str) :
  Forall (fun a => a <> [] /\ strip a = a /\ single_spaced a)
         (P._alias_variants_for U first last).
Proof.
  apply List.Forall_forall. intros a Ha.
  unfold P._alias_variants_for in Ha. cbv zeta in Ha.
  destruct (negb _); [destruct Ha|].
  apply sorted_set_In, in_map_iff in Ha as (v & <- & Hv).
  apply filter_In in Hv as [_ Hv]. apply andb_true_iff in Hv as [_ Hv].
  rewrite squash_squeeze. repeat split.
  - destruct (strip v) as [|c t] eqn:E; [discriminate|].
    assert (Hc : isspace c = false) by exact (strip_by_head isspace v c t E).
    assert (Hin : In c v).
    { apply (strip_by_incl isspace). unfold strip in E. rewrite E. now left. }
    intros E'.
    pose proof (strip_by_keeps isspace c _ (squeeze_keeps v c false Hin Hc) Hc) as Hk.
    unfold strip in E'. rewrite E' in Hk. destruct Hk.
  - apply strip_by_idem.
  - destruct (strip_by_middle isspace (squeeze false v)) as (pre & post & E).
    apply (single_spaced_middle pre _ post). unfold strip. rewrite <- E.
    apply squeeze_single_spaced.
Qed.

End Variants.

(** ** Seeding twice *)

Section SeedTwice.
Variable U : pyenv.

Lemma upsert_many_idem (pairs : list (str * Z)) (m : gmap str Z) :
  alias_kv.upsert_many pairs (alias_kv.upsert_many pairs m) = alias_kv.upsert_many pairs m.
Proof.
  apply map_eq. intros k. rewrite !upsert_many_lookup. now destruct (last_binding k pairs).
Qed.

Lemma last_binding_None (k : str) (pairs : list (str * Z)) :
  last_binding k pairs = None <-> ~ In k (List.map fst pairs).
Proof.
  split.
  - intros E Hin. destruct (last_binding_In k pairs Hin) as [v Hv]. congruence.
  - induction pairs as [|[k' v] pairs IH]; [reflexivity|].
    cbn [List.map fst In last_binding]. intros H.
    rewrite IH by tauto. destruct (str_eqb k k') eqn:E; [|reflexivity].
    apply str_eqb_eq in E. subst. tauto.
Qed.

Lemma upsert_many_absorbs (small big : list (str * Z)) (m : gmap str Z) :
  incl (List.map fst small) (List.map fst big) ->
  alias_kv.upsert_many big (alias_kv.upsert_many small m) = alias_kv.upsert_many big m.
Proof.
  intros Hincl. apply map_eq. intros k. rewrite !upsert_many_lookup.
  destruct (last_binding k big) eqn:E; [reflexivity|].
  apply last_binding_None in E.
  replace (last_binding k small) with (@None Z); [reflexivity|].
  symmetry. apply last_binding_None. intros Hin. apply E. now apply Hincl.
Qed.

Lemma canonical_pairs_in_variant_pairs (e : Z * P.player) :
  incl (P.canonical_pairs U e) (P.variant_pairs U e).
Proof.
  destruct e as [uid rec]. unfold P.canonical_pairs. cbv zeta.
  change (if P.nonempty (strip (P.canonical_name rec)) then strip (P.canonical_name rec)
          else strip (strip (P.first_name rec) ++ sp ++ strip (P.last_name rec)))
    with (seeded_name rec).
  destruct (P.nonempty (seeded_name rec)) eqn:E; [|intros x []].
  rewrite (variant_pairs_name U uid rec E). now apply incl_appl.
Qed.

(** Seeding is idempotent: a second run of a seeding command returns the
    same count and leaves the cache as the first left it. And the full
    seeding of the players subsumes the seeding of their canonical names:
    run after it, it leaves the cache it would have left alone. *)
Theorem seeding_is_idempotent (w : P.world) (wt : T.world) :
  P.seed_aliases_from_canonicals U (snd (P.seed_aliases_from_canonicals U w))
  = P.seed_aliases_from_canonicals U w
  /\ P.seed_all_alias_variants U (snd (P.seed_all_alias_variants U w))
     = P.seed_all_alias_variants U w
  /\ T.seed_aliases_from_canonicals U (snd (T.seed_aliases_from_canonicals U wt))
     = T.seed_aliases_from_canonicals U wt
  /\ P.seed_all_alias_variants U (snd (P.seed_aliases_from_canonicals U w))
     = P.seed_all_alias_variants U w.
Proof.
  unfold P.seed_aliases_from_canonicals, P.seed_all_alias_variants,
    T.seed_aliases_from_canonicals, P.load_databases, T.load_databases.
  cbv zeta. cbn [fst snd P.set_kv T.set_kv P.players T.root P.kv T.kv P.unmapped T.unmapped
                 P._EXT_INDEX P.ext_lookups T.index_reads].
  unfold alias_kv.upsert_player_aliases, alias_kv.upsert_tournament_aliases.
  cbn [alias_kv.player_aliases alias_kv.tournament_aliases].
  rewrite !upsert_many_idem. repeat split.
  rewrite upsert_many_absorbs; [reflexivity|].
  intros k Hk. apply in_map_iff in Hk as ([k' v] & <- & Hin).
  apply in_flat_map in Hin as (e & He & Hin).
  apply in_map_iff. exists (k', v). split; [reflexivity|].
  apply in_flat_map. exists e. split; [assumption|].
  now apply canonical_pairs_in_variant_pairs.
Qed.

End SeedTwice.

(** * [sportpesa_common.py]: the scraper's use of the resolvers *)

Module sportpesa_common.

(** [MARKET_CHUNK_SIZE] *)
Definition MARKET_CHUNK_SIZE : nat := 20.

(** [s.split(sep)] for a one-character separator: every piece, the empty
    ones too. *)
Fixpoint split_all (sep : N) (s : str) : list str :=
  match s with
  | [] => [[]]
  | c :: t =>
      if (c =? sep)%N then [] :: split_all sep t
      else match split_all sep t with
           | p :: ps => (c :: p) :: ps
           | [] => [[c]]
           end
  end.

(** A competitor of a match: [c.get("name") or ""]. *)
Definition competitor := str.

(** [is_doubles] *)
Definition is_doubles (competitors : list competitor) : bool :=
  match competitors with
  | a :: b :: _ => contains 47 a || contains 47 b
  | _ => false
  end.

(** [split_pair] *)
Definition split_pair (name : str) : list str :=
  let parts := List.map strip
                 (List.filter (fun p => P.nonempty (strip p)) (split_all 47 name)) in
  match parts with
  | [] => [name]
  | _ => parts
  end.

(** What [norm_tournament] returns; the [Proposal_ID] key is present in the
    pending case only. *)
Record tinfo := {
  Tournament_ID : option Z;
  Tournament_Canonical : str;
  Tournament_Status : str;
  t_Proposal_ID : option str
}.

(** What [norm_player_single] returns. *)
Record pinfo := {
  Unique_ID : option Z;
  Canonical_Name : str;
  Status : str;
  Proposal_ID : option str
}.

(** The state of one run: the SQLite file shared by the two resolvers, the
    JSON files and the index of the players, the JSON files of the
    tournaments, and the two per-run caches of this module. [calls] counts
    the calls of a [resolve_or_register], and numbers the values of
    [uuid.uuid4()] and [_now_iso()]. *)
Record run := {
  kv : alias_kv.db;
  players : P.doc;
  unmapped_players : list P.proposal;
  _EXT_INDEX : option (gmap str Z);
  ext_lookups : nat;
  tournaments : T.doc;
  unmapped_tournaments : list T.proposal;
  index_reads : nat;
  _PLAYER_CACHE : list (str * pinfo);
  _TOURN_CACHE : list (str * tinfo);
  calls : nat
}.

Definition as_players (s : run) : P.world :=
  {| P.kv := kv s; P.players := players s; P.unmapped := unmapped_players s;
     P._EXT_INDEX := _EXT_INDEX s; P.ext_lookups := ext_lookups s |}.

Definition as_tournaments (s : run) : T.world :=
  {| T.kv := kv s; T.root := tournaments s; T.unmapped := unmapped_tournaments s;
     T.index_reads := index_reads s |}.

Definition put_players (w : P.world) (s : run) : run :=
  {| kv := P.kv w; players := P.players w; unmapped_players := P.unmapped w;
     _EXT_INDEX := P._EXT_INDEX w; ext_lookups := P.ext_lookups w;
     tournaments := tournaments s; unmapped_tournaments := unmapped_tournaments s;
     index_reads := index_reads s;
     _PLAYER_CACHE := _PLAYER_CACHE s; _TOURN_CACHE := _TOURN_CACHE s; calls := calls s |}.

Definition put_tournaments (w : T.world) (s : run) : run :=
  {| kv := T.kv w; players := players s; unmapped_players := unmapped_players s;
     _EXT_INDEX := _EXT_INDEX s; ext_lookups := ext_lookups s;
     tournaments := T.root w; unmapped_tournaments := T.unmapped w;
     index_reads := T.index_reads w;
     _PLAYER_CACHE := _PLAYER_CACHE s; _TOURN_CACHE := _TOURN_CACHE s; calls := calls s |}.

Definition called (s : run) : run :=
  {| kv := kv s; players := players s; unmapped_players := unmapped_players s;
     _EXT_INDEX := _EXT_INDEX s; ext_lookups := ext_lookups s;
     tournaments := tournaments s; unmapped_tournaments := unmapped_tournaments s;
     index_reads := index_reads s;
     _PLAYER_CACHE := _PLAYER_CACHE s; _TOURN_CACHE := _TOURN_CACHE s;
     calls := S (calls s) |}.

Definition set_player_cache (c : list (str * pinfo)) (s : run) : run :=
  {| kv := kv s; players := players s; unmapped_players := unmapped_players s;
     _EXT_INDEX := _EXT_INDEX s; ext_lookups := ext_lookups s;
     tournaments := tournaments s; unmapped_tournaments := unmapped_tournaments s;
     index_reads := index_reads s;
     _PLAYER_CACHE := c; _TOURN_CACHE := _TOURN_CACHE s; calls := calls s |}.

Definition set_tourn_cache (c : list (str * tinfo)) (s : run) : run :=
  {| kv := kv s; players := players s; unmapped_players := unmapped_players s;
     _EXT_INDEX := _EXT_INDEX s; ext_lookups := ext_lookups s;
     tournaments := tournaments s; unmapped_tournaments := unmapped_tournaments s;
     index_reads := index_reads s;
     _PLAYER_CACHE := _PLAYER_CACHE s; _TOURN_CACHE := c; calls := calls s |}.

(** A computation of the module: it returns or raises, and leaves a state. *)
Definition M (A : Type) : Type := run -> result A * run.

Definition ret {A} (a : A) : M A := fun s => (Ok a, s).

Definition bind {A B} (m : M A) (k : A -> M B) : M B :=
  fun s => match m s with
           | (Ok a, s') => k a s'
           | (Raise e, s') => (Raise e, s')
           end.

Notation "'let*' x ':=' m 'in' k" := (bind m (fun x => k))
  (at level 10, x pattern, m at level 100, k at level 200).

(** [for x in xs: body(x)], stopping at the first exception *)
Fixpoint for_each {A B} (body : A -> M B) (xs : list A) : M (list B) :=
  match xs with
  | [] => ret []
  | x :: xs' => let* b := body x in let* bs := for_each body xs' in ret (b :: bs)
  end.

(** One market of the API and one of its selections; [odds] is the value of
    [float(sel.get("odds"))], [None] when the conversion raises. *)
Record selection (number : Type) := {
  sel_name : str;
  sel_odds : option number
}.
Arguments sel_name {number}.
Arguments sel_odds {number}.

Record market (number : Type) := {
  market_id : option Z;
  market_name : str;
  selections : list (selection number)
}.
Arguments market_id {number}.
Arguments market_name {number}.
Arguments selections {number}.

(** A match of the API: [id], [competition.name], the names of the
    competitors, [dateTimestamp], [scope] and [type], a missing or null
    string read as the empty one. *)
Record game := {
  id : option Z;
  competition : str;
  competitors : list competitor;
  dateTimestamp : option Z;
  scope : str;
  type_ : str
}.

(** A row of the result; the id lists stand for their JSON text
    ([json.dumps]). *)
Record row (number : Type) := {
  Bookmaker : str;
  Match_ID : option Z;
  Is_Doubles : bool;
  Tournament_Raw : str;
  r_Tournament_Canonical : str;
  r_Tournament_ID : option Z;
  r_Tournament_Status : str;
  Start_Time_UTC : str;
  Scope : str;
  Competitor1_Raw : str;
  Competitor2_Raw : str;
  Competitor1_Canonical : str;
  Competitor2_Canonical : str;
  Competitor1_IDs : list (option Z);
  Competitor2_IDs : list (option Z);
  Market_ID : option Z;
  Market_Name : str;
  Selection_Raw : str;
  Selection_Canonical : str;
  Selection_Player_IDs : list (option Z);
  Odds : option number
}.

Section WithEnv.
Variable U : pyenv.
(** [uuid.uuid4()] and [_now_iso()] in the call of the given number, and
    [datetime.utcfromtimestamp(ts).strftime(...)] *)
Variable uuid4 : nat -> str.
Variable _now_iso : nat -> str.
Variable strftime : Z -> str.

(** [to_iso_utc_from_epoch] *)
Definition to_iso_utc_from_epoch (ts : option Z) : str :=
  match ts with
  | None => []
  | Some t => if (t =? 0)%Z then [] else strftime t
  end.

(** [_norm_key] *)
Definition _norm_key (s : str) : str :=
  List.filter (fun c => negb (combining U c)) (nfkd U (str_lower U (strip s))).

(** [norm_tournament] *)
Definition norm_tournament (raw_name : str) : M tinfo := fun s =>
  let key := _norm_key raw_name in
  match dict_get str_eqb key (_TOURN_CACHE s) with
  | Some out => (Ok out, s)
  | None =>
      let '(res, w) :=
        T.resolve_or_register U raw_name
          {| T.source_bookmaker := py "SportPesa"; T.event_time_utc := [] |}
          (uuid4 (calls s)) (_now_iso (calls s)) (as_tournaments s) in
      let out :=
        match res with
        | T.Hit h =>
            {| Tournament_ID := Some (T.hit_Tournament_ID h);
               Tournament_Canonical := T.canonical_name (T.hit_record h);
               Tournament_Status := py "hit"; t_Proposal_ID := None |}
        | T.Pending pid _ =>
            {| Tournament_ID := None; Tournament_Canonical := raw_name;
               Tournament_Status := py "pending"; t_Proposal_ID := Some pid |}
        end in
      let s' := called (put_tournaments w s) in
      (Ok out, set_tourn_cache (dict_set str_eqb key out (_TOURN_CACHE s')) s')
  end.

(** [norm_player_single] *)
Definition norm_player_single (raw_name tournament opponent_raw start_iso : str)
  : M pinfo := fun s =>
  let key := _norm_key raw_name in
  match dict_get str_eqb key (_PLAYER_CACHE s) with
  | Some out => (Ok out, s)
  | None =>
      let '(res, w) :=
        P.resolve_or_register U raw_name
          {| P.source_bookmaker := py "SportPesa"; P.tournament := tournament;
             P.opponent_raw := opponent_raw; P.event_time_utc := start_iso |}
          (uuid4 (calls s)) (_now_iso (calls s)) (as_players s) in
      let s' := called (put_players w s) in
      match res with
      | Raise e => (Raise e, s')
      | Ok res =>
          let out :=
            match res with
            | P.Hit h =>
                {| Unique_ID := Some (P.Unique_ID h);
                   Canonical_Name := P.hit_canonical_name h;
                   Status := py "hit"; Proposal_ID := None |}
            | P.Pending pid _ =>
                {| Unique_ID := None; Canonical_Name := raw_name;
                   Status := py "pending"; Proposal_ID := Some pid |}
            end in
          (Ok out, set_player_cache (dict_set str_eqb key out (_PLAYER_CACHE s')) s')
      end
  end.

(** [norm_pair] *)
Definition norm_pair (raw_pair tournament opponent_pair start_iso : str)
  : M (pinfo * pinfo) :=
  let parts := split_pair raw_pair in
  let a := nth 0 parts [] in
  let b := nth 1 parts [] in
  let* n1 := norm_player_single a tournament opponent_pair start_iso in
  let* n2 := norm_player_single b tournament raw_pair start_iso in
  ret (n1, n2).

(** [lookup_player_only], the player resolver under its imported name *)
Definition lookup_player_only (raw_name : str) : M (option P.hit) := fun s =>
  let '(r, w) := P.resolve_player U raw_name (as_players s) in (r, put_players w s).

(** The entries of [resolved_map] *)
Definition resolved := (str * list (option Z))%type.

Definition map_entry (n : pinfo) : resolved := (Canonical_Name n, [Unique_ID n]).

(** The first half of [assemble_rows_for_match]: the tournament and the
    competitors are normalized once; the result is [tinfo], [resolved_map]
    and the canonical names and ids of the two sides. *)
Definition normalize_match (m : game) (match_is_doubles : bool)
  : M (tinfo * list (str * resolved) * (str * str) * (list (option Z) * list (option Z))) :=
  let comp_raw := competition m in
  let p1_raw := nth 0 (competitors m) [] in
  let p2_raw := nth 1 (competitors m) [] in
  let start_iso := to_iso_utc_from_epoch (dateTimestamp m) in
  let* tinfo := norm_tournament comp_raw in
  if match_is_doubles then
    let* (p1a, p1b) := norm_pair p1_raw comp_raw p2_raw start_iso in
    let* (p2a, p2b) := norm_pair p2_raw comp_raw p1_raw start_iso in
    let p1_parts := split_pair p1_raw in
    let p2_parts := split_pair p2_raw in
    let pairs := [(nth 0 p1_parts [], p1a); (nth 1 p1_parts [], p1b);
                  (nth 0 p2_parts [], p2a); (nth 1 p2_parts [], p2b)] in
    let resolved_map :=
      fold_left (fun acc '(raw, rec) =>
                   if P.nonempty raw then dict_set str_eqb (_norm_key raw) (map_entry rec) acc
                   else acc)
                pairs [] in
    let p1_canon := strip_chars (py " /")
                      (join (py " / ") [Canonical_Name p1a; Canonical_Name p1b]) in
    let p2_canon := strip_chars (py " /")
                      (join (py " / ") [Canonical_Name p2a; Canonical_Name p2b]) in
    ret (tinfo, resolved_map, (p1_canon, p2_canon),
         ([Unique_ID p1a; Unique_ID p1b], [Unique_ID p2a; Unique_ID p2b]))
  else
    let* n1 := norm_player_single p1_raw comp_raw p2_raw start_iso in
    let* n2 := norm_player_single p2_raw comp_raw p1_raw start_iso in
    let resolved_map :=
      dict_set str_eqb (_norm_key p2_raw) (map_entry n2)
        (dict_set str_eqb (_norm_key p1_raw) (map_entry n1) []) in
    ret (tinfo, resolved_map, (Canonical_Name n1, Canonical_Name n2),
         ([Unique_ID n1], [Unique_ID n2])).

(** A selection: the competitor map first, else a lookup that registers
    nothing. *)
Definition resolve_selection (resolved_map : list (str * resolved)) (sel_name_raw : str)
  : M resolved :=
  match dict_get str_eqb (_norm_key sel_name_raw) resolved_map with
  | Some r => ret r
  | None =>
      let* hit := lookup_player_only sel_name_raw in
      match hit with
      | Some h => ret (P.hit_canonical_name h, [Some (P.Unique_ID h)])
      | None => ret (sel_name_raw, [None])
      end
  end.

(** [assemble_rows_for_match] *)
Definition assemble_rows_for_match {number} (m : game) (markets : list (market number))
           (want_doubles : bool) : M (list (row number)) :=
  let match_is_doubles := is_doubles (competitors m) in
  if negb (Bool.eqb want_doubles match_is_doubles) then ret []
  else
    let comp_raw := competition m in
    let p1_raw := nth 0 (competitors m) [] in
    let p2_raw := nth 1 (competitors m) [] in
    let start_iso := to_iso_utc_from_epoch (dateTimestamp m) in
    let* (tinfo, resolved_map, (p1_canon, p2_canon), (p1_ids, p2_ids)) :=
      normalize_match m match_is_doubles in
    let scope := P.or_ (scope m) (type_ m) in
    let* rows :=
      for_each (fun mk =>
        for_each (fun sel =>
          let* (sel_canon, sel_ids) := resolve_selection resolved_map (sel_name sel) in
          ret {| Bookmaker := py "SportPesa"; Match_ID := id m;
                 Is_Doubles := match_is_doubles; Tournament_Raw := comp_raw;
                 r_Tournament_Canonical := Tournament_Canonical tinfo;
                 r_Tournament_ID := Tournament_ID tinfo;
                 r_Tournament_Status := Tournament_Status tinfo;
                 Start_Time_UTC := start_iso; Scope := scope;
                 Competitor1_Raw := p1_raw; Competitor2_Raw := p2_raw;
                 Competitor1_Canonical := p1_canon; Competitor2_Canonical := p2_canon;
                 Competitor1_IDs := p1_ids; Competitor2_IDs := p2_ids;
                 Market_ID := market_id mk; Market_Name := market_name mk;
                 Selection_Raw := sel_name sel; Selection_Canonical := sel_canon;
                 Selection_Player_IDs := sel_ids; Odds := sel_odds sel |})
          (selections mk))
        markets in
    ret (concat rows).

End WithEnv.

(** *** The scrape: matches and their markets *)

Definition id_eqb (a b : option Z) : bool :=
  match a, b with
  | Some x, Some y => (x =? y)%Z
  | None, None => true
  | _, _ => false
  end.

(** [m["scope"] = tag] *)
Definition tagged (tag : str) (m : game) : game :=
  {| id := id m; competition := competition m; competitors := competitors m;
     dateTimestamp := dateTimestamp m; scope := tag; type_ := type_ m |}.

(** The loop of [scrape_sportpesa_tennis] that fills [seen]: one match per
    id, the live one preferred. *)
Definition seen_step (seen : list (option Z * game)) (m : game) : list (option Z * game) :=
  match dict_get id_eqb (id m) seen with
  | Some _ => if str_eqb (scope m) (py "live") then dict_set id_eqb (id m) m seen else seen
  | None => dict_set id_eqb (id m) m seen
  end.

Definition uniq_matches (highlights live : list game) : list game :=
  let matches := List.map (tagged (py "highlight")) highlights
                 ++ List.map (tagged (py "live")) live in
  List.map snd (fold_left seen_step matches []).

End sportpesa_common.

Module SC := sportpesa_common.

(** ** Dictionaries in insertion order *)

Section DictFacts.
Context {K V : Type} (eqb : K -> K -> bool).
Hypothesis eqb_eq : forall a b, eqb a b = true <-> a = b.

Lemma eqb_same (a : K) : eqb a a = true.
Proof using eqb_eq. now apply eqb_eq. Qed.

Lemma dict_get_set (k k' : K) (v : V) (d : list (K * V)) :
  dict_get eqb k (dict_set eqb k' v d)
  = if eqb k k' then Some v else dict_get eqb k d.
Proof using eqb_eq.
  induction d as [|[k0 v0] d IH]; cbn [dict_set dict_get]; [reflexivity|].
  destruct (eqb k' k0) eqn:E; cbn [dict_get].
  - apply eqb_eq in E. subst k0. now destruct (eqb k k').
  - rewrite IH. destruct (eqb k k0) eqn:E0; [|reflexivity].
    apply eqb_eq in E0. subst k0.
    destruct (eqb k k') eqn:E1; [|reflexivity].
    apply eqb_eq in E1. subst k'. rewrite eqb_same in E. discriminate.
Qed.

Lemma dict_set_key_set (k : K) (v : V) (d : list (K * V)) (x : K) :
  In x (List.map fst (dict_set eqb k v d)) <-> x = k \/ In x (List.map fst d).
Proof using eqb_eq.
  induction d as [|[k' v'] d IH]; cbn [dict_set List.map fst In]; [intuition|].
  destruct (eqb k k') eqn:E; cbn [List.map fst In].
  - apply eqb_eq in E. subst. intuition.
  - rewrite IH. intuition.
Qed.

Lemma dict_set_distinct (k : K) (v : V) (d : list (K * V)) :
  List.NoDup (List.map fst d) -> List.NoDup (List.map fst (dict_set eqb k v d)).
Proof using eqb_eq.
  induction d as [|[k' v'] d IH]; cbn [dict_set List.map fst]; intros H.
  - apply List.NoDup_cons_iff. split; [intros [] | apply List.NoDup_nil].
  - apply List.NoDup_cons_iff in H as [Hk' Hd].
    destruct (eqb k k') eqn:E; cbn [List.map fst].
    + apply List.NoDup_cons_iff. split; assumption.
    + apply List.NoDup_cons_iff. split; [|now apply IH].
      intros Hin. apply dict_set_key_set in Hin as [->|Hin]; [|contradiction].
      rewrite eqb_same in E. discriminate.
Qed.

Lemma dict_set_In (k k0 : K) (v v0 : V) (d : list (K * V)) :
  In (k0, v0) (dict_set eqb k v d) -> (k0 = k /\ v0 = v) \/ In (k0, v0) d.
Proof using eqb_eq.
  induction d as [|[k' v'] d IH]; cbn [dict_set In].
  - intros [[= <- <-]|[]]. now left.
  - destruct (eqb k k') eqn:E; cbn [In].
    + apply eqb_eq in E. subst k'. intros [[= <- <-]|H]; [now left | right; now right].
    + intros [H|H]; [right; now left|]. destruct (IH H) as [H'|H']; [now left | right; now right].
Qed.

Lemma dict_get_entry (k : K) (v : V) (d : list (K * V)) :
  dict_get eqb k d = Some v -> In (k, v) d.
Proof using eqb_eq.
  induction d as [|[k' v'] d IH]; cbn [dict_get]; [discriminate|].
  destruct (eqb k k') eqn:E.
  - apply eqb_eq in E. subst k'. intros [= <-]. now left.
  - intros H. right. now apply IH.
Qed.

Lemma dict_get_found (k : K) (v : V) (d : list (K * V)) :
  List.NoDup (List.map fst d) -> In (k, v) d -> dict_get eqb k d = Some v.
Proof using eqb_eq.
  induction d as [|[k' v'] d IH]; cbn [dict_get List.map fst]; [intros _ []|].
  intros Hnd. apply List.NoDup_cons_iff in Hnd as [Hk Hnd]. intros [[= -> ->]|Hin].
  - now rewrite eqb_same.
  - destruct (eqb k k') eqn:E; [|now apply IH].
    apply eqb_eq in E. subst k'. exfalso. apply Hk.
    apply in_map_iff. now exists (k, v).
Qed.

Lemma dict_get_missing (k : K) (d : list (K * V)) :
  dict_get eqb k d = None <-> ~ In k (List.map fst d).
Proof using eqb_eq.
  induction d as [|[k' v'] d IH]; cbn [dict_get List.map fst In]; [intuition|].
  destruct (eqb k k') eqn:E.
  - apply eqb_eq in E. subst. split; [discriminate | intuition].
  - rewrite IH. split; [|intuition]. intros H [->|H']; [|contradiction].
    rewrite eqb_same in E. discriminate.
Qed.

End DictFacts.

Lemma id_eqb_eq (a b : option Z) : SC.id_eqb a b = true <-> a = b.
Proof.
  destruct a as [x|], b as [y|]; cbn [SC.id_eqb]; try (split; congruence).
  rewrite Z.eqb_eq. split; congruence.
Qed.

(** ** [split_pair] *)

Section Pairs.

Lemma split_all_nonempty (sep : N) (s : str) : SC.split_all sep s <> [].
Proof.
  induction s as [|c s IH]; cbn [SC.split_all]; [discriminate|].
  destruct (c =? sep)%N; [discriminate|]. now destruct (SC.split_all sep s).
Qed.

Lemma split_all_pieces (sep : N) (s p : str) :
  In p (SC.split_all sep s) -> ~ In sep p /\ forall c, In c p -> In c s.
Proof.
  revert p. induction s as [|c s IH]; intros p; cbn [SC.split_all].
  - intros [<-|[]]. split; [intros [] | intros c []].
  - destruct (N.eqb_spec c sep) as [->|Hne].
    + intros [<-|Hp]; [split; [intros [] | intros c []]|].
      destruct (IH p Hp) as [H1 H2]. split; [assumption|]. intros c Hc. right. now apply H2.
    + pose proof (split_all_nonempty sep s) as Hn.
      destruct (SC.split_all sep s) as [|q qs]; [congruence|].
      intros [<-|Hp].
      * destruct (IH q (or_introl eq_refl)) as [H1 H2]. split.
        -- intros [E|H]; [congruence | contradiction].
        -- intros d [<-|Hd]; [now left | right; now apply H2].
      * destruct (IH p (or_intror Hp)) as [H1 H2]. split; [assumption|].
        intros d Hd. right. now apply H2.
Qed.

Lemma split_all_whole (sep : N) (s : str) : ~ In sep s -> SC.split_all sep s = [s].
Proof.
  induction s as [|c s IH]; intros H; [reflexivity|]. cbn [SC.split_all].
  destruct (N.eqb_spec c sep) as [->|Hne]; [exfalso; apply H; now left|].
  rewrite IH; [reflexivity|]. intros Hin. apply H. now right.
Qed.

(** [split_pair] never returns the empty list, so that [parts[0]] exists;
    each part is the name itself or is non-empty, trimmed and free of
    slashes; and a name without a slash that is not blank is its own only
    part, trimmed. *)
Theorem split_pair_parts (name : str) :
  SC.split_pair name <> []
  /\ Forall (fun p => p = name \/ (p <> [] /\ strip p = p /\ ~ In 47%N p))
            (SC.split_pair name)
  /\ (~ In 47%N name -> strip name <> [] -> SC.split_pair name = [strip name]).
Proof.
  unfold SC.split_pair. cbv zeta. split; [|split].
  - now destruct (List.map strip _).
  - assert (H : Forall (fun p => p = name \/ (p <> [] /\ strip p = p /\ ~ In 47%N p))
                  (List.map strip
                     (List.filter (fun p => P.nonempty (strip p)) (SC.split_all 47 name)))).
    { apply List.Forall_forall. intros p Hp. right.
      apply in_map_iff in Hp as (q & <- & Hq). apply filter_In in Hq as [Hq Hne].
      split; [now destruct (strip q)|]. split; [apply strip_by_idem|].
      intros Hin. apply (strip_by_incl isspace) in Hin.
      now apply (split_all_pieces 47 name q Hq). }
    destruct (List.map strip _); [|exact H]. constructor; [now left | constructor].
  - intros Hno Hne. rewrite split_all_whole by assumption. cbn [List.filter].
    destruct (strip name) eqn:E; [congruence|].
    cbn [P.nonempty List.map]. now rewrite E.
Qed.

End Pairs.

(** ** The per-run caches *)

Section Memo.
Variable U : pyenv.
Variables uuid4 _now_iso : nat -> str.

(** Within one run a name is resolved or registered once: after a call of
    [norm_player_single] or [norm_tournament] that returned, a call for any
    name with the same key returns the same answer and changes nothing, so
    that a proposal is sighted at most once per run and key. *)
Theorem norm_is_memoized (raw raw' : str) (s : SC.run) :
  SC._norm_key U raw' = SC._norm_key U raw ->
  (forall t o st t' o' st' out s',
      SC.norm_player_single U uuid4 _now_iso raw t o st s = (Ok out, s') ->
      SC.norm_player_single U uuid4 _now_iso raw' t' o' st' s' = (Ok out, s'))
  /\ (forall out s',
      SC.norm_tournament U uuid4 _now_iso raw s = (out, s') ->
      SC.norm_tournament U uuid4 _now_iso raw' s' = (out, s')).
Proof.
  intros Hk. split.
  - intros t o st t' o' st' out s'. unfold SC.norm_player_single. cbv zeta. rewrite Hk.
    destruct (dict_get str_eqb (SC._norm_key U raw) (SC._PLAYER_CACHE s)) as [c|] eqn:E.
    + intros [= <- <-]. now rewrite E.
    + destruct (P.resolve_or_register U raw _ _ _ _) as [[res|e] w]; [|discriminate].
      intros [= <- <-]. cbn [SC.set_player_cache SC._PLAYER_CACHE].
      rewrite (dict_get_set str_eqb str_eqb_eq), str_eqb_refl. reflexivity.
  - intros out s'. unfold SC.norm_tournament. cbv zeta. rewrite Hk.
    destruct (dict_get str_eqb (SC._norm_key U raw) (SC._TOURN_CACHE s)) as [c|] eqn:E.
    + intros [= <- <-]. now rewrite E.
    + destruct (T.resolve_or_register U raw _ _ _ _) as [res w].
      intros [= <- <-]. cbn [SC.set_tourn_cache SC._TOURN_CACHE].
      rewrite (dict_get_set str_eqb str_eqb_eq), str_eqb_refl. reflexivity.
Qed.

End Memo.

(** ** One match per id *)

Section Dedupe.

Definition live : str := py "live".

(** The dictionary [seen] after the matches [ms]: its keys are distinct,
    every value is a match of [ms] filed under its id and is live when a
    match of [ms] with its id is, and every match of [ms] has its id filed. *)
Definition seen_ok (ms : list SC.game) (seen : list (option Z * SC.game)) : Prop :=
  List.NoDup (List.map fst seen)
  /\ (forall k m, dict_get SC.id_eqb k seen = Some m ->
                  SC.id m = k /\ In m ms
                  /\ forall m', In m' ms -> SC.id m' = k -> SC.scope m' = live ->
                                SC.scope m = live)
  /\ (forall m, In m ms -> dict_get SC.id_eqb (SC.id m) seen <> None).

Lemma id_eqb_refl (k : option Z) : SC.id_eqb k k = true.
Proof. now apply id_eqb_eq. Qed.

Lemma seen_set_ok (ms : list SC.game) seen (m : SC.game) :
  seen_ok ms seen ->
  SC.scope m = live \/ dict_get SC.id_eqb (SC.id m) seen = None ->
  seen_ok (ms ++ [m]) (dict_set SC.id_eqb (SC.id m) m seen).
Proof.
  intros (Hnd & Hget & Hall) Hc. split; [now apply (dict_set_distinct _ id_eqb_eq)|]. split.
  - intros k x. rewrite (dict_get_set _ id_eqb_eq).
    destruct (SC.id_eqb k (SC.id m)) eqn:Ek.
    + apply id_eqb_eq in Ek. subst k. intros [= <-]. split; [reflexivity|].
      split; [apply in_or_app; right; now left|].
      intros m' Hm' Hid Hl. destruct Hc as [Hc|Hc]; [exact Hc|].
      apply in_app_or in Hm' as [Hm'|[<-|[]]]; [|exact Hl].
      exfalso. apply (Hall m' Hm'). rewrite Hid. exact Hc.
    + intros Hx. destruct (Hget k x Hx) as (H1 & H2 & H3). split; [exact H1|].
      split; [apply in_or_app; now left|].
      intros m' Hm' Hid Hl. apply in_app_or in Hm' as [Hm'|[<-|[]]];
        [exact (H3 m' Hm' Hid Hl)|].
      exfalso. rewrite <- Hid, id_eqb_refl in Ek. discriminate.
  - intros m' Hm'. rewrite (dict_get_set _ id_eqb_eq).
    destruct (SC.id_eqb (SC.id m') (SC.id m)) eqn:Ek; [discriminate|].
    apply in_app_or in Hm' as [Hm'|[<-|[]]]; [now apply Hall|].
    rewrite id_eqb_refl in Ek. discriminate.
Qed.

Lemma seen_keep_ok (ms : list SC.game) seen (m : SC.game) :
  seen_ok ms seen ->
  SC.scope m <> live -> dict_get SC.id_eqb (SC.id m) seen <> None ->
  seen_ok (ms ++ [m]) seen.
Proof.
  intros (Hnd & Hget & Hall) Hl Hg. split; [assumption|]. split.
  - intros k x Hx. destruct (Hget k x Hx) as (H1 & H2 & H3). split; [exact H1|].
    split; [apply in_or_app; now left|].
    intros m' Hm' Hid Hl'. apply in_app_or in Hm' as [Hm'|[<-|[]]];
      [exact (H3 m' Hm' Hid Hl') | contradiction].
  - intros m' Hm'. apply in_app_or in Hm' as [Hm'|[<-|[]]]; [now apply Hall | assumption].
Qed.

Lemma seen_step_ok (ms : list SC.game) seen (m : SC.game) :
  seen_ok ms seen -> seen_ok (ms ++ [m]) (SC.seen_step seen m).
Proof.
  intros H. unfold SC.seen_step.
  destruct (dict_get SC.id_eqb (SC.id m) seen) as [m0|] eqn:Eg.
  - fold live. destruct (str_eqb (SC.scope m) live) eqn:El.
    + apply str_eqb_eq in El. apply seen_set_ok; [assumption | now left].
    + apply str_eqb_neq in El. apply seen_keep_ok; [assumption | assumption | congruence].
  - apply seen_set_ok; [assumption | now right].
Qed.

Lemma seen_fold_ok (ms' ms : list SC.game) seen :
  seen_ok ms seen -> seen_ok (ms ++ ms') (fold_left SC.seen_step ms' seen).
Proof.
  revert ms seen. induction ms' as [|m ms' IH]; intros ms seen H; cbn [fold_left].
  - now rewrite app_nil_r.
  - replace (ms ++ m :: ms') with ((ms ++ [m]) ++ ms') by now rewrite <- app_assoc.
    apply IH. now apply seen_step_ok.
Qed.

(** The matches kept by the scrape have distinct ids, their ids are those
    of the two feeds, every one of them is a match of a feed carrying the
    tag of its feed, and a match whose id is in the live feed is kept in
    its live form. *)
Theorem uniq_matches_prefers_live (highlights lives : list SC.game) :
  let uniq := SC.uniq_matches highlights lives in
  List.NoDup (List.map SC.id uniq)
  /\ (forall i, In i (List.map SC.id uniq)
                <-> In i (List.map SC.id highlights ++ List.map SC.id lives))
  /\ (forall m, In m uniq ->
                (exists m0, In m0 highlights /\ m = SC.tagged (py "highlight") m0)
                \/ (exists m0, In m0 lives /\ m = SC.tagged live m0))
  /\ (forall m, In m uniq -> In (SC.id m) (List.map SC.id lives) ->
                exists m0, In m0 lives /\ m = SC.tagged live m0).
Proof.
  cbv zeta. unfold SC.uniq_matches. cbv zeta. fold live.
  set (ms := List.map (SC.tagged (py "highlight")) highlights
             ++ List.map (SC.tagged live) lives).
  assert (Hok : seen_ok ms (fold_left SC.seen_step ms [])).
  { apply (seen_fold_ok ms [] []). split; [constructor|]. split.
    - intros k m. discriminate.
    - intros m []. }
  destruct Hok as (Hnd & Hget & Hall).
  set (seen := fold_left SC.seen_step ms []) in *.
  assert (Hent : forall k m, In (k, m) seen -> dict_get SC.id_eqb k seen = Some m).
  { intros k m. now apply (dict_get_found _ id_eqb_eq). }
  assert (Hkeys : List.map SC.id (List.map snd seen) = List.map fst seen).
  { rewrite List.map_map. apply map_ext_in. intros [k m] Hin. cbn [fst snd].
    now apply (Hget k m (Hent k m Hin)). }
  assert (Hfrom : forall m, In m ms ->
            (exists m0, In m0 highlights /\ m = SC.tagged (py "highlight") m0)
            \/ (exists m0, In m0 lives /\ m = SC.tagged live m0)).
  { intros m Hm. apply in_app_or in Hm as [Hm|Hm]; apply in_map_iff in Hm as (m0 & <- & Hm0);
      [left | right]; now exists m0. }
  assert (Hval : forall m, In m (List.map snd seen) ->
            exists k, dict_get SC.id_eqb k seen = Some m).
  { intros m Hm. apply in_map_iff in Hm as ([k m'] & E & Hin). cbn [snd] in E. subst m'.
    exists k. now apply Hent. }
  split; [now rewrite Hkeys|]. split; [|split].
  - intros i. rewrite Hkeys. split.
    + intros Hi. apply in_map_iff in Hi as ([k m] & E & Hin). cbn [fst] in E. subst k.
      destruct (Hget i m (Hent i m Hin)) as (Hid & Hm & _).
      destruct (Hfrom m Hm) as [(m0 & Hm0 & ->)|(m0 & Hm0 & ->)]; cbn [SC.tagged SC.id] in Hid;
        apply in_or_app; [left | right]; apply in_map_iff; now exists m0.
    + intros Hi.
      assert (Hm : exists m, In m ms /\ SC.id m = i).
      { apply in_app_or in Hi as [Hi|Hi]; apply in_map_iff in Hi as (m0 & <- & Hm0).
        - exists (SC.tagged (py "highlight") m0). split; [|reflexivity].
          apply in_or_app. left. now apply in_map.
        - exists (SC.tagged live m0). split; [|reflexivity].
          apply in_or_app. right. now apply in_map. }
      destruct Hm as (m & Hm & <-). specialize (Hall m Hm).
      destruct (dict_get SC.id_eqb (SC.id m) seen) as [x|] eqn:E; [|congruence].
      apply (dict_get_entry _ id_eqb_eq) in E. apply in_map_iff. now exists (SC.id m, x).
  - intros m Hm. destruct (Hval m Hm) as (k & Hk). apply Hfrom. now apply (Hget k m Hk).
  - intros m Hm Hlive. destruct (Hval m Hm) as (k & Hk).
    destruct (Hget k m Hk) as (Hid & Hin & Hpref).
    apply in_map_iff in Hlive as (m1 & E1 & Hm1).
    assert (Hs : SC.scope m = live).
    { apply (Hpref (SC.tagged live m1)).
      - apply in_or_app. right. now apply in_map.
      - cbn [SC.tagged SC.id]. congruence.
      - reflexivity. }
    destruct (Hfrom m Hin) as [(m0 & Hm0 & ->)|H]; [|exact H].
    cbn [SC.tagged SC.scope] in Hs. exfalso. revert Hs. unfold live. vm_compute. discriminate.
Qed.

End Dedupe.

(** ** What a match adds to the queues *)

Section Assemble.
Variable U : pyenv.
Variables uuid4 _now_iso : nat -> str.
Variable strftime : Z -> str.

(** From [s] to [s'] the two corpora are untouched, and the queues have
    grown by at most [a] players and [b] tournaments. *)
Definition grows (a b : nat) (s s' : SC.run) : Prop :=
  SC.players s' = SC.players s
  /\ SC.tournaments s' = SC.tournaments s
  /\ length (SC.unmapped_players s) <= length (SC.unmapped_players s')
     <= length (SC.unmapped_players s) + a
  /\ length (SC.unmapped_tournaments s) <= length (SC.unmapped_tournaments s')
     <= length (SC.unmapped_tournaments s) + b.

Definition effect {A} (a b : nat) (m : SC.M A) : Prop := forall s, grows a b s (snd (m s)).

Lemma grows_weaken (a b a' b' : nat) (s s' : SC.run) :
  a <= a' -> b <= b' -> grows a b s s' -> grows a' b' s s'.
Proof. unfold grows. intros ? ? (? & ? & ? & ?). repeat split; try assumption; lia. Qed.

Lemma effect_weaken {A} (a b a' b' : nat) (m : SC.M A) :
  a <= a' -> b <= b' -> effect a b m -> effect a' b' m.
Proof. intros ? ? H s. now apply (grows_weaken a b). Qed.

Lemma effect_ret {A} (x : A) : effect 0 0 (SC.ret x).
Proof. intros s. unfold grows. cbn [SC.ret snd]. repeat split; lia. Qed.

Lemma effect_bind {A B} (a b a' b' : nat) (m : SC.M A) (k : A -> SC.M B) :
  effect a b m -> (forall x, effect a' b' (k x)) -> effect (a + a') (b + b') (SC.bind m k).
Proof.
  intros Hm Hk s. unfold SC.bind. specialize (Hm s).
  destruct (m s) as [[x|e] s1]; cbn [snd] in *.
  - specialize (Hk x s1). unfold grows in *.
    destruct Hm as (? & ? & ? & ?), Hk as (? & ? & ? & ?).
    repeat split; try congruence; lia.
  - apply (grows_weaken a b); [lia | lia | assumption].
Qed.

Lemma effect_for_each {A B} (body : A -> SC.M B) (xs : list A) :
  (forall x, effect 0 0 (body x)) -> effect 0 0 (SC.for_each body xs).
Proof.
  intros Hb. induction xs as [|x xs IH]; cbn [SC.for_each]; [apply effect_ret|].
  apply (effect_bind 0 0 0 0); [apply Hb|]. intros b.
  apply (effect_bind 0 0 0 0); [apply IH|]. intros bs. apply effect_ret.
Qed.

Lemma register_player_length (raw : str) ctx fresh now (w : P.world) :
  let w' := snd (P.register_unmapped_player U raw ctx fresh now w) in
  P.players w' = P.players w
  /\ length (P.unmapped w) <= length (P.unmapped w') <= length (P.unmapped w) + 1.
Proof.
  cbv zeta. unfold P.register_unmapped_player. cbv zeta.
  destruct (P.merge_first _ _ (P.unmapped w)) as [[r q]|] eqn:E;
    cbn [snd P.set_unmapped P.players P.unmapped].
  - apply merge_first_player in E as (_ & -> & _). split; [reflexivity | lia].
  - rewrite length_app. cbn [length]. split; [reflexivity | lia].
Qed.

Lemma register_tournament_length (raw : str) ctx fresh now (w : T.world) :
  let w' := snd (T.register_unmapped_tournament U raw ctx fresh now w) in
  T.root w' = T.root w
  /\ length (T.unmapped w) <= length (T.unmapped w') <= length (T.unmapped w) + 1.
Proof.
  cbv zeta. unfold T.register_unmapped_tournament. cbv zeta.
  destruct (T.merge_first _ _ (T.unmapped w)) as [[r q]|] eqn:E;
    cbn [snd T.set_unmapped T.root T.unmapped].
  - apply merge_first_tournament in E as (_ & -> & _). split; [reflexivity | lia].
  - rewrite length_app. cbn [length]. split; [reflexivity | lia].
Qed.

Lemma resolve_tournament_frame (raw : str) (w : T.world) :
  T.root (snd (T.resolve_tournament U raw w)) = T.root w
  /\ T.unmapped (snd (T.resolve_tournament U raw w)) = T.unmapped w.
Proof.
  unfold T.resolve_tournament.
  destruct (alias_kv.get_tournament_id (T._key U raw) (T.kv w)); [now split|].
  destruct (alias_kv.get_tournament_id _ (T.kv w)); [now split|].
  cbv zeta. destruct (dict_get _ _ _); now split.
Qed.

Lemma effect_lookup (raw : str) : effect 0 0 (SC.lookup_player_only U raw).
Proof.
  intros s. unfold SC.lookup_player_only.
  pose proof (resolve_player_cases U raw (SC.as_players s)) as (Hp & Hq & _).
  cbv zeta in Hp, Hq. destruct (P.resolve_player U raw (SC.as_players s)) as [r w].
  cbn [snd] in *. unfold grows.
  cbn [SC.put_players SC.players SC.tournaments SC.unmapped_players SC.unmapped_tournaments].
  rewrite Hp, Hq. cbn [SC.as_players P.players P.unmapped]. repeat split; lia.
Qed.

Lemma effect_norm_player_single (raw t o st : str) :
  effect 1 0 (SC.norm_player_single U uuid4 _now_iso raw t o st).
Proof.
  intros s. unfold SC.norm_player_single. cbv zeta.
  destruct (dict_get str_eqb _ (SC._PLAYER_CACHE s)); [cbn [snd]; unfold grows; repeat split; lia|].
  unfold P.resolve_or_register.
  pose proof (resolve_player_cases U raw (SC.as_players s)) as (Hp & Hq & _).
  cbv zeta in Hp, Hq. destruct (P.resolve_player U raw (SC.as_players s)) as [[[h|]|e] w];
    cbn [snd] in Hp, Hq.
  - cbn [snd]. unfold grows.
    cbn [SC.set_player_cache SC.called SC.put_players SC.players SC.tournaments
         SC.unmapped_players SC.unmapped_tournaments].
    rewrite Hp, Hq. cbn [SC.as_players P.players P.unmapped]. repeat split; lia.
  - pose proof (register_player_length raw
                  {| P.source_bookmaker := py "SportPesa"; P.tournament := t;
                     P.opponent_raw := o; P.event_time_utc := st |}
                  (uuid4 (SC.calls s)) (_now_iso (SC.calls s)) w) as Hr.
    cbv zeta in Hr. destruct (P.register_unmapped_player U raw _ _ _ w) as [prop w'].
    cbn [snd] in Hr. destruct Hr as (Hp' & Hl). cbn [snd]. unfold grows.
    cbn [SC.set_player_cache SC.called SC.put_players SC.players SC.tournaments
         SC.unmapped_players SC.unmapped_tournaments].
    rewrite Hp', Hp. rewrite Hq in Hl. cbn [SC.as_players P.players P.unmapped] in *.
    repeat split; lia.
  - cbn [snd]. unfold grows.
    cbn [SC.called SC.put_players SC.players SC.tournaments
         SC.unmapped_players SC.unmapped_tournaments].
    rewrite Hp, Hq. cbn [SC.as_players P.players P.unmapped]. repeat split; lia.
Qed.

Lemma effect_norm_tournament (raw : str) :
  effect 0 1 (SC.norm_tournament U uuid4 _now_iso raw).
Proof.
  intros s. unfold SC.norm_tournament. cbv zeta.
  destruct (dict_get str_eqb _ (SC._TOURN_CACHE s)); [cbn [snd]; unfold grows; repeat split; lia|].
  unfold T.resolve_or_register.
  pose proof (resolve_tournament_frame raw (SC.as_tournaments s)) as (Hp & Hq).
  destruct (T.resolve_tournament U raw (SC.as_tournaments s)) as [[h|] w]; cbn [snd] in Hp, Hq.
  - cbn [snd]. unfold grows.
    cbn [SC.set_tourn_cache SC.called SC.put_tournaments SC.players SC.tournaments
         SC.unmapped_players SC.unmapped_tournaments].
    rewrite Hp, Hq. cbn [SC.as_tournaments T.root T.unmapped]. repeat split; lia.
  - pose proof (register_tournament_length raw
                  {| T.source_bookmaker := py "SportPesa"; T.event_time_utc := [] |}
                  (uuid4 (SC.calls s)) (_now_iso (SC.calls s)) w) as Hr.
    cbv zeta in Hr. destruct (T.register_unmapped_tournament U raw _ _ _ w) as [prop w'].
    cbn [snd] in Hr. destruct Hr as (Hp' & Hl). cbn [snd]. unfold grows.
    cbn [SC.set_tourn_cache SC.called SC.put_tournaments SC.players SC.tournaments
         SC.unmapped_players SC.unmapped_tournaments].
    rewrite Hp', Hp. rewrite Hq in Hl. cbn [SC.as_tournaments T.root T.unmapped] in *.
    repeat split; lia.
Qed.

End Assemble.

Section Rows.
Variable U : pyenv.
Variables uuid4 _now_iso : nat -> str.
Variable strftime : Z -> str.

Lemma effect_norm_pair (raw t o st : str) :
  effect 2 0 (SC.norm_pair U uuid4 _now_iso raw t o st).
Proof.
  unfold SC.norm_pair. cbv zeta.
  apply (effect_bind 1 0 1 0); [apply effect_norm_player_single|]. intros n1.
  apply (effect_bind 1 0 0 0); [apply effect_norm_player_single|]. intros n2.
  apply effect_ret.
Qed.

Lemma effect_normalize_match (m : SC.game) (d : bool) :
  effect (if d then 4 else 2) 1 (SC.normalize_match U uuid4 _now_iso strftime m d).
Proof.
  unfold SC.normalize_match. cbv zeta. destruct d.
  - apply (effect_bind 0 1 4 0); [apply effect_norm_tournament|]. intros tinfo.
    apply (effect_bind 2 0 2 0); [apply effect_norm_pair|]. intros [p1a p1b].
    apply (effect_bind 2 0 0 0); [apply effect_norm_pair|]. intros [p2a p2b].
    apply effect_ret.
  - apply (effect_bind 0 1 2 0); [apply effect_norm_tournament|]. intros tinfo.
    apply (effect_bind 1 0 1 0); [apply effect_norm_player_single|]. intros n1.
    apply (effect_bind 1 0 0 0); [apply effect_norm_player_single|]. intros n2.
    apply effect_ret.
Qed.

Lemma effect_resolve_selection (resolved_map : list (str * SC.resolved)) (sel : str) :
  effect 0 0 (SC.resolve_selection U resolved_map sel).
Proof.
  unfold SC.resolve_selection. destruct (dict_get str_eqb _ resolved_map); [apply effect_ret|].
  apply (effect_bind 0 0 0 0); [apply effect_lookup|]. intros [h|]; apply effect_ret.
Qed.

Lemma effect_assemble {number} (m : SC.game) (markets : list (SC.market number))
      (want : bool) :
  effect (if SC.is_doubles (SC.competitors m) then 4 else 2) 1
         (SC.assemble_rows_for_match U uuid4 _now_iso strftime m markets want).
Proof.
  unfold SC.assemble_rows_for_match. cbv zeta.
  destruct (negb (Bool.eqb want (SC.is_doubles (SC.competitors m)))).
  - apply (effect_weaken 0 0); [lia | lia | apply effect_ret].
  - set (n := if SC.is_doubles (SC.competitors m) then 4 else 2).
    replace n with (n + 0) by lia.
    apply (effect_bind n 1 0 0); [apply effect_normalize_match|].
    intros [[[tinfo resolved_map] [p1_canon p2_canon]] [p1_ids p2_ids]].
    apply (effect_bind 0 0 0 0); [|intros rows; apply effect_ret].
    apply effect_for_each. intros mk. apply effect_for_each. intros sel.
    apply (effect_bind 0 0 0 0); [apply effect_resolve_selection|].
    intros [sel_canon sel_ids]. apply effect_ret.
Qed.

Lemma for_each_Forall2 {A B} (R : A -> B -> Prop) (body : A -> SC.M B) (xs : list A) :
  (forall x s y s', body x s = (Ok y, s') -> R x y) ->
  forall s ys s', SC.for_each body xs s = (Ok ys, s') -> List.Forall2 R xs ys.
Proof.
  intros Hb. induction xs as [|x xs IH]; intros s ys s'; cbn [SC.for_each].
  - unfold SC.ret. intros [= <- _]. constructor.
  - unfold SC.bind at 1. destruct (body x s) as [[y|e] s1] eqn:E; [|discriminate].
    unfold SC.bind at 1. destruct (SC.for_each body xs s1) as [[ys1|e] s2] eqn:E'; [|discriminate].
    unfold SC.ret. intros [= <- _]. constructor; [now apply (Hb x s y s1) | now apply (IH s1 ys1 s2)].
Qed.

Lemma for_each_length {A B} (body : A -> SC.M B) (xs : list A) :
  forall s ys s', SC.for_each body xs s = (Ok ys, s') -> length ys = length xs.
Proof.
  intros s ys s' H.
  assert (H2 : List.Forall2 (fun _ _ => True) xs ys).
  { now apply (for_each_Forall2 (fun _ _ => True) body xs (fun _ _ _ _ _ => I) s ys s'). }
  clear H. induction H2 as [|x y xs ys _ _ IH]; [reflexivity|]. cbn [length]. congruence.
Qed.

Lemma concat_length_by {A B} (f : A -> nat) (xs : list A) (yss : list (list B)) :
  List.Forall2 (fun x ys => length ys = f x) xs yss ->
  length (concat yss) = list_sum (List.map f xs).
Proof.
  induction 1 as [|x ys xs yss Hx _ IH]; [reflexivity|].
  cbn [concat list_sum List.map fold_right]. rewrite length_app, Hx, IH. reflexivity.
Qed.

(** The rows of one match. A match of the other kind gives no row and
    changes nothing. Otherwise the two corpora are untouched and, however
    many markets and selections the match has, the queues grow by at most
    one tournament and two players, four for a doubles match: selections
    are looked up, never registered. When the function returns, there is
    one row per selection. *)
Theorem match_queues_competitors_only {number} (m : SC.game)
        (markets : list (SC.market number)) (want_doubles : bool) (s : SC.run) :
  let r := SC.assemble_rows_for_match U uuid4 _now_iso strftime m markets want_doubles s in
  let n := if SC.is_doubles (SC.competitors m) then 4 else 2 in
  (SC.is_doubles (SC.competitors m) = negb want_doubles -> r = (Ok [], s))
  /\ SC.players (snd r) = SC.players s
  /\ SC.tournaments (snd r) = SC.tournaments s
  /\ length (SC.unmapped_players s) <= length (SC.unmapped_players (snd r))
     <= length (SC.unmapped_players s) + n
  /\ length (SC.unmapped_tournaments s) <= length (SC.unmapped_tournaments (snd r))
     <= length (SC.unmapped_tournaments s) + 1
  /\ (SC.is_doubles (SC.competitors m) = want_doubles ->
      forall rows, fst r = Ok rows ->
                   length rows
                   = list_sum (List.map (fun mk => length (SC.selections mk)) markets)).
Proof.
  cbv zeta. split; [|split; [|split; [|split; [|split]]]];
    try apply (effect_assemble m markets want_doubles s).
  - intros H. unfold SC.assemble_rows_for_match. cbv zeta. rewrite H.
    now destruct want_doubles.
  - intros <- rows. unfold SC.assemble_rows_for_match. cbv zeta.
    rewrite eqb_reflx. cbn [negb].
    unfold SC.bind at 1.
    destruct (SC.normalize_match U uuid4 _now_iso strftime m _ s)
      as [[[[[tinfo resolved_map] [p1_canon p2_canon]] [p1_ids p2_ids]]|e] s1];
      [|discriminate].
    unfold SC.bind at 1.
    match goal with |- context [SC.for_each ?body markets s1] =>
      destruct (SC.for_each body markets s1) as [[rs|e] s2] eqn:E
    end; [|discriminate].
    unfold SC.ret. cbn [fst]. intros [= <-].
    apply concat_length_by.
    eapply for_each_Forall2; [|exact E].
    intros mk s0 y s0' Hy. cbv beta in Hy. now apply for_each_length in Hy.
Qed.

End Rows.

(** * [SportPesaClient.fetch_markets]: chunks, split and retry *)

Module SportPesaClient.

(** How a call of [_get_json] ends: with the decoded body, [Some] of its
    entries when it is a dictionary; with an [HTTPError] of the given
    status; or with another exception, which [fetch_chunk] does not catch. *)
Inductive reply (V : Type) :=
| Json (entries : option (list (str * V)))
| HTTPError (status : option Z)
| OtherError.
Arguments Json {V}.
Arguments HTTPError {V}.
Arguments OtherError {V}.

(** What [fetch_markets] raises. *)
Inductive failure :=
| RaisedHTTPError (status : option Z)
| RaisedOther.

(** [getattr(e.response, "status_code", None) == 422] *)
Definition is_422 (status : option Z) : bool :=
  match status with Some c => (c =? 422)%Z | None => false end.

Section WithServer.
Context {V : Type}.
(** The server: the reply to the request for the given chunk of game ids,
    by the number of requests made before. The market ids are the same in
    every request of one call and are left out. *)
Variable _get_json : nat -> list Z -> reply V.

(** The dictionary [out] and, as a ghost, the chunks requested so far. *)
Record state := {
  out : list (str * V);
  requests : list (list Z)
}.

(** [out.update(data)] *)
Definition update (entries : list (str * V)) (o : list (str * V)) : list (str * V) :=
  fold_left (fun o kv => dict_set str_eqb kv.1 kv.2 o) entries o.

(** [fetch_chunk], by recursion on a bound of the length of the chunk. *)
Fixpoint fetch_chunk_aux (fuel : nat) (chunk : list Z) (st : state)
  : option failure * state :=
  match chunk with
  | [] => (None, st)
  | _ =>
      let st1 := {| out := out st; requests := requests st ++ [chunk] |} in
      match _get_json (length (requests st)) chunk with
      | Json (Some entries) =>
          (None, {| out := update entries (out st); requests := requests st1 |})
      | Json None => (None, st1)
      | HTTPError status =>
          if is_422 status then
            if (length chunk =? 1)%nat then (None, st1)
            else
              match fuel with
              | 0 => (None, st1)
              | S fuel' =>
                  let mid := (length chunk / 2)%nat in
                  match fetch_chunk_aux fuel' (firstn mid chunk) st1 with
                  | (None, st2) => fetch_chunk_aux fuel' (skipn mid chunk) st2
                  | r => r
                  end
              end
          else (Some (RaisedHTTPError status), st1)
      | OtherError => (Some RaisedOther, st1)
      end
  end.

Definition fetch_chunk (chunk : list Z) (st : state) : option failure * state :=
  fetch_chunk_aux (length chunk) chunk st.

(** [ids[i : i + MARKET_CHUNK_SIZE] for i in range(0, len(ids), MARKET_CHUNK_SIZE)] *)
Definition chunks (ids : list Z) : list (list Z) :=
  List.map (fun j => firstn SC.MARKET_CHUNK_SIZE (skipn (j * SC.MARKET_CHUNK_SIZE) ids))
           (seq 0 ((length ids + (SC.MARKET_CHUNK_SIZE - 1)) / SC.MARKET_CHUNK_SIZE)).

Fixpoint fetch_all (cs : list (list Z)) (st : state) : option failure * state :=
  match cs with
  | [] => (None, st)
  | c :: cs' =>
      match fetch_chunk c st with
      | (None, st') => fetch_all cs' st'
      | r => r
      end
  end.

(** [fetch_markets]: [game_ids] are the ids of the matches, [None] for a
    match without one; the result is [out], or the exception. *)
Definition fetch_markets (game_ids : list (option Z)) : option failure * state :=
  let ids := flat_map (fun x => match x with
                                | Some i => if (i =? 0)%Z then [] else [i]
                                | None => []
                                end) game_ids in
  fetch_all (chunks ids) {| out := []; requests := [] |}.

End WithServer.
End SportPesaClient.

Import SportPesaClient.

Section FetchFacts.
Context {V : Type}.
Variable _get_json : nat -> list Z -> reply V.

Definition logged (chunk : list Z) (st : state (V := V)) : state :=
  {| out := out st; requests := requests st ++ [chunk] |}.

Lemma fetch_chunk_fuel (fuel1 fuel2 : nat) (chunk : list Z) (st : state) :
  length chunk <= fuel1 -> length chunk <= fuel2 ->
  fetch_chunk_aux _get_json fuel1 chunk st = fetch_chunk_aux _get_json fuel2 chunk st.
Proof.
  revert fuel2 chunk st. induction fuel1 as [|f1 IH]; intros fuel2 chunk st H1 H2.
  - destruct chunk; [|cbn [length] in H1; lia]. now destruct fuel2.
  - destruct chunk as [|c chunk]; [now destruct fuel2|].
    destruct fuel2 as [|f2]; [cbn [length] in H2; lia|].
    cbn [fetch_chunk_aux]. cbv zeta.
    destruct (_get_json _ _) as [[entries|]|status|]; try reflexivity.
    destruct (is_422 status); [|reflexivity].
    destruct (length (c :: chunk) =? 1)%nat eqn:E1; [reflexivity|].
    apply Nat.eqb_neq in E1.
    assert (Hmid : 1 <= length (c :: chunk) / 2 < length (c :: chunk)).
    { cbn [length] in *. split.
      - apply Nat.div_le_lower_bound; lia.
      - apply Nat.div_lt; lia. }
    rewrite (IH f2 (firstn _ (c :: chunk))) by (rewrite length_firstn; lia).
    destruct (fetch_chunk_aux _get_json f2 _ _) as [[f|] st2]; [reflexivity|].
    apply IH; rewrite length_skipn; lia.
Qed.

(** [fetch_chunk] as the source writes it. *)
Lemma fetch_chunk_eq (chunk : list Z) (st : state) :
  fetch_chunk _get_json chunk st
  = match chunk with
    | [] => (None, st)
    | _ =>
        match _get_json (length (requests st)) chunk with
        | Json (Some entries) =>
            (None, {| out := update entries (out st); requests := requests st ++ [chunk] |})
        | Json None => (None, logged chunk st)
        | HTTPError status =>
            if is_422 status then
              if (length chunk =? 1)%nat then (None, logged chunk st)
              else
                let mid := (length chunk / 2)%nat in
                match fetch_chunk _get_json (firstn mid chunk) (logged chunk st) with
                | (None, st2) => fetch_chunk _get_json (skipn mid chunk) st2
                | r => r
                end
            else (Some (RaisedHTTPError status), logged chunk st)
        | OtherError => (Some RaisedOther, logged chunk st)
        end
    end.
Proof.
  unfold fetch_chunk. destruct chunk as [|c chunk]; [reflexivity|].
  cbn [fetch_chunk_aux length]. cbv zeta. fold (logged (c :: chunk) st).
  destruct (_get_json _ _) as [[entries|]|status|]; try reflexivity.
  destruct (is_422 status); [|reflexivity].
  change (S (length chunk)) with (length (c :: chunk)).
  destruct (length (c :: chunk) =? 1)%nat eqn:E1; [reflexivity|].
  apply Nat.eqb_neq in E1.
  assert (Hmid : 1 <= length (c :: chunk) / 2 < length (c :: chunk)).
  { cbn [length] in *. split.
    - apply Nat.div_le_lower_bound; lia.
    - apply Nat.div_lt; lia. }
  cbn [length] in Hmid |- *.
  rewrite (fetch_chunk_fuel (length chunk) (length (firstn (S (length chunk) / 2) (c :: chunk))))
    by (rewrite ?length_firstn; cbn [length]; lia).
  destruct (fetch_chunk_aux _get_json _ (firstn _ _) _) as [[f|] st2]; [reflexivity|].
  apply fetch_chunk_fuel; rewrite ?length_skipn; cbn [length]; lia.
Qed.


(** What one chunk adds to the log: requests for non-empty parts of the
    chunk, fewer than twice its length. *)
Lemma fetch_chunk_requests (chunk : list Z) (st : state) :
  exists new,
    requests (snd (fetch_chunk _get_json chunk st)) = requests st ++ new
    /\ Forall (fun c => c <> [] /\ length c <= length chunk /\ incl c chunk) new
    /\ length new <= 2 * length chunk - 1.
Proof.
  remember (length chunk) as n eqn:Hn. revert chunk st Hn.
  induction n as [n IH] using lt_wf_ind. intros chunk st Hn.
  rewrite fetch_chunk_eq. destruct chunk as [|c chunk].
  { exists []. cbn [snd]. rewrite app_nil_r. repeat split; [constructor | cbn; lia]. }
  assert (Hone : exists new,
             requests (logged (c :: chunk) st) = requests st ++ new
             /\ Forall (fun c0 => c0 <> [] /\ length c0 <= n /\ incl c0 (c :: chunk)) new
             /\ length new <= 2 * n - 1).
  { exists [c :: chunk]. cbn [logged requests]. split; [reflexivity|]. split.
    - constructor; [|constructor]. repeat split; [discriminate | lia | apply incl_refl].
    - subst n. cbn [length]. lia. }
  destruct (_get_json _ _) as [[entries|]|status|]; cbn [snd]; try exact Hone.
  destruct (is_422 status); cbn [snd]; [|exact Hone].
  destruct (length (c :: chunk) =? 1)%nat eqn:E1; cbn [snd]; [exact Hone|].
  apply Nat.eqb_neq in E1. cbv zeta. rewrite <- Hn.
  assert (Hmid : 1 <= n / 2 < n).
  { subst n. cbn [length] in *. split.
    - apply Nat.div_le_lower_bound; lia.
    - apply Nat.div_lt; lia. }
  set (a := firstn (n / 2) (c :: chunk)). set (b := skipn (n / 2) (c :: chunk)).
  assert (Ha : length a = n / 2) by (unfold a; rewrite length_firstn; lia).
  assert (Hb : length b = n - n / 2) by (unfold b; rewrite length_skipn; lia).
  assert (Hia : incl a (c :: chunk)) by (intros x Hx; now apply (firstn_In (n / 2))).
  assert (Hib : incl b (c :: chunk)) by (intros x Hx; now apply (skipn_In (n / 2))).
  destruct (IH (length a) ltac:(lia) a (logged (c :: chunk) st) eq_refl)
    as (new1 & E1' & F1 & L1).
  destruct (fetch_chunk _get_json a (logged (c :: chunk) st)) as [[f|] st2]; cbn [snd] in *.
  - exists ((c :: chunk) :: new1). cbn [logged requests] in E1'.
    rewrite E1', <- app_assoc. split; [reflexivity|]. split.
    + constructor; [repeat split; [discriminate | lia | apply incl_refl]|].
      eapply List.Forall_impl; [|exact F1]. intros x (? & ? & ?).
      repeat split; [assumption | lia | now apply (incl_tran (m := a))].
    + cbn [length]. lia.
  - destruct (IH (length b) ltac:(lia) b st2 eq_refl) as (new2 & E2' & F2 & L2).
    exists ((c :: chunk) :: new1 ++ new2). cbn [logged requests] in E1'.
    rewrite E2', E1', <- !app_assoc. split; [reflexivity|]. split.
    + constructor; [repeat split; [discriminate | lia | apply incl_refl]|].
      apply Forall_app. split.
      * eapply List.Forall_impl; [|exact F1]. intros x (? & ? & ?).
        repeat split; [assumption | lia | now apply (incl_tran (m := a))].
      * eapply List.Forall_impl; [|exact F2]. intros x (? & ? & ?).
        repeat split; [assumption | lia | now apply (incl_tran (m := b))].
    + cbn [length]. rewrite length_app. lia.
Qed.


Lemma chunks_concat (ids : list Z) : concat (chunks ids) = ids.
Proof.
  unfold chunks.
  assert (H : forall k (l : list Z), length l <= k * SC.MARKET_CHUNK_SIZE ->
            concat (List.map (fun j => firstn SC.MARKET_CHUNK_SIZE
                                         (skipn (j * SC.MARKET_CHUNK_SIZE) l)) (seq 0 k)) = l).
  { induction k as [|k IH]; intros l Hl.
    - destruct l; [reflexivity | cbn [length] in Hl; lia].
    - cbn [seq List.map concat]. rewrite <- seq_shift, List.map_map.
      rewrite (map_ext _ (fun j => firstn SC.MARKET_CHUNK_SIZE
                                     (skipn (j * SC.MARKET_CHUNK_SIZE)
                                        (skipn SC.MARKET_CHUNK_SIZE l)))).
      + rewrite IH; [apply firstn_skipn|]. rewrite length_skipn. lia.
      + intros j. rewrite skipn_skipn. f_equal. f_equal. lia. }
  apply H. unfold SC.MARKET_CHUNK_SIZE.
  pose proof (Nat.div_mod_eq (length ids + (20 - 1)) 20) as Hd.
  pose proof (Nat.mod_upper_bound (length ids + (20 - 1)) 20 ltac:(lia)). lia.
Qed.

Lemma chunks_sizes (ids : list Z) :
  Forall (fun c => c <> [] /\ length c <= SC.MARKET_CHUNK_SIZE) (chunks ids).
Proof.
  unfold chunks. apply List.Forall_forall. intros c Hc.
  apply in_map_iff in Hc as (j & <- & Hj). apply in_seq in Hj as [_ Hj]. cbn [plus] in Hj.
  assert (Hlt : j * SC.MARKET_CHUNK_SIZE < length ids).
  { unfold SC.MARKET_CHUNK_SIZE in *.
    pose proof (Nat.div_mod_eq (length ids + (20 - 1)) 20) as Hd.
    pose proof (Nat.mod_upper_bound (length ids + (20 - 1)) 20 ltac:(lia)). lia. }
  split.
  - intros E. apply (f_equal (@length Z)) in E.
    rewrite length_firstn, length_skipn in E. cbn [length] in E.
    unfold SC.MARKET_CHUNK_SIZE in *. lia.
  - rewrite length_firstn. lia.
Qed.

Lemma fetch_all_requests (cs : list (list Z)) (st : state) :
  Forall (fun c => length c <= SC.MARKET_CHUNK_SIZE) cs ->
  exists new,
    requests (snd (fetch_all _get_json cs st)) = requests st ++ new
    /\ Forall (fun c => c <> [] /\ length c <= SC.MARKET_CHUNK_SIZE /\ incl c (concat cs)) new
    /\ length new <= 2 * length (concat cs).
Proof.
  revert st. induction cs as [|c cs IH]; intros st Hall; cbn [fetch_all concat].
  - exists []. cbn [snd]. rewrite app_nil_r. repeat split; [constructor | cbn; lia].
  - apply Forall_cons_1 in Hall as [Hc Hall].
    destruct (fetch_chunk_requests c st) as (new1 & E1 & F1 & L1).
    assert (F1' : Forall (fun c0 => c0 <> [] /\ length c0 <= SC.MARKET_CHUNK_SIZE
                                    /\ incl c0 (c ++ concat cs)) new1).
    { eapply List.Forall_impl; [|exact F1]. intros x (? & ? & ?).
      repeat split; [assumption | lia | now apply incl_appl]. }
    destruct (fetch_chunk _get_json c st) as [[f|] st1]; cbn [snd] in *.
    + exists new1. split; [exact E1|]. split; [exact F1'|]. rewrite length_app. lia.
    + destruct (IH st1 Hall) as (new2 & E2 & F2 & L2).
      exists (new1 ++ new2). rewrite E2, E1, <- app_assoc. split; [reflexivity|]. split.
      * apply Forall_app. split; [exact F1'|].
        eapply List.Forall_impl; [|exact F2]. intros x (? & ? & ?).
        repeat split; [assumption | assumption | now apply incl_appr].
      * rewrite !length_app. lia.
Qed.

Lemma game_ids_In (game_ids : list (option Z)) (i : Z) :
  In i (flat_map (fun x => match x with
                           | Some i => if (i =? 0)%Z then [] else [i]
                           | None => []
                           end) game_ids)
  <-> In (Some i) game_ids /\ i <> 0%Z.
Proof.
  rewrite in_flat_map. split.
  - intros ([j|] & Hin & Hj); [|destruct Hj].
    destruct (Z.eqb_spec j 0); [destruct Hj|]. destruct Hj as [<-|[]]. now split.
  - intros [Hin Hne]. exists (Some i). split; [assumption|].
    destruct (Z.eqb_spec i 0); [contradiction | now left].
Qed.

Lemma game_ids_length (game_ids : list (option Z)) :
  length (flat_map (fun x => match x with
                             | Some i => if (i =? 0)%Z then [] else [i]
                             | None => []
                             end) game_ids)
  <= length game_ids.
Proof.
  induction game_ids as [|[j|] l IH]; cbn [flat_map length app]; [lia | | lia].
  rewrite length_app. destruct (j =? 0)%Z; cbn [length]; lia.
Qed.

(** Whatever the server answers, and whether the call returns or raises,
    every request of [fetch_markets] is for at least one and at most
    [MARKET_CHUNK_SIZE] game ids, each of them a non-zero id of the caller,
    and there are at most two requests per game: the splitting ends. *)
Theorem fetch_markets_requests (game_ids : list (option Z)) :
  let st := snd (fetch_markets _get_json game_ids) in
  Forall (fun c => c <> [] /\ length c <= SC.MARKET_CHUNK_SIZE
                   /\ forall i, In i c -> In (Some i) game_ids /\ i <> 0%Z)
         (requests st)
  /\ length (requests st) <= 2 * length game_ids.
Proof.
  cbv zeta. unfold fetch_markets. cbv zeta.
  set (ids := flat_map _ game_ids).
  destruct (fetch_all_requests (chunks ids) {| out := []; requests := [] |})
    as (new & E & F & L).
  { eapply List.Forall_impl; [|apply chunks_sizes]. now intros c [_ H]. }
  cbn [requests app] in E. rewrite E. rewrite chunks_concat in F, L. split.
  - eapply List.Forall_impl; [|exact F]. intros c (H1 & H2 & H3).
    repeat split; try assumption; apply (proj1 (game_ids_In game_ids i)), H3; assumption.
  - pose proof (game_ids_length game_ids). fold ids in H. lia.
Qed.

End FetchFacts.

Section Isolation.
Context {V : Type}.
Variable _get_json : nat -> list Z -> reply V.
(** A server that rejects, with status 422, exactly the requests that
    name a bad game, and answers the others with the markets of every game
    named, under the key of the game. *)
Variable bad : Z -> bool.
Variable key : Z -> str.
Variable data : Z -> V.
Hypothesis key_inj : forall i j, key i = key j -> i = j.
Hypothesis server :
  forall n chunk, chunk <> [] ->
    _get_json n chunk
    = if existsb bad chunk then HTTPError (Some 422%Z)
      else Json (Some (List.map (fun i => (key i, data i)) chunk)).

(** [o] holds the markets of the good games of [xs], and nothing else. *)
Definition holds (o : list (str * V)) (xs : list Z) : Prop :=
  (forall i, In i xs -> bad i = false -> dict_get str_eqb (key i) o = Some (data i))
  /\ (forall k v, dict_get str_eqb k o = Some v ->
                  exists j, In j xs /\ bad j = false /\ k = key j /\ v = data j).

Lemma holds_bad (o : list (str * V)) (xs : list Z) (i : Z) :
  bad i = true -> holds o xs -> holds o (xs ++ [i]).
Proof.
  intros Hb [H1 H2]. split.
  - intros j Hj Hg. apply in_app_or in Hj as [Hj|[<-|[]]]; [now apply H1 | congruence].
  - intros k v Hk. destruct (H2 k v Hk) as (j & Hj & ?). exists j.
    split; [apply in_or_app; now left | assumption].
Qed.

Lemma holds_update (c : list Z) (o : list (str * V)) (xs : list Z) :
  (forall i, In i c -> bad i = false) ->
  holds o xs -> holds (update (List.map (fun i => (key i, data i)) c) o) (xs ++ c).
Proof using key_inj.
  revert o xs. induction c as [|i c IH]; intros o xs Hg Hh.
  - cbn [List.map update fold_left]. now rewrite app_nil_r.
  - cbn [List.map]. unfold update. cbn [fold_left fst snd].
    change (fold_left _ ?es ?o1) with (update es o1).
    replace (xs ++ i :: c) with ((xs ++ [i]) ++ c) by now rewrite <- app_assoc.
    apply IH; [intros j Hj; apply Hg; now right|].
    destruct Hh as [H1 H2]. split.
    + intros j Hj Hgj. rewrite (dict_get_set str_eqb str_eqb_eq).
      destruct (str_eqb (key j) (key i)) eqn:E.
      * apply str_eqb_eq, key_inj in E. now subst.
      * apply in_app_or in Hj as [Hj|[<-|[]]]; [now apply H1|].
        rewrite str_eqb_refl in E. discriminate.
    + intros k v. rewrite (dict_get_set str_eqb str_eqb_eq).
      destruct (str_eqb k (key i)) eqn:E.
      * apply str_eqb_eq in E. intros [= <-]. exists i.
        split; [apply in_or_app; right; now left|]. split; [apply Hg; now left|]. now split.
      * intros Hk. destruct (H2 k v Hk) as (j & Hj & ?). exists j.
        split; [apply in_or_app; now left | assumption].
Qed.

Lemma fetch_chunk_isolates (chunk : list Z) (st : state) (xs : list Z) :
  holds (out st) xs ->
  fst (fetch_chunk _get_json chunk st) = None
  /\ holds (out (snd (fetch_chunk _get_json chunk st))) (xs ++ chunk).
Proof using key_inj server.
  remember (length chunk) as n eqn:Hn. revert chunk st xs Hn.
  induction n as [n IH] using lt_wf_ind. intros chunk st xs Hn Hh.
  rewrite fetch_chunk_eq. destruct chunk as [|c chunk].
  { cbn [fst snd]. now rewrite app_nil_r. }
  rewrite server by discriminate.
  destruct (existsb bad (c :: chunk)) eqn:Eb.
  - cbn [is_422]. rewrite Z.eqb_refl.
    destruct (length (c :: chunk) =? 1)%nat eqn:E1.
    + apply Nat.eqb_eq in E1. destruct chunk; [|cbn [length] in E1; lia].
      cbn [fst snd logged out]. split; [reflexivity|].
      cbn [existsb] in Eb. rewrite orb_false_r in Eb. now apply holds_bad.
    + apply Nat.eqb_neq in E1. cbv zeta. rewrite <- Hn.
      assert (Hmid : 1 <= n / 2 < n).
      { subst n. cbn [length] in *. split.
        - apply Nat.div_le_lower_bound; lia.
        - apply Nat.div_lt; lia. }
      set (a := firstn (n / 2) (c :: chunk)). set (b := skipn (n / 2) (c :: chunk)).
      assert (Ha : length a = n / 2) by (unfold a; rewrite length_firstn; lia).
      assert (Hb : length b = n - n / 2) by (unfold b; rewrite length_skipn; lia).
      destruct (IH (length a) ltac:(lia) a (logged (c :: chunk) st) xs eq_refl Hh)
        as (R1 & H1).
      destruct (fetch_chunk _get_json a (logged (c :: chunk) st)) as [r1 st2].
      cbn [fst snd] in R1, H1. subst r1.
      destruct (IH (length b) ltac:(lia) b st2 (xs ++ a) eq_refl H1) as (R2 & H2).
      split; [exact R2|]. rewrite <- app_assoc in H2. unfold a, b in H2.
      now rewrite firstn_skipn in H2.
  - cbn [fst snd out]. split; [reflexivity|]. apply holds_update; [|assumption].
    intros i Hi. destruct (bad i) eqn:E; [|reflexivity].
    assert (existsb bad (c :: chunk) = true) by (apply existsb_exists; now exists i).
    congruence.
Qed.

Lemma fetch_all_isolates (cs : list (list Z)) (st : state) (xs : list Z) :
  holds (out st) xs ->
  fst (fetch_all _get_json cs st) = None
  /\ holds (out (snd (fetch_all _get_json cs st))) (xs ++ concat cs).
Proof using key_inj server.
  revert st xs. induction cs as [|c cs IH]; intros st xs Hh; cbn [fetch_all concat].
  - cbn [fst snd]. now rewrite app_nil_r.
  - destruct (fetch_chunk_isolates c st xs Hh) as (R1 & H1).
    destruct (fetch_chunk _get_json c st) as [r1 st1]. cbn [fst snd] in R1, H1. subst r1.
    rewrite app_assoc. now apply IH.
Qed.

(** One bad game costs only itself. Against a server that rejects exactly
    the requests naming a bad game, [fetch_markets] returns without an
    exception, and its result holds the markets of every good game of the
    caller and of no other. *)
Theorem fetch_markets_isolates_bad_games (game_ids : list (option Z)) :
  let r := fetch_markets _get_json game_ids in
  fst r = None
  /\ (forall i, In (Some i) game_ids -> i <> 0%Z -> bad i = false ->
                dict_get str_eqb (key i) (out (snd r)) = Some (data i))
  /\ (forall k v, dict_get str_eqb k (out (snd r)) = Some v ->
                  exists j, In (Some j) game_ids /\ bad j = false
                            /\ k = key j /\ v = data j).
Proof using key_inj server.
  cbv zeta. unfold fetch_markets. cbv zeta.
  set (ids := flat_map _ game_ids).
  destruct (fetch_all_isolates (chunks ids) {| out := []; requests := [] |} [])
    as (R & H1 & H2).
  { split; [intros i []|]. intros k v. discriminate. }
  rewrite chunks_concat in H1, H2. cbn [app] in H1, H2.
  split; [exact R|]. split.
  - intros i Hi Hne Hg. apply H1; [|assumption]. now apply game_ids_In.
  - intros k v Hk. destruct (H2 k v Hk) as (j & Hj & Hg & ? & ?).
    apply game_ids_In in Hj as [Hj _]. now exists j.
Qed.

End Isolation.

(** A run that starts with one player in the corpus, no tournament, an
    empty cache and empty queues. *)
Definition empty_run : SC.run :=
  {| SC.kv := alias_kv.empty_db;
     SC.players := P.players one_player; SC.unmapped_players := [];
     SC._EXT_INDEX := None; SC.ext_lookups := 0;
     SC.tournaments := T.root no_tournament; SC.unmapped_tournaments := [];
     SC.index_reads := 0;
     SC._PLAYER_CACHE := []; SC._TOURN_CACHE := []; SC.calls := 0 |}.

Lemma norm_is_memoized_witness :
  (forall t o st t' o' st' out s',
      SC.norm_player_single ascii_env (fun _ => py "id") (fun _ => py "now")
        (py "R. Federer") t o st empty_run = (Ok out, s') ->
      SC.norm_player_single ascii_env (fun _ => py "id") (fun _ => py "now")
        (py " r. federer ") t' o' st' s' = (Ok out, s'))
  /\ (forall out s',
      SC.norm_tournament ascii_env (fun _ => py "id") (fun _ => py "now")
        (py "R. Federer") empty_run = (out, s') ->
      SC.norm_tournament ascii_env (fun _ => py "id") (fun _ => py "now")
        (py " r. federer ") s' = (out, s')).
Proof.
  apply norm_is_memoized. vm_compute. reflexivity.
Defined.

(** A server that rejects the game 3, with the sign and the absolute value
    of an id as its key. *)
Definition sample_key (i : Z) : str := [Z.abs_N i; if (i <? 0)%Z then 1%N else 0%N].

Definition sample_bad (i : Z) : bool := (i =? 3)%Z.

Definition sample_server (n : nat) (chunk : list Z) : reply Z :=
  if existsb sample_bad chunk then HTTPError (Some 422%Z)
  else Json (Some (List.map (fun i => (sample_key i, (10 * i)%Z)) chunk)).

Lemma sample_key_inj (i j : Z) : sample_key i = sample_key j -> i = j.
Proof.
  unfold sample_key. intros [= Habs Hsign].
  apply (f_equal Z.of_N) in Habs. rewrite !N2Z.inj_abs_N in Habs.
  destruct (Z.ltb_spec i 0), (Z.ltb_spec j 0); try discriminate; lia.
Qed.

Lemma fetch_markets_isolates_bad_games_witness :
  let r := fetch_markets sample_server [Some 1%Z; Some 3%Z; None; Some 0%Z; Some 4%Z] in
  fst r = None
  /\ (forall i, In (Some i) [Some 1%Z; Some 3%Z; None; Some 0%Z; Some 4%Z] ->
                i <> 0%Z -> sample_bad i = false ->
                dict_get str_eqb (sample_key i) (out (snd r)) = Some (10 * i)%Z)
  /\ (forall k v, dict_get str_eqb k (out (snd r)) = Some v ->
                  exists j, In (Some j) [Some 1%Z; Some 3%Z; None; Some 0%Z; Some 4%Z]
                            /\ sample_bad j = false /\ k = sample_key j /\ v = (10 * j)%Z).
Proof.
  apply (fetch_markets_isolates_bad_games sample_server sample_bad sample_key
           (fun i => (10 * i)%Z)).
  - exact sample_key_inj.
  - intros n chunk _. reflexivity.
Defined.

(** ** The cleaner and the review commands, once more *)

Section Tidy.
Variable U : pyenv.

(** What comes out of [_clean_display_name], whatever goes in: only
    characters the cleaner keeps, none of those it replaces, no two
    whitespace characters in a row, and nothing left to strip at the ends. *)
Theorem cleaned_names_are_tidy (x : str) :
  let c := P._clean_display_name U x in
  (forall z, In z c -> P.not_kept U z = false)
  /\ (forall z, In z c -> ~ unified_away z)
  /\ single_spaced c
  /\ strip_chars (py " ,.-/") c = c.
Proof. apply clean_output. Qed.

(** The review functions of the tournaments report a proposal id that is
    not in the queue with the not-found [ValueError], and leave the cache,
    the corpus, its counter and the queue as they are. *)
Theorem unknown_proposal_is_reported
    (pid : str) (w : T.world) (level country city surface today : str)
    (existing : Z) (merge : bool) :
  T.find_proposal pid (T.unmapped w) = None ->
  T.approve_proposal_as_new U pid level country city surface today w
  = (Raise (T.not_found pid), w)
  /\ T.mark_proposal_as_duplicate U pid existing merge w = (Raise (T.not_found pid), w).
Proof. apply tournament_review_not_found. Qed.

End Tidy.

Lemma unknown_proposal_is_reported_witness :
  T.approve_proposal_as_new ascii_env (py "id-9") (py "ATP") [] [] (py "Grass")
    (py "20260101") one_pending
  = (Raise (T.not_found (py "id-9")), one_pending)
  /\ T.mark_proposal_as_duplicate ascii_env (py "id-9") 7 true one_pending
     = (Raise (T.not_found (py "id-9")), one_pending).
Proof.
  apply unknown_proposal_is_reported. vm_compute. reflexivity.
Defined.
